(** * AIStore core: placement, download coordination, notifications, shared transport

    A shallow embedding of the Go sources
      - meta/hrw.go                (HRW placement)
      - downloader/download.go     (target-side jogger queue)
      - ais/downloader.go          (proxy-side download coordinator)
      - transport/bundle/shared_dm.go (shared data mover)
      - ais/notifications.go       (notification listeners)
    together with the properties stated about them.

    Conventions used throughout:
      - [uint64] values are [N]; Go [int] values are [Z];
      - a Go [map] is a [gmap]; a [for ... range m] loop over a map is run over
        an explicit enumeration of the map (Go leaves the order unspecified), so
        every loop function takes the visiting order as an argument and
        [range_of m order] says that [order] is one possible visiting order;
      - a run-time panic (index out of range, failed assertion) is the outcome
        [Panic]; [debug.Assert*] calls are compiled out of production builds
        and are not modelled. *)

From Stdlib Require Import ZArith NArith Lia Ascii String.
From stdpp Require Import base option list sorting gmap strings fin_maps.

Local Open Scope Z_scope.
#[local] Set Warnings "-clear-no-such-hyp".

(** Outcome of a Go call that can return a value, return an error, or panic. *)
Inductive outcome (A E : Type) : Type :=
| Ok (a : A)
| Err (e : E)
| Panic.
Arguments Ok {A E} a.
Arguments Err {A E} e.
Arguments Panic {A E}.

(** [for _, v := range m]: the values of [m] in some order. *)
Definition range_of {V : Type} (m : gmap string V) (order : list V) : Prop :=
  order ≡ₚ (map_to_list m).*2.

(** [for k := range m]: the keys of [m] in some order. *)
Definition range_keys_of {V : Type} (m : gmap string V) (order : list string) : Prop :=
  order ≡ₚ (map_to_list m).*1.

(* ===================================================================== *)
(** ** meta/hrw.go *)
(* ===================================================================== *)

Module Hrw.

(** Modelled from the spec: the node flags are declared outside the files at
    hand; section 3 lists them as non-electable, in-maintenance,
    decommissioning and IC-member. *)
Record SnodeFlags : Type := {
  NonElectable : bool;
  InMaint : bool;
  Decomm : bool;
  IC : bool
}.

(** [meta.Snode]: an id, its precomputed 64-bit digest, and the flags. *)
Record Snode : Type := {
  ID : string;
  idDigest : N;
  Flags : SnodeFlags
}.

#[global] Instance SnodeFlags_eq_dec : EqDecision SnodeFlags.
Proof. solve_decision. Defined.
#[global] Instance Snode_eq_dec : EqDecision Snode.
Proof. solve_decision. Defined.

Definition Digest (si : Snode) : N := idDigest si.

(** Modelled from the spec: [Snode.InMaintOrDecomm] is declared outside the
    files at hand; a node is excluded when it is in maintenance or being
    decommissioned. *)
Definition InMaintOrDecomm (si : Snode) : bool :=
  InMaint (Flags si) || Decomm (Flags si).

Inductive error : Type :=
| ErrNoNodes (targets : bool) (total : Z)      (* cmn.NewErrNoNodes(role, len(map)) *)
| ErrNotEnoughTargets (required available : Z) (* cmn.ErrNotEnoughTargets *)
| ErrEmptyIC.

(** [smap.Tmap] (and [Pmap]): node id to node. *)
Abbreviation NodeMap := (gmap string Snode).

(** Modelled from the spec: [Smap.CountTargets] is declared outside the files
    at hand. The comment above [HrwTargetList] ("If count == length of
    Smap.Tmap, the function returns as many targets as possible") identifies
    the compared quantity with the size of [Tmap], which is also the number of
    nodes a [range] over it visits. *)
Definition CountTargets (tmap_order : list Snode) : Z := Z.of_nat (length tmap_order).

Section WithHash.

(** [xoshiro256.Hash], [xxhash.Checksum64S] and the seed [cos.MLCG32] live
    outside the files at hand; they are parameters. *)
Variable Hash : N -> N.
Variable Checksum64S : string -> N -> N.
Variable MLCG32 : N.

(** The HRW weight of a node for a key digest: [xoshiro256.Hash(tsi.Digest() ^ digest)]. *)
Definition weight (digest : N) (tsi : Snode) : N :=
  Hash (N.lxor (Digest tsi) digest).

(** One iteration of the loop of [HrwHash2T]; the state is [(max, si)]. *)
Definition HrwHash2T_step (digest : N) (skipMaint : bool)
    (st : N * option Snode) (tsi : Snode) : N * option Snode :=
  if skipMaint && InMaintOrDecomm tsi then st
  else
    let cs := weight digest tsi in
    if (st.1 <=? cs)%N then (cs, Some tsi) else st.

Definition HrwHash2T (tmap_order : list Snode) (digest : N) (skipMaint : bool)
    : outcome Snode error :=
  match (foldl (HrwHash2T_step digest skipMaint) (0%N, None) tmap_order).2 with
  | Some si => Ok si
  | None => Err (ErrNoNodes true (Z.of_nat (length tmap_order)))
  end.

Definition HrwName2T (tmap_order : list Snode) (uname : string) (skipMaint : bool)
    : outcome Snode error :=
  let digest := Checksum64S uname MLCG32 in
  HrwHash2T tmap_order digest skipMaint.

(** [HrwTargetTask]: as [HrwHash2T] with maintenance always skipped. *)
Definition HrwTargetTask (tmap_order : list Snode) (uuid : string) : outcome Snode error :=
  let digest := Checksum64S uuid MLCG32 in
  match (foldl (HrwHash2T_step digest true) (0%N, None) tmap_order).2 with
  | Some si => Ok si
  | None => Err (ErrNoNodes true (Z.of_nat (length tmap_order)))
  end.

(** *** hrwList *)

Record hrwList : Type := {
  hs : list N;
  sis : list Snode;
  n : Z
}.

(** [make([]uint64, 0, count)] panics on a negative capacity. *)
Definition newHrwList (count : Z) : option hrwList :=
  if count <? 0 then None else Some {| hs := []; sis := []; n := count |}.

Definition get (hl : hrwList) : list Snode := sis hl.

(** The insertion loop of [hrwList.add]:
    [for idx > 0 && hs[idx-1] < hs[idx] { swap; idx-- }].
    [None] is an index out of range. *)
Fixpoint bubble (idx : nat) (hl : hrwList) : option hrwList :=
  match idx with
  | O => Some hl
  | S i =>
      h1 ← hs hl !! i;
      h2 ← hs hl !! idx;
      if (h1 <? h2)%N then
        s1 ← sis hl !! i;
        s2 ← sis hl !! idx;
        bubble i {| hs := <[i := h2]> (<[idx := h1]> (hs hl));
                    sis := <[i := s2]> (<[idx := s1]> (sis hl));
                    n := n hl |}
      else Some hl
  end.

(** [hl.hs[l-1]] for a Go [int] index [l-1]: out of range when [l = 0]. *)
Definition at_index {A : Type} (xs : list A) (i : Z) : option A :=
  if i <? 0 then None else xs !! Z.to_nat i.

Definition set_index {A : Type} (xs : list A) (i : Z) (x : A) : option (list A) :=
  if (i <? 0) || (Z.of_nat (length xs) <=? i) then None
  else Some (<[Z.to_nat i := x]> xs).

(** [hrwList.add]; [None] is a panic. *)
Definition add (wgt : N) (sinfo : Snode) (hl : hrwList) : option hrwList :=
  let l := Z.of_nat (length (sis hl)) in
  if l =? n hl then
    last_w ← at_index (hs hl) (l - 1);
    if (wgt <=? last_w)%N then Some hl
    else
      hs' ← set_index (hs hl) (l - 1) wgt;
      sis' ← set_index (sis hl) (l - 1) sinfo;
      bubble (Z.to_nat (l - 1)) {| hs := hs'; sis := sis'; n := n hl |}
  else
    bubble (Z.to_nat (l + 1 - 1))
      {| hs := hs hl ++ [wgt]; sis := sis hl ++ [sinfo]; n := n hl |}.

(** The loop body of [HrwTargetList]. *)
Definition HrwTargetList_step (digest : N) (st : option hrwList) (tsi : Snode)
    : option hrwList :=
  hl ← st;
  let cs := weight digest tsi in
  if InMaintOrDecomm tsi then Some hl else add cs tsi hl.

Definition HrwTargetList (tmap_order : list Snode) (uname : string) (count : Z)
    : outcome (list Snode) error :=
  let cnt := CountTargets tmap_order in
  if cnt <? count then Err (ErrNotEnoughTargets count cnt)
  else
    let digest := Checksum64S uname MLCG32 in
    match foldl (HrwTargetList_step digest) (newHrwList count) tmap_order with
    | None => Panic
    | Some hlist =>
        let sis := get hlist in
        if negb (count =? cnt) && (Z.of_nat (length sis) <? count)
        then Err (ErrNotEnoughTargets count (Z.of_nat (length sis)))
        else Ok sis
    end.

(** The nodes that take part in placement when maintenance is skipped. *)
Definition eligible (skipMaint : bool) (tsi : Snode) : bool :=
  negb (skipMaint && InMaintOrDecomm tsi).

(** No two participating nodes of the visiting order have the same weight. *)
Definition no_tie (digest : N) (skipMaint : bool) (tmap_order : list Snode) : Prop :=
  NoDup (weight digest <$> filter (λ tsi, eligible skipMaint tsi = true) tmap_order).

(** The nodes [HrwTargetList] feeds to [hrwList.add]. *)
Definition active_targets (tmap_order : list Snode) : list Snode :=
  filter (λ tsi, eligible true tsi = true) tmap_order.

(** Descending order of weights on nodes. *)
Definition heavier (digest : N) (a b : Snode) : Prop :=
  (weight digest b <= weight digest a)%N.

(** What the loop of [HrwHash2T] has established after visiting [seen]. *)
Definition hrw_inv (digest : N) (skipMaint : bool) (seen : list Snode)
    (st : N * option Snode) : Prop :=
  match st.2 with
  | None => st.1 = 0%N ∧ ∀ b, b ∈ seen → eligible skipMaint b = false
  | Some si =>
      si ∈ seen ∧ eligible skipMaint si = true ∧ st.1 = weight digest si ∧
      ∀ b, b ∈ seen → eligible skipMaint b = true →
           (weight digest b <= weight digest si)%N
  end.

(** What [hrwList] holds after the nodes [seen] were added: the kept nodes in
    descending weight order, at most [n] of them, and every node that was
    dropped weighs no more than any kept one. *)
Record hrwList_inv (digest : N) (seen : list Snode) (hl : hrwList)
    (dropped : list Snode) : Prop := {
  inv_perm : seen ≡ₚ sis hl ++ dropped;
  inv_full : dropped ≠ [] → Z.of_nat (length (sis hl)) = n hl;
  inv_len : Z.of_nat (length (sis hl)) <= n hl;
  inv_dropped : ∀ d s, d ∈ dropped → s ∈ sis hl → heavier digest s d;
  inv_hs : hs hl = weight digest <$> sis hl;
  inv_sorted : StronglySorted (heavier digest) (sis hl)
}.

(** *** Proxy and IC selection *)

(** [for pid, psi := range smap.Pmap]: the entries of [m] in some order. *)
Definition range_items_of (m : NodeMap) (order : list (string * Snode)) : Prop :=
  order ≡ₚ map_to_list m.

(** Modelled from the spec: [Snode.IsIC] is declared outside the files at
    hand; section 3 lists IC-member among the node flags. *)
Definition IsIC (si : Snode) : bool := IC (Flags si).

(** One iteration of the loop of [HrwProxy] over the entry [(pid, psi)]; the
    state is [(max, pi)]. *)
Definition HrwProxy_step (idToSkip : string)
    (st : N * option Snode) (entry : string * Snode) : N * option Snode :=
  let '(pid, psi) := entry in
  if bool_decide (pid = idToSkip) then st
  else if NonElectable (Flags psi) then st
  else if InMaintOrDecomm psi then st
  else
    let d := Digest psi in
    if (st.1 <=? d)%N then (d, Some psi) else st.

Definition HrwProxy (pmap_order : list (string * Snode)) (idToSkip : string)
    : outcome Snode error :=
  match (foldl (HrwProxy_step idToSkip) (0%N, None) pmap_order).2 with
  | Some pi => Ok pi
  | None => Err (ErrNoNodes false (Z.of_nat (length pmap_order)))
  end.

(** One iteration of the loop of [HrwIC]. *)
Definition HrwIC_step (digest : N) (st : N * option Snode) (psi : Snode)
    : N * option Snode :=
  if InMaintOrDecomm psi || negb (IsIC psi) then st
  else
    let cs := weight digest psi in
    if (st.1 <=? cs)%N then (cs, Some psi) else st.

Definition HrwIC (pmap_order : list Snode) (uuid : string) : outcome Snode error :=
  let digest := Checksum64S uuid MLCG32 in
  match (foldl (HrwIC_step digest) (0%N, None) pmap_order).2 with
  | Some pi => Ok pi
  | None => Err ErrEmptyIC
  end.

End WithHash.

(** Concrete nodes used in the examples below. *)
Definition mkSnode (id : string) (digest : N) (maint : bool) : Snode :=
  {| ID := id; idDigest := digest;
     Flags := {| NonElectable := false; InMaint := maint; Decomm := false; IC := false |} |}.

(** Two targets whose ids hash to the same digest. *)
Definition tie_a : Snode := mkSnode "t1" 7 false.
Definition tie_b : Snode := mkSnode "t2" 7 false.
Definition tie_tmap : NodeMap := {[ "t1" := tie_a; "t2" := tie_b ]}.

(** A target in maintenance next to an active one. *)
Definition maint_a : Snode := mkSnode "t1" 1 true.
Definition active_b : Snode := mkSnode "t2" 2 false.

(** Four targets with digests 1..4 (scenario 5 of section 8). *)
Definition four_tmap : NodeMap :=
  {[ "A" := mkSnode "A" 1 false; "B" := mkSnode "B" 2 false;
     "C" := mkSnode "C" 3 false; "D" := mkSnode "D" 4 false ]}.
Definition four_order : list Snode :=
  [mkSnode "A" 1 false; mkSnode "B" 2 false; mkSnode "C" 3 false; mkSnode "D" 4 false].
Definition four_order' : list Snode :=
  [mkSnode "D" 4 false; mkSnode "B" 2 false; mkSnode "A" 1 false; mkSnode "C" 3 false].

(** A multiplicative mixer standing in for [xoshiro256.Hash] when an example
    has to be evaluated; the properties below hold for every [Hash]. *)
Definition sample_mix (x : N) : N := ((x * 0x9E3779B97F4A7C15) mod 2 ^ 64)%N.
Definition sample_checksum (uname : string) (seed : N) : N :=
  ((N.of_nat (String.length uname) + seed) mod 2 ^ 64)%N.

(** Five proxies: the primary ["p1"], a non-electable one, one in maintenance
    and two candidates; all but ["p2"] are IC members. *)
Definition mkProxy (id : string) (digest : N) (nonElectable maint : bool) : Snode :=
  {| ID := id; idDigest := digest;
     Flags := {| NonElectable := nonElectable; InMaint := maint; Decomm := false;
                 IC := negb nonElectable |} |}.
Definition sample_pmap : NodeMap :=
  {[ "p1" := mkProxy "p1" 9 false false; "p2" := mkProxy "p2" 8 true false;
     "p3" := mkProxy "p3" 7 false true; "p4" := mkProxy "p4" 5 false false;
     "p5" := mkProxy "p5" 3 false false ]}.
Definition sample_pmap_order : list (string * Snode) :=
  [("p1", mkProxy "p1" 9 false false); ("p2", mkProxy "p2" 8 true false);
   ("p3", mkProxy "p3" 7 false true); ("p4", mkProxy "p4" 5 false false);
   ("p5", mkProxy "p5" 3 false false)].
Definition sample_pmap_order' : list (string * Snode) :=
  [("p5", mkProxy "p5" 3 false false); ("p4", mkProxy "p4" 5 false false);
   ("p3", mkProxy "p3" 7 false true); ("p2", mkProxy "p2" 8 true false);
   ("p1", mkProxy "p1" 9 false false)].

(** Three targets, the middle one in maintenance. *)
Definition mixed_order : list Snode :=
  [mkSnode "A" 1 false; mkSnode "B" 2 true; mkSnode "C" 3 false].

End Hrw.

(* ===================================================================== *)
(** ** Integer formatting ([fmt.Sprintf] verbs used by the sources) *)
(* ===================================================================== *)

Module Fmt.

(** The decimal digit [d] (0..9) as a character. *)
Definition digit_char (d : N) : ascii := ascii_of_N (48 + d).

(** The [k] low-order decimal digits of [n], most significant first. *)
Fixpoint digits_k (k : nat) (n : N) : string :=
  match k with
  | O => EmptyString
  | S k' => String (digit_char ((n / 10 ^ N.of_nat k') mod 10)) (digits_k k' n)
  end.

Fixpoint ndigits_aux (fuel : nat) (n : N) : nat :=
  match fuel with
  | O => 1
  | S f => if (n <? 10)%N then 1%nat else S (ndigits_aux f (n / 10))
  end.

(** Number of decimal digits of [n] (1 for 0). *)
Definition ndigits (n : N) : nat := ndigits_aux (N.to_nat (N.log2 n)) n.

(** [n] in decimal, left-padded with zeros to at least [w] digits. *)
Definition itoa_pad (w : nat) (n : N) : string :=
  digits_k (Nat.max w (ndigits n)) n.

Fixpoint spaces (k : nat) : string :=
  match k with
  | O => EmptyString
  | S k' => String " " (spaces k')
  end.

(** [fmt.Sprintf("%0*d", width, i)]: zero padding to [width] characters, the
    sign included; a negative [width] means left-justified in [-width]
    characters, padded with spaces. *)
Definition sprintf_0d (width : Z) (i : Z) : string :=
  if width <? 0 then
    let s := if i <? 0 then "-" +:+ itoa_pad 0 (Z.to_N (- i))
             else itoa_pad 0 (Z.to_N i) in
    s +:+ spaces (Z.to_nat (- width) - String.length s)
  else if i <? 0 then "-" +:+ itoa_pad (Z.to_nat (width - 1)) (Z.to_N (- i))
  else itoa_pad (Z.to_nat width) (Z.to_N i).

(** [fmt.Sprintf("%d", i)]. *)
Definition sprintf_d (i : Z) : string := sprintf_0d 0 i.

(** Go's [int] is 64 bits wide on the supported platforms; arithmetic wraps. *)
Definition minInt : Z := - 2 ^ 63.
Definition maxInt : Z := 2 ^ 63 - 1.
Definition wrap_int (z : Z) : Z := (z + 2 ^ 63) mod 2 ^ 64 - 2 ^ 63.

End Fmt.

(* ===================================================================== *)
(** ** downloader/download.go: the jogger queue *)
(* ===================================================================== *)

Module Downloader.

Definition queueChSize : nat := 200.
Definition StatusRequestTimeout : Z := 408. (* net/http *)

(** [cmn.DlObj]. *)
Record DlObj : Type := {
  Objname : string;
  Link : string
}.

(** [request]; the response channel is left out. *)
Record request : Type := {
  action : string;
  id : string;
  obj : DlObj;
  bucket : string;
  bckProvider : string;
  timeout : string;
  fqn : string
}.

(** [task]: the request it embeds and the download progress. *)
Record task : Type := {
  treq : request;
  currentSize : Z
}.

(** [fmt.Sprintf("%s|%s|%s", req.obj.Link, req.bucket, req.obj.Objname)]. *)
Definition uid (req : request) : string :=
  Link (obj req) +:+ "|" +:+ bucket req +:+ "|" +:+ Objname (obj req).

Definition equals (req rhs : request) : bool :=
  bool_decide (uid req = uid rhs).

(** A buffered channel of tasks: nil, open with its buffer, or closed. *)
Inductive chan : Type :=
| ChanNil
| ChanOpen (buf : list task)
| ChanClosed (buf : list task).

(** [queue]: the channel of pending downloads and the set of uids; [m] is
    [None] for a nil map. The mutex is not modelled: operations are atomic. *)
Record queue : Type := {
  ch : chan;
  m : option (gset string)
}.

Definition newQueue : queue := {| ch := ChanOpen []; m := Some ∅ |}.

Inductive put_error : Type :=
| ErrPutTimeout (t : task). (* "timeout when trying to put task %v in queue, try later" *)

(** The three results of [queue.put]. *)
Record put_result : Type := {
  added : bool;
  err : option put_error;
  errCode : Z
}.

(** [queue.put]. The argument [received] is what the environment does while
    the [select] waits: the number of buffered tasks the jogger takes out of
    the channel before the 10-second timer ([putInQueueTimeout]) fires. The
    send case fires iff the buffer then has room; otherwise the timer case
    fires. A send on a closed channel panics, a send on a nil channel blocks
    for ever, and so does a write to a nil map. *)
Definition put (q : queue) (t : task) (received : nat) : option (queue * put_result) :=
  let exists_ := match m q with
                 | Some s => bool_decide (uid (treq t) ∈ s)
                 | None => false
                 end in
  if exists_ then Some (q, {| added := false; err := None; errCode := 0 |})
  else
    match ch q with
    | ChanNil =>
        Some (q, {| added := false; err := Some (ErrPutTimeout t);
                    errCode := StatusRequestTimeout |})
    | ChanClosed _ => None
    | ChanOpen buf =>
        let buf' := drop received buf in
        if (length buf' <? queueChSize)%nat then
          match m q with
          | None => None
          | Some s =>
              Some ({| ch := ChanOpen (buf' ++ [t]); m := Some ({[ uid (treq t) ]} ∪ s) |},
                    {| added := true; err := None; errCode := 0 |})
          end
        else
          Some ({| ch := ChanOpen buf'; m := m q |},
                {| added := false; err := Some (ErrPutTimeout t);
                   errCode := StatusRequestTimeout |})
    end.

(** [queue.delete]. *)
Definition delete (q : queue) (req : request) : queue * bool :=
  match m q with
  | Some s => ({| ch := ch q; m := Some (s ∖ {[ uid req ]}) |}, bool_decide (uid req ∈ s))
  | None => (q, false)
  end.

(** [queue.stop] and [queue.cleanup]. *)
Definition stop (q : queue) : option queue :=
  match ch q with
  | ChanNil => Some q
  | ChanOpen buf => Some {| ch := ChanClosed buf; m := m q |}
  | ChanClosed _ => None (* close of a closed channel *)
  end.

Definition cleanup (q : queue) : queue := {| ch := ChanNil; m := None |}.

(** A queue in service: open channel within capacity, allocated uid set. *)
Definition in_service (q : queue) (buf : list task) (s : gset string) : Prop :=
  ch q = ChanOpen buf ∧ m q = Some s ∧ (length buf ≤ queueChSize)%nat.

(** Examples. *)
Definition sample_task (link bck name : string) : task :=
  {| treq := {| action := "DOWNLOAD"; id := "job-1";
                obj := {| Objname := name; Link := link |};
                bucket := bck; bckProvider := ""; timeout := ""; fqn := "" |};
     currentSize := 0 |}.

Definition full_buffer : list task :=
  replicate queueChSize (sample_task "http://x/filler" "b" "filler").

(** *** queue.get *)

(** [_, exists := q.m[uid]]; reading a nil map finds nothing. *)
Definition has_uid (mm : option (gset string)) (u : string) : bool :=
  match mm with
  | Some s => bool_decide (u ∈ s)
  | None => false
  end.

(** What [queue.get] hands back. *)
Inductive get_result : Type :=
| GetTask (t : task) (timeout : Z) (* the task, and the time limit put on its download context *)
| GetNil                           (* the channel is closed and drained *)
| GetBlocked                       (* the receive blocks: nothing is buffered *)
| GetPanic.                        (* [cmn.AssertNoErr] on a timeout that does not parse *)

(** The loop [for foundTask == nil] of [queue.get] over what the channel has
    buffered: tasks are received in order, and the first one whose uid is in
    [q.m] is the task found. The result is what is left in the buffer and
    the task found, if any. *)
Fixpoint get_scan (mm : option (gset string)) (buf : list task)
    : list task * option task :=
  match buf with
  | [] => ([], None)
  | t :: rest =>
      if has_uid mm (uid (treq t)) then (rest, Some t) else get_scan mm rest
  end.

Section WithConfig.

(** The configured default [cmn.GCO.Get().Downloader.Timeout] and
    [time.ParseDuration] are parameters; durations are nanoseconds. *)
Variable defaultTimeout : Z.
Variable ParseDuration : string -> option Z.

(** The tail of [queue.get]: the time limit of the download context. *)
Definition with_context (foundTask : task) : get_result :=
  if bool_decide (timeout (treq foundTask) = EmptyString)
  then GetTask foundTask defaultTimeout
  else
    match ParseDuration (timeout (treq foundTask)) with
    | Some d => GetTask foundTask d
    | None => GetPanic
    end.

(** [queue.get], up to the point where a receive would have to wait for a
    sender. A receive from a nil channel blocks for ever; a closed channel
    still yields what it has buffered and then reports [ok = false]. *)
Definition get (q : queue) : queue * get_result :=
  match ch q with
  | ChanNil => (q, GetBlocked)
  | ChanOpen buf =>
      match get_scan (m q) buf with
      | (rest, Some t) => ({| ch := ChanOpen rest; m := m q |}, with_context t)
      | (rest, None) => ({| ch := ChanOpen rest; m := m q |}, GetBlocked)
      end
  | ChanClosed buf =>
      match get_scan (m q) buf with
      | (rest, Some t) => ({| ch := ChanClosed rest; m := m q |}, with_context t)
      | (rest, None) => ({| ch := ChanClosed rest; m := m q |}, GetNil)
      end
  end.

End WithConfig.

(** A string without the separator ["|"] of [uid]. *)
Fixpoint no_bar (s : string) : bool :=
  match s with
  | EmptyString => true
  | String c s' => negb (Ascii.eqb c "|") && no_bar s'
  end.

(** A request for an object of a bucket at a link. *)
Definition mkRequest (link bck name : string) : request :=
  {| action := "DOWNLOAD"; id := "job-1";
     obj := {| Objname := name; Link := link |};
     bucket := bck; bckProvider := ""; timeout := ""; fqn := "" |}.

(** [time.ParseDuration] on the two durations the examples use. *)
Definition sample_ParseDuration (s : string) : option Z :=
  if bool_decide (s = "1s") then Some 1000000000
  else if bool_decide (s = "5m") then Some 300000000000
  else None.

End Downloader.

(* ===================================================================== *)
(** ** ais/downloader.go: the proxy-side download coordinator *)
(* ===================================================================== *)

Module Proxy.

(* net/http *)
Definition StatusBadRequest : Z := 400.
Definition StatusNotFound : Z := 404.
Definition MethodGet : string := "GET".
Definition MethodDelete : string := "DELETE".

(** [dlResponse]; an [error] is its message, [None] is [nil]. *)
Record dlResponse : Type := {
  body : string;
  statusCode : Z;
  err : option string
}.

(** [cmn.DlStatusResp]. *)
Record DlStatusResp : Type := {
  Finished : Z;
  Total : Z
}.

(** What a Go function returning [(string, error)] hands back; a panic is
    [None]. *)
Definition returned : Type := option (string * option string).

(** The three classes of replies told apart by the aggregation loop. *)
Definition is_not_found (resp : dlResponse) : Prop :=
  statusCode resp = StatusNotFound.
Definition is_other_error (resp : dlResponse) : Prop :=
  StatusBadRequest <= statusCode resp ∧ statusCode resp ≠ StatusNotFound.
Definition is_valid (resp : dlResponse) : Prop :=
  statusCode resp < StatusBadRequest.

#[global] Instance is_not_found_dec resp : Decision (is_not_found resp).
Proof. unfold is_not_found. apply _. Defined.
#[global] Instance is_other_error_dec resp : Decision (is_other_error resp).
Proof. unfold is_other_error. apply _. Defined.
#[global] Instance is_valid_dec resp : Decision (is_valid resp).
Proof. unfold is_valid. apply _. Defined.

(** State of the aggregation loop of [broadcastDownloadRequest].
    [validResponses := responses[:0]] shares the backing array of
    [responses], so appending to it overwrites [responses] in place:
    [responses] is that array and [validLen] the length of
    [validResponses]. *)
Record aggregation : Type := {
  responses : list dlResponse;
  validLen : nat;
  notFoundCnt : Z;
  errors : list dlResponse
}.

Definition validResponses (st : aggregation) : list dlResponse :=
  take (validLen st) (responses st).

(** Iteration [i] of [for _, resp := range responses]. *)
Definition aggregate_step (st : option aggregation) (i : nat) : option aggregation :=
  st ← st;
  resp ← responses st !! i;
  if StatusBadRequest <=? statusCode resp then
    if statusCode resp =? StatusNotFound then
      Some {| responses := responses st; validLen := validLen st;
              notFoundCnt := notFoundCnt st + 1; errors := errors st |}
    else
      Some {| responses := responses st; validLen := validLen st;
              notFoundCnt := notFoundCnt st; errors := errors st ++ [resp] |}
  else
    Some {| responses := <[validLen st := resp]> (responses st);
            validLen := S (validLen st);
            notFoundCnt := notFoundCnt st; errors := errors st |}.

Definition aggregate (replies : list dlResponse) : option aggregation :=
  foldl aggregate_step
    (Some {| responses := replies; validLen := 0; notFoundCnt := 0; errors := [] |})
    (seq 0 (length replies)).

(** What the aggregation loop has established after [i] replies: the valid
    ones among them were moved to the front of the shared array, the rest of
    the array is as it was. *)
Definition aggregate_inv (replies : list dlResponse) (i : nat) (st : aggregation) : Prop :=
  responses st =
    filter is_valid (take i replies) ++
    drop (length (filter is_valid (take i replies))) replies ∧
  validLen st = length (filter is_valid (take i replies)) ∧
  notFoundCnt st = Z.of_nat (length (filter is_not_found (take i replies))) ∧
  errors st = filter is_other_error (take i replies).

(** [finished += stat.Finished] on Go [int]s. *)
Definition sum_int (xs : list Z) : Z :=
  foldl (λ acc x, Fmt.wrap_int (acc + x)) 0 xs.

Section WithWire.

(** [jsoniter.Unmarshal] into a [cmn.DlStatusResp], the formatting of the
    status line (its percentage is a floating-point number), and the
    per-target call [targetDownloadRequest method si msg] are parameters. *)
Variable Unmarshal : string -> option DlStatusResp.
Variable fmtStatus : Z -> Z -> string.
Variable targetDownloadRequest : string -> Hrw.Snode -> dlResponse.

(** The replies read from [responsesCh], one per target, in arrival order. *)
Definition collectResponses (method : string) (arrival : list Hrw.Snode)
    : list dlResponse :=
  targetDownloadRequest method <$> arrival.

(** The [switch method] that ends [broadcastDownloadRequest]. *)
Definition respond (method : string) (st : aggregation) : returned :=
  if bool_decide (method = MethodGet) then
    (* cmn.AssertNoErr(err) panics on a reply that does not decode *)
    stats ← mapM Unmarshal (body <$> validResponses st);
    let finished := sum_int (Finished <$> stats) in
    let total := sum_int (Total <$> stats) in
    Some (fmtStatus finished total, None)
  else if bool_decide (method = MethodDelete) then
    r0 ← responses st !! 0%nat;
    Some (body r0, None)
  else None. (* cmn.AssertMsg(false, method) *)

(** [broadcastDownloadRequest]; [arrival] lists the targets of [smap.Tmap] in
    the order in which their replies come out of [responsesCh]. *)
Definition broadcastDownloadRequest (method : string) (arrival : list Hrw.Snode)
    : returned :=
  let replies := collectResponses method arrival in
  st ← aggregate replies;
  if notFoundCnt st =? Z.of_nat (length replies) then
    r0 ← responses st !! 0%nat;
    Some (EmptyString, err r0)
  else if (0 <? length (errors st))%nat then
    e0 ← errors st !! 0%nat;
    Some (EmptyString, err e0)
  else respond method st.

End WithWire.

(** *** rangeDownloadHandler *)

(** [fmt.Sprintf("%s%0*d%s", prefix, digitCount, i, suffix)]. *)
Definition range_objname (prefix suffix : string) (digitCount i : Z) : string :=
  prefix +:+ Fmt.sprintf_0d digitCount i +:+ suffix.

(** The loop [for i := start; i <= end; i += step] that fills [objects];
    [None] means the loop is still running when the fuel is used up. *)
Fixpoint range_loop (fuel : nat) (prefix suffix base : string)
    (end_ step digitCount : Z) (i : Z) (objects : gmap string string)
    : option (gmap string string) :=
  if i <=? end_ then
    match fuel with
    | O => None
    | S fuel' =>
        let objname := range_objname prefix suffix digitCount i in
        range_loop fuel' prefix suffix base end_ step digitCount
          (Fmt.wrap_int (i + step)) (<[objname := base +:+ objname]> objects)
    end
  else Some objects.

(** The objects (name to link) that [rangeDownloadHandler] hands to
    [bulkDownloadProcessor], from the values parsed out of the template. *)
Definition rangeObjects (fuel : nat) (prefix suffix base : string)
    (start end_ step digitCount : Z) : option (gmap string string) :=
  range_loop fuel prefix suffix base end_ step digitCount start ∅.

(** The indexes the loop visits when it runs [k] times from [start], and the
    insertions it then makes, in order. *)
Definition range_indexes (start step : Z) (k : nat) : list Z :=
  (λ t, start + Z.of_nat t * step) <$> seq 0 k.

Definition insert_objects (prefix suffix base : string) (digitCount : Z)
    (objects : gmap string string) (indexes : list Z) : gmap string string :=
  foldl (λ acc i, <[range_objname prefix suffix digitCount i :=
                      base +:+ range_objname prefix suffix digitCount i]> acc)
        objects indexes.

(** Examples. *)
Definition reply (status : Z) (text : string) : dlResponse :=
  {| body := text; statusCode := status;
     err := if status <? StatusBadRequest then None else Some text |}.

Definition sample_call (statuses : gmap string Z) (method : string) (si : Hrw.Snode)
    : dlResponse :=
  reply (default 200 (statuses !! Hrw.ID si)) (Hrw.ID si).

Definition sample_unmarshal (text : string) : option DlStatusResp :=
  Some {| Finished := 1; Total := 2 |}.

Definition sample_fmtStatus (finished total : Z) : string :=
  "Status: [finished: " +:+ Fmt.sprintf_d finished +:+ ", total: " +:+
  Fmt.sprintf_d total +:+ "]".

End Proxy.

(* ===================================================================== *)
(** ** downloader/download.go: the dispatcher *)
(* ===================================================================== *)

Module Dispatcher.
Import Downloader.

(* net/http *)
Definition StatusOK : Z := 200.
Definition StatusBadRequest : Z := 400.
Definition StatusNotFound : Z := 404.
Definition StatusInternalServerError : Z := 500.

Definition adminCancel : string := "CANCEL".
Definition adminStatus : string := "STATUS".

(** [cmn.DlBody]: a download job. *)
Record DlBody : Type := {
  ID : string;
  Bucket : string;
  BckProvider : string;
  Timeout : string;
  Objs : list DlObj
}.

(** What [lom.Fill(bckProvider, cluster.LomFstat)] reports and leaves in the
    [cluster.LOM]: the error string (empty on success), whether the object
    exists, its FQN, and the path of [ParsedFQN.MpathInfo] ([None] for nil). *)
Record LOM : Type := {
  errstr : string;
  Exists : bool;
  FQN : string;
  MpathInfo : option string
}.

(** The errors the dispatcher hands out. *)
Inductive error : Type :=
| errJobNotFound
| ErrDB (msg : string)                  (* any other error of the job store *)
| ErrJobNotFoundMsg (id : string)       (* "download job with id %q has not been found" *)
| ErrNew (errstr : string)              (* errors.New(errstr) *)
| ErrStatusNoMpath (req : request)      (* "status request with %v failed. Failed to obtain mountpath for request's fqn %s" *)
| ErrDownloadNoMpath (t : task)         (* "download task with %v failed. Failed to get mountpath for the request's fqn %s" *)
| ErrPut (e : put_error).

(** The values sent as [response.resp]. *)
Inductive reply : Type :=
| MsgExists (objname : string)          (* "object %q already exists - skipping" *)
| MsgAdded (t : task)                   (* "Download request %s added to queue" *)
| StatusOf (st : Proxy.DlStatusResp).

(** [response]; [None] is [nil], and the zero [statusCode] is [0]. *)
Record response : Type := {
  resp : option reply;
  err : option error;
  statusCode : Z
}.

(** [req.writeErrResp] and [req.writeResp]: the response put on the
    request's channel. *)
Definition writeErrResp (e : option error) (code : Z) : response :=
  {| resp := None; err := e; statusCode := code |}.
Definition writeResp (r : option reply) : response :=
  {| resp := r; err := None; statusCode := StatusOK |}.

(** [jogger]: its queue and the task it is running ([j.task]). *)
Record jogger : Type := {
  q : queue;
  j_task : option task
}.

(** [Downloader]: the joggers by mountpath, the pending counter of
    [cmn.XactDemandBase], and the running tasks whose [cancelFunc] was
    called, in call order. *)
Record Downloader : Type := {
  joggers : gmap string jogger;
  pending : Z;
  cancelled : list task
}.

Definition DecPending (d : Downloader) : Downloader :=
  {| joggers := joggers d; pending := pending d - 1; cancelled := cancelled d |}.
Definition IncPending (d : Downloader) : Downloader :=
  {| joggers := joggers d; pending := pending d + 1; cancelled := cancelled d |}.

(** [t.fqn = lom.FQN] and [req.fqn = lom.FQN]. *)
Definition set_fqn (req : request) (f : string) : request :=
  {| action := action req; id := id req; obj := obj req; bucket := bucket req;
     bckProvider := bckProvider req; timeout := timeout req; fqn := f |}.
Definition task_set_fqn (t : task) (f : string) : task :=
  {| treq := set_fqn (treq t) f; currentSize := currentSize t |}.

(** [jogger.putIntoDownloadQueue]; [None] is a panic of [queue.put]. *)
Definition putIntoDownloadQueue (j : jogger) (t : task) (received : nat)
    : option (jogger * response * bool) :=
  '(q', r) ← put (q j) t received;
  let j' := {| q := q'; j_task := j_task j |} in
  match Downloader.err r with
  | Some e =>
      Some (j', {| resp := None; err := Some (ErrPut e); statusCode := errCode r |}, false)
  | None =>
      Some (j', {| resp := Some (MsgAdded t); err := None; statusCode := 0 |}, added r)
  end.

Section WithStore.

(** The local object metadata and the job store [d.db] live outside the
    files at hand; they are parameters. [Fill bucket objname bckProvider] is
    the LOM after [lom.Fill]; [getJob] returns the job or an error, [delJob]
    an error or nil. *)
Variable Fill : string -> string -> string -> LOM.
Variable getJob : string -> DlBody + error.
Variable delJob : string -> option error.

(** The label [finalize] of [dispatchDownload]: the response is written to
    the task's channel, and pending goes down unless the task was added to a
    queue. *)
Definition finalize (d : Downloader) (r : response) (added : bool)
    : Downloader * response :=
  (if added then d else DecPending d, r).

(** [Downloader.dispatchDownload]; [received] is as in [queue.put], and
    [None] is a panic. *)
Definition dispatchDownload (d : Downloader) (t : task) (received : nat)
    : option (Downloader * response) :=
  let lom := Fill (bucket (treq t)) (Objname (obj (treq t))) (bckProvider (treq t)) in
  if negb (bool_decide (errstr lom = EmptyString)) then
    Some (finalize d {| resp := None; err := Some (ErrNew (errstr lom));
                        statusCode := StatusInternalServerError |} false)
  else if Exists lom then
    Some (finalize d {| resp := Some (MsgExists (Objname (obj (treq t))));
                        err := None; statusCode := 0 |} false)
  else
    let t := task_set_fqn t (FQN lom) in
    match MpathInfo lom with
    | None =>
        Some (finalize d {| resp := None; err := Some (ErrDownloadNoMpath t);
                            statusCode := StatusInternalServerError |} false)
    | Some path =>
        j ← joggers d !! path;            (* cmn.AssertMsg(ok, ...) *)
        '(j', r, added) ← putIntoDownloadQueue j t received;
        Some (finalize {| joggers := <[path := j']> (joggers d);
                          pending := pending d; cancelled := cancelled d |} r added)
    end.

(** The body of the inner loop of [dispatchCancel] for the jogger under
    [mpath] and the object [o] of the job [body]; the state is the downloader
    and the errors collected so far. *)
Definition dispatchCancel_obj (body : DlBody) (req : request) (mpath : string)
    (st : Downloader * list response) (o : DlObj) : Downloader * list response :=
  let '(d, errs) := st in
  match joggers d !! mpath with
  | None => st
  | Some j =>
      let req := {| action := action req; id := id req; obj := o;
                    bucket := Bucket body; bckProvider := BckProvider body;
                    timeout := timeout req; fqn := fqn req |} in
      let lom := Fill (bucket req) (Objname (obj req)) (bckProvider req) in
      if negb (bool_decide (errstr lom = EmptyString)) then
        (d, errs ++ [{| resp := None; err := Some (ErrNew (errstr lom));
                        statusCode := StatusInternalServerError |}])
      else if Exists lom then st
      else
        match j_task j with
        | Some running =>
            if equals (treq running) req then
              ({| joggers := joggers d; pending := pending d;
                  cancelled := cancelled d ++ [running] |}, errs)
            else
              let '(q', existed) := delete (q j) req in
              let d' := {| joggers := <[mpath := {| q := q'; j_task := j_task j |}]> (joggers d);
                           pending := pending d; cancelled := cancelled d |} in
              (if existed then DecPending d' else d', errs)
        | None =>
            let '(q', existed) := delete (q j) req in
            let d' := {| joggers := <[mpath := {| q := q'; j_task := j_task j |}]> (joggers d);
                         pending := pending d; cancelled := cancelled d |} in
            (if existed then DecPending d' else d', errs)
        end
  end.

(** [Downloader.dispatchCancel]; [order] lists the mountpaths in the order
    in which the [range] over [d.joggers] visits them, and [None] is the
    panic of [cmn.AssertNoErr]. *)
Definition dispatchCancel (d : Downloader) (order : list string) (req : request)
    : option (Downloader * response) :=
  match getJob (id req) with
  | inr errJobNotFound =>
      Some (d, writeErrResp (Some (ErrJobNotFoundMsg (id req))) StatusNotFound)
  | inr e => Some (d, writeErrResp (Some e) StatusInternalServerError)
  | inl body =>
      let '(d', errs) :=
        foldl (λ st mpath, foldl (dispatchCancel_obj body req mpath) st (Objs body))
              (d, []) order in
      match errs with
      | r :: _ => Some (d', writeErrResp (err r) (statusCode r))
      | [] =>
          match delJob (id req) with
          | Some _ => None
          | None => Some (d', writeResp None)
          end
      end
  end.

(** The body of the loop of [dispatchStatus]; the state is [finished] and
    the errors collected so far, [outer_err] is the variable [err] of the
    enclosing function, and [None] is the panic of [cmn.AssertMsg]. *)
Definition dispatchStatus_obj (d : Downloader) (body : DlBody) (req : request)
    (outer_err : option error)
    (st : option (Z * list response)) (o : DlObj) : option (Z * list response) :=
  '(finished, errs) ← st;
  let lom := Fill (Bucket body) (Objname o) (BckProvider body) in
  if negb (bool_decide (errstr lom = EmptyString)) then
    Some (finished, errs ++ [{| resp := None; err := outer_err;
                                statusCode := StatusInternalServerError |}])
  else if Exists lom then Some (finished + 1, errs)
  else
    let req := set_fqn req (FQN lom) in
    match MpathInfo lom with
    | None =>
        Some (finished, errs ++ [{| resp := None; err := Some (ErrStatusNoMpath req);
                                    statusCode := StatusInternalServerError |}])
    | Some path =>
        if bool_decide (is_Some (joggers d !! path)) then Some (finished, errs)
        else None
    end.

(** [Downloader.dispatchStatus]: the response written to the request. Past
    the check of [getJob] the variable [err] is nil. *)
Definition dispatchStatus (d : Downloader) (req : request) : option response :=
  match getJob (id req) with
  | inr errJobNotFound =>
      Some (writeErrResp (Some (ErrJobNotFoundMsg (id req))) StatusNotFound)
  | inr e => Some (writeErrResp (Some e) StatusInternalServerError)
  | inl body =>
      let total := Z.of_nat (length (Objs body)) in
      '(finished, errs) ← foldl (dispatchStatus_obj d body req None) (Some (0, [])) (Objs body);
      match errs with
      | r :: _ => Some (writeErrResp (err r) (statusCode r))
      | [] => Some (writeResp (Some (StatusOf
                {| Proxy.Finished := finished; Proxy.Total := total |})))
      end
  end.

(** [Downloader.Status]: the request goes through [adminCh] to
    [dispatchStatus], and the response comes back on the request's channel;
    pending is raised before and lowered after. *)
Definition Status (d : Downloader) (id_ : string) : option response :=
  dispatchStatus d
    {| action := adminStatus; id := id_;
       obj := {| Objname := EmptyString; Link := EmptyString |};
       bucket := EmptyString; bckProvider := EmptyString;
       timeout := EmptyString; fqn := EmptyString |}.

End WithStore.

(** What the target's HTTP handler does with the request. *)
Inductive handled : Type :=
| Wrote (body : option reply)           (* the marshalled response, if not nil *)
| Invalid (msg : error) (code : Z).     (* cmn.InvalidHandlerWithMsg(w, r, err.Error(), statusCode) *)

(** The end of [targetrunner.downloadHandler], after the [switch] has set
    [response, err, statusCode]; [err.Error()] on a nil error is a nil
    dereference, the panic [None]. *)
Definition downloadHandler_reply (r : response) : option handled :=
  if StatusBadRequest <=? statusCode r then
    e ← err r;
    Some (Invalid e (statusCode r))
  else Some (Wrote (resp r)).

(** The number of uids the queues of the joggers hold. *)
Definition tracked (j : jogger) : Z :=
  match m (q j) with
  | Some s => Z.of_nat (size s)
  | None => 0
  end.
Definition total_tracked (d : Downloader) : Z :=
  foldr Z.add 0 (tracked <$> (map_to_list (joggers d)).*2).

(** What a step of the loops of [dispatchCancel] may change: a jogger keeps
    its running task and its channel, its uid set only shrinks, and the list
    of cancelled tasks and the list of errors only grow. *)
Definition shrinks (st st' : Downloader * list response) : Prop :=
  (∀ mpath j, joggers st.1 !! mpath = Some j →
     ∃ j', joggers st'.1 !! mpath = Some j' ∧ j_task j' = j_task j ∧
           ch (q j') = ch (q j) ∧
           ∀ u, has_uid (m (q j')) u = true → has_uid (m (q j)) u = true) ∧
  (∀ t, t ∈ cancelled st.1 → t ∈ cancelled st'.1) ∧
  (st.2 ≠ [] → st'.2 ≠ []).

(** Examples: a job of two objects, a store that knows only this job, local
    metadata under one mountpath (the object ["done"] exists), and a
    downloader with one idle jogger. With [broken_Fill], [lom.Fill] fails
    for the object ["c"]. *)
Definition sample_job : DlBody :=
  {| ID := "job-1"; Bucket := "b"; BckProvider := ""; Timeout := "";
     Objs := [ {| Objname := "a"; Link := "http://x/a" |};
               {| Objname := "c"; Link := "http://x/c" |} ] |}.
Definition sample_getJob (id_ : string) : DlBody + error :=
  if bool_decide (id_ = "job-1") then inl sample_job else inr errJobNotFound.
Definition sample_delJob (id_ : string) : option error := None.
Definition sample_Fill (bck objname provider : string) : LOM :=
  {| errstr := ""; Exists := bool_decide (objname = "done");
     FQN := "/mp1/" +:+ bck +:+ "/" +:+ objname; MpathInfo := Some "/mp1" |}.
Definition broken_Fill (bck objname provider : string) : LOM :=
  {| errstr := if bool_decide (objname = "c") then "stat failed" else "";
     Exists := false;
     FQN := "/mp1/" +:+ bck +:+ "/" +:+ objname; MpathInfo := Some "/mp1" |}.
Definition sample_downloader : Downloader :=
  {| joggers := {[ "/mp1" := {| q := newQueue; j_task := None |} ]};
     pending := 0; cancelled := [] |}.
(** The same downloader with the first object of the job queued. *)
Definition busy_downloader : Downloader :=
  {| joggers := {[ "/mp1" :=
       {| q := {| ch := ChanOpen [task_set_fqn (sample_task "http://x/a" "b" "a") "/mp1/b/a"];
                  m := Some {[ "http://x/a|b|a" ]} |};
          j_task := None |} ]};
     pending := 1; cancelled := [] |}.

End Dispatcher.

(* ===================================================================== *)
(** ** ais/downloader.go: sharding a download job over the targets *)
(* ===================================================================== *)

Module ProxyBulk.
Import Downloader Dispatcher.

Definition MethodPost : string := "POST".

(** [bulkTargetRequest], a [map[*cluster.Snode]*cmn.DlBody]: the job bodies
    by target, with at most one entry per node. The order of the entries is
    not observable. *)
Abbreviation requests := (list (Hrw.Snode * DlBody)).

(** [b, ok := bulkTargetRequest[si]] followed by
    [b.Objs = append(b.Objs, dlObj)] on the entry found; [None] when the
    target has no entry yet. *)
Fixpoint append_obj (si : Hrw.Snode) (dlObj : DlObj) (reqs : requests)
    : option requests :=
  match reqs with
  | [] => None
  | (si', b) :: rest =>
      if decide (si' = si) then
        Some ((si', {| ID := ID b; Bucket := Bucket b; BckProvider := BckProvider b;
                       Timeout := Timeout b; Objs := Objs b ++ [dlObj] |}) :: rest)
      else cons (si', b) <$> append_obj si dlObj rest
  end.

(** The errors of [bulkDownloadProcessor]. *)
Inductive bulk_error : Type :=
| ErrPlacement (errstr : string)          (* fmt.Errorf(errstr) *)
| ErrFailed (failures : list string).     (* "following downloads failed: %v" *)

(** The errors of [multiDownloadHandler] before the job is processed. *)
Inductive payload_error : Type :=
| ErrMapValue (ty : string)      (* "values in map should be strings, found: %T" *)
| ErrNoObjName (link : string)   (* "can not extract a valid `object name` from the provided download link: %q." *)
| ErrArrayValue (ty : string)    (* "values in array should be strings, found: %T" *)
| ErrBody (ty : string).         (* "JSON body should be map (string -> string) or array of strings, found: %T" *)

(** A decoded JSON value as far as [multiDownloadHandler] looks at it: a
    string, or something else of which only the Go type is printed. *)
Inductive json : Type :=
| JString (s : string)
| JOther (ty : string).

(** The decoded body of a multi download request: an object (its entries in
    the order the [range] visits them), an array, or something else. *)
Inductive objectsPayload : Type :=
| PMap (entries : list (string * json))
| PArray (vals : list json)
| POther (ty : string).

Section WithCluster.

(** [hrwTarget bucket objname] (the target and the error string, empty on
    success), the POST [targetDownloadRequest] and [path.Base] live outside
    the files at hand or are not followed here; they are parameters. *)
Variable hrwTarget : string -> string -> Hrw.Snode * string.
Variable targetDownloadRequest : string -> Hrw.Snode -> DlBody -> Proxy.dlResponse.
Variable Base : string -> string.

(** The body of the first loop of [bulkDownloadProcessor]; [inl] is the
    early return with the placement error. *)
Definition bulk_step (id_ bucket_ bckProvider_ timeout_ : string)
    (st : string + requests) (kv : string * string) : string + requests :=
  match st with
  | inl e => inl e
  | inr reqs =>
      let '(objname, link) := kv in
      let '(si, errstr) := hrwTarget bucket_ objname in
      if negb (bool_decide (errstr = EmptyString)) then inl errstr
      else
        let dlObj := {| Objname := objname; Link := link |} in
        match append_obj si dlObj reqs with
        | Some reqs' => inr reqs'
        | None =>
            inr (reqs ++ [(si, {| ID := id_; Bucket := bucket_; BckProvider := bckProvider_;
                                  Timeout := timeout_; Objs := [dlObj] |})])
        end
  end.

(** The job bodies by target that the first loop builds from [objects],
    visited in the order [objects_order]. *)
Definition bulkTargetRequest (id_ bucket_ bckProvider_ timeout_ : string)
    (objects_order : list (string * string)) : string + requests :=
  foldl (bulk_step id_ bucket_ bckProvider_ timeout_) (inr []) objects_order.

(** [bulkDownloadProcessor]; [None] is nil. [arrive] gives the order in
    which the replies to the requests are read from [errCh]. *)
Definition bulkDownloadProcessor (id_ bucket_ bckProvider_ timeout_ : string)
    (objects_order : list (string * string)) (arrive : requests -> requests)
    : option bulk_error :=
  match bulkTargetRequest id_ bucket_ bckProvider_ timeout_ objects_order with
  | inl errstr => Some (ErrPlacement errstr)
  | inr reqs =>
      let failures :=
        omap (λ '(si, dlBody), Proxy.err (targetDownloadRequest MethodPost si dlBody))
             (arrive reqs) in
      if (0 <? length failures)%nat then Some (ErrFailed failures) else None
  end.

(** The [cmn.DlObj] made of an entry of [objects]. *)
Definition dlObj_of (kv : string * string) : DlObj :=
  {| Objname := kv.1; Link := kv.2 |}.

(** What the first loop of [bulkDownloadProcessor] has built after the
    objects [seen] were placed without an error: one body per target that
    was picked, each with the job's id, bucket, provider and timeout and
    with the objects placed on its target, in the order they were seen. *)
Definition bulk_inv (id_ bucket_ bckProvider_ timeout_ : string)
    (seen : list (string * string)) (reqs : requests) : Prop :=
  NoDup reqs.*1 ∧
  (∀ si b, (si, b) ∈ reqs →
     ID b = id_ ∧ Bucket b = bucket_ ∧ BckProvider b = bckProvider_ ∧
     Timeout b = timeout_ ∧ Objs b ≠ [] ∧
     Objs b = dlObj_of <$> filter (λ kv, (hrwTarget bucket_ kv.1).1 = si) seen) ∧
  (∀ kv, kv ∈ seen → (hrwTarget bucket_ kv.1).1 ∈ reqs.*1).

(** The [switch] of [multiDownloadHandler] that fills [objects] (object name
    to link) from the decoded body. *)
Definition multi_map_step (st : payload_error + gmap string string)
    (kv : string * json) : payload_error + gmap string string :=
  match st with
  | inl e => inl e
  | inr objects =>
      match kv.2 with
      | JString v => inr (<[kv.1 := v]> objects)
      | JOther ty => inl (ErrMapValue ty)
      end
  end.

Definition multi_array_step (st : payload_error + gmap string string)
    (val : json) : payload_error + gmap string string :=
  match st with
  | inl e => inl e
  | inr objects =>
      match val with
      | JString link =>
          let objName := Base link in
          if bool_decide (objName = ".") || bool_decide (objName = "/")
          then inl (ErrNoObjName link)
          else inr (<[objName := link]> objects)
      | JOther ty => inl (ErrArrayValue ty)
      end
  end.

Definition multiObjects (payload : objectsPayload) : payload_error + gmap string string :=
  match payload with
  | PMap entries => foldl multi_map_step (inr ∅) entries
  | PArray vals => foldl multi_array_step (inr ∅) vals
  | POther ty => inl (ErrBody ty)
  end.

End WithCluster.

(** Examples: placement by the first letter of the object name on two
    targets, and a [path.Base] for links without trailing slashes. *)
Definition sample_hrwTarget (bck objname : string) : Hrw.Snode * string :=
  match objname with
  | String "a" _ => (Hrw.mkSnode "t1" 1 false, EmptyString)
  | String "x" _ => (Hrw.mkSnode "t1" 1 false, "no targets")
  | _ => (Hrw.mkSnode "t2" 2 false, EmptyString)
  end.

Fixpoint after_last_slash (acc s : string) : string :=
  match s with
  | EmptyString => acc
  | String c s' =>
      if Ascii.eqb c "/" then after_last_slash s' s' else after_last_slash acc s'
  end.
Definition sample_Base (link : string) : string :=
  if bool_decide (link = EmptyString) then "." else after_last_slash link link.

End ProxyBulk.

(* ===================================================================== *)
(** ** transport/bundle/shared_dm.go: the shared data mover *)
(* ===================================================================== *)

Module SharedDM.

(** Modelled from the spec: the data mover [DM] is declared outside the files
    at hand. Of its state only the two stage flags matter here: whether its
    receive endpoint is registered with the transport and whether its streams
    are open. [RegRecv] registers (and may fail), [Open] opens, [Close] tears
    the streams down, [UnregRecv] unregisters. *)
Record DM : Type := {
  opened : bool;
  regred : bool
}.

Definition DM_RegRecv (failure : option string) (d : DM) : DM * option string :=
  match failure with
  | Some e => (d, Some e)
  | None => ({| opened := opened d; regred := true |}, None)
  end.
Definition DM_Open (d : DM) : DM := {| opened := true; regred := regred d |}.
Definition DM_Close (d : DM) : DM := {| opened := false; regred := regred d |}.
Definition DM_UnregRecv (d : DM) : DM := {| opened := opened d; regred := false |}.

Definition trname : string := "shared-dm".

(** [fmt.Errorf("cannot close %s: [%s, %d]", sdm.trname(), xid, l)]. *)
Definition close_error (xid : string) (l : Z) : string :=
  "cannot close " +:+ trname +:+ ": [" +:+ xid +:+ ", " +:+ Fmt.sprintf_d l +:+ "]".

(** *** recv *)

(** [transport.ObjHdr], of which [recv] reads the object name and reads and
    rewrites [Opaque]. *)
Record ObjHdr : Type := {
  ObjName : string;
  Opaque : string
}.

(** [const Sepa = "|"] and [strings.Index(s, Sepa)]: the index of the first
    ["|"] of [s], [None] for -1. *)
Definition Sepa : ascii := "|"%char.
Fixpoint Index_Sepa (s : string) : option nat :=
  match s with
  | EmptyString => None
  | String c s' => if Ascii.eqb c Sepa then Some O else S <$> Index_Sepa s'
  end.

(** The slices [s[:i]] and [s[i:]] of a string, for [i <= len(s)]. *)
Fixpoint slice_to (i : nat) (s : string) : string :=
  match i, s with
  | S i', String c s' => String c (slice_to i' s')
  | _, _ => EmptyString
  end.
Fixpoint slice_from (i : nat) (s : string) : string :=
  match i, s with
  | S i', String _ s' => slice_from i' s'
  | _, _ => s
  end.

(** The errors of [recv]. *)
Inductive recv_error : Type :=
| ErrUpstream (e : string)                 (* the error passed in *)
| ErrInvalidUUID (e : string)              (* "%s: %v", trname, err *)
| ErrClosed (xid oname : string)           (* "%s is closed, dropping recv [xid: %s, oname: %s]" *)
| ErrNotFound (xid oname : string).        (* "%s: xid %s not found, dropping recv [oname: %s]" *)

(** The xaction id and the header after the [strings.Index] step of [recv]:
    with a separator at an index [i > 0] the id is what precedes it and
    [hdr.Opaque] becomes what follows it. *)
Definition demux (hdr : ObjHdr) : string * ObjHdr :=
  match Index_Sepa (Opaque hdr) with
  | Some (S i') =>
      (slice_to (S i') (Opaque hdr),
       {| ObjName := ObjName hdr; Opaque := slice_from (S i' + 1) (Opaque hdr) |})
  | _ => (Opaque hdr, hdr)
  end.

Section WithRecvObj.

(** [transport.RecvObj], the type of receive callbacks. *)
Variable RecvObj : Type.

(** [sharedDM]; [rxcbs] is [None] for a nil map. The two mutexes are not
    modelled: every operation is atomic. *)
Record sharedDM : Type := {
  dm : DM;
  rxcbs : option (gmap string RecvObj)
}.

(** The zero value of the global [SDM]. *)
Definition SDM0 : sharedDM :=
  {| dm := {| opened := false; regred := false |}; rxcbs := None |}.

Definition isOpen (sdm : sharedDM) : bool := opened (dm sdm).

(** [len(sdm.rxcbs)]; the length of a nil map is 0. *)
Definition len_rxcbs (sdm : sharedDM) : Z :=
  match rxcbs sdm with
  | Some cbs => Z.of_nat (size cbs)
  | None => 0
  end.

Definition IsActive (sdm : sharedDM) : bool := 0 <? len_rxcbs sdm.

(** [Open]; [failure] is the error of [sdm.dm.RegRecv()], if any. *)
Definition Open (failure : option string) (sdm : sharedDM) : sharedDM * option string :=
  if isOpen sdm then (sdm, None)
  else
    match DM_RegRecv failure (dm sdm) with
    | (d, Some e) => ({| dm := d; rxcbs := Some ∅ |}, Some e)
    | (d, None) => ({| dm := DM_Open d; rxcbs := Some ∅ |}, None)
    end.

(** [Close]; [order] is the order in which [for xid = range sdm.rxcbs]
    visits the keys, of which only the first is looked at. *)
Definition Close (order : list string) (sdm : sharedDM) : sharedDM * option string :=
  if negb (isOpen sdm) then (sdm, None)
  else
    let xid := default EmptyString (head order) in
    let l := len_rxcbs sdm in
    if 0 <? l then (sdm, Some (close_error xid l))
    else
      ({| dm := DM_UnregRecv (DM_Close (dm sdm)); rxcbs := None |}, None).

(** [RegRecv]; [None] is the panic of an assignment to an entry of a nil map. *)
Definition RegRecv (xid : string) (cb : RecvObj) (sdm : sharedDM) : option sharedDM :=
  if negb (isOpen sdm) then Some sdm
  else
    cbs ← rxcbs sdm;
    Some {| dm := dm sdm; rxcbs := Some (<[xid := cb]> cbs) |}.

Definition UnregRecv (xid : string) (sdm : sharedDM) : sharedDM :=
  if negb (isOpen sdm) then sdm
  else {| dm := dm sdm; rxcbs := delete xid <$> rxcbs sdm |}.

(** The visiting orders [range sdm.rxcbs] can take. *)
Definition rxcbs_order (sdm : sharedDM) (order : list string) : Prop :=
  match rxcbs sdm with
  | Some cbs => range_keys_of cbs order
  | None => order = []
  end.

(** One call of the public interface. *)
Inductive step : sharedDM → sharedDM → Prop :=
| step_Open failure sdm :
    step sdm (Open failure sdm).1
| step_Close order sdm :
    rxcbs_order sdm order → step sdm (Close order sdm).1
| step_RegRecv xid cb sdm sdm' :
    RegRecv xid cb sdm = Some sdm' → step sdm sdm'
| step_UnregRecv xid sdm :
    step sdm (UnregRecv xid sdm).

(** The states the shared data mover can be in. *)
Inductive reachable : sharedDM → Prop :=
| reachable_init : reachable SDM0
| reachable_step sdm sdm' : reachable sdm → step sdm sdm' → reachable sdm'.

(** While the transport is not open no receiver is registered, and while it
    is open the receiver table is allocated. *)
Definition consistent (sdm : sharedDM) : Prop :=
  if isOpen sdm then is_Some (rxcbs sdm) else len_rxcbs sdm = 0.

(** [xact.CheckValidUUID] lives outside the files at hand; it returns an
    error message or nil. *)
Variable CheckValidUUID : string -> option string.

(** What [recv] does with a received object: it returns an error, or it
    returns what the call [cb(hdr, r, nil)] of a registered callback
    returns. *)
Inductive recv_result : Type :=
| RecvErr (e : recv_error)
| Invoke (cb : RecvObj) (hdr : ObjHdr).

(** [recv]; [err] is the error passed in, [None] for nil. The reader is
    handed to the callback untouched and is left out. *)
Definition recv (sdm : sharedDM) (hdr : ObjHdr) (err : option string) : recv_result :=
  match err with
  | Some e => RecvErr (ErrUpstream e)
  | None =>
      let '(xid, hdr) := demux hdr in
      match CheckValidUUID xid with
      | Some e => RecvErr (ErrInvalidUUID e)
      | None =>
          if negb (isOpen sdm) then RecvErr (ErrClosed xid (ObjName hdr))
          else
            match rxcbs sdm ≫= (λ cbs, cbs !! xid) with
            | Some cb => Invoke cb hdr
            | None => RecvErr (ErrNotFound xid (ObjName hdr))
            end
      end
  end.

End WithRecvObj.

Arguments dm {RecvObj} _.
Arguments rxcbs {RecvObj} _.
Arguments isOpen {RecvObj} _.
Arguments len_rxcbs {RecvObj} _.
Arguments IsActive {RecvObj} _.
Arguments Open {RecvObj} _ _.
Arguments Close {RecvObj} _ _.
Arguments RegRecv {RecvObj} _ _ _.
Arguments UnregRecv {RecvObj} _ _.
Arguments rxcbs_order {RecvObj} _ _.
Arguments step {RecvObj} _ _.
Arguments reachable {RecvObj} _.
Arguments consistent {RecvObj} _.
Arguments recv {RecvObj} _ _ _ _.
Arguments RecvErr {RecvObj} _.
Arguments Invoke {RecvObj} _ _.

(** Examples: the data mover after [Open], and after [Open] and one
    [RegRecv]. *)
Definition sample_open : sharedDM unit := (Open None (SDM0 unit)).1.
Definition sample_registered : sharedDM unit :=
  {| dm := {| opened := true; regred := true |}; rxcbs := Some {[ "job-7" := tt ]} |}.

(** A stand-in for [xact.CheckValidUUID] in the examples: ids shorter than
    five characters are refused. *)
Definition sample_CheckValidUUID (xid : string) : option string :=
  if (String.length xid <? 5)%nat then Some "invalid xaction ID" else None.

End SharedDM.

(* ===================================================================== *)
(** ** ais/notifications.go: notification listeners *)
(* ===================================================================== *)

Module Notifs.

(** Nanoseconds, as in [time.Duration]. *)
Definition minute : Z := 60 * 1000000000.
Definition notifsHousekeepT : Z := 2 * minute.
Definition notifsRemoveMult : Z := 3.
Definition StatusNotFound : Z := 404. (* net/http *)

(** The three Go types a deserialized listener can have. *)
Inductive nl_type : Type :=
| NotifListenerQuery       (* query.NotifListenerQuery *)
| NotifDownloadListerner   (* downloader.NotifDownloadListerner *)
| NotifXactListener.       (* xaction.NotifXactListener *)

#[global] Instance nl_type_eq_dec : EqDecision nl_type.
Proof. solve_decision. Defined.

(** Modelled from the spec: the interface [nl.NotifListener] and the types that
    implement it are declared outside the files at hand. Section 3 gives a
    listener a job id, a kind, the set of notifier target ids, per-target
    stats, per-target finished flags, an aborted flag, an accumulated error,
    added and ended times, an owner and a completion callback. [callbacks]
    counts the invocations of the completion callback. Table entries are
    pointers in Go; here an entry is the listener itself, and a mutation made
    through a pointer is written back to the table that holds it ([store]). *)
Record listener : Type := {
  UUID : string;
  Kind : string;
  go_type : nl_type;
  Notifiers : gset string;
  Finished : gset string;
  Aborted : bool;
  ErrValue : option string;
  Stats : gmap string string;
  AddedTime : Z;
  EndTime : Z;
  Owner : string;
  callbacks : nat
}.

(** Modelled from the spec: the listener methods used by notifications.go. *)
Definition HasFinished (nl : listener) (tid : string) : bool :=
  bool_decide (tid ∈ Finished nl).
Definition AllFinished (nl : listener) : bool :=
  bool_decide (Notifiers nl ⊆ Finished nl).
Definition ActiveNotifiers (nl : listener) : gset string :=
  Notifiers nl ∖ Finished nl.
Definition MarkFinished (nl : listener) (tid : string) : listener :=
  {| UUID := UUID nl; Kind := Kind nl; go_type := go_type nl;
     Notifiers := Notifiers nl; Finished := {[ tid ]} ∪ Finished nl;
     Aborted := Aborted nl; ErrValue := ErrValue nl; Stats := Stats nl;
     AddedTime := AddedTime nl; EndTime := EndTime nl; Owner := Owner nl;
     callbacks := callbacks nl |}.
Definition SetAborted (nl : listener) : listener :=
  {| UUID := UUID nl; Kind := Kind nl; go_type := go_type nl;
     Notifiers := Notifiers nl; Finished := Finished nl;
     Aborted := true; ErrValue := ErrValue nl; Stats := Stats nl;
     AddedTime := AddedTime nl; EndTime := EndTime nl; Owner := Owner nl;
     callbacks := callbacks nl |}.
Definition SetErr (nl : listener) (e : string) : listener :=
  {| UUID := UUID nl; Kind := Kind nl; go_type := go_type nl;
     Notifiers := Notifiers nl; Finished := Finished nl;
     Aborted := Aborted nl; ErrValue := Some e; Stats := Stats nl;
     AddedTime := AddedTime nl; EndTime := EndTime nl; Owner := Owner nl;
     callbacks := callbacks nl |}.
Definition SetStats (nl : listener) (tid : string) (stats : string) : listener :=
  {| UUID := UUID nl; Kind := Kind nl; go_type := go_type nl;
     Notifiers := Notifiers nl; Finished := Finished nl;
     Aborted := Aborted nl; ErrValue := ErrValue nl;
     Stats := <[tid := stats]> (Stats nl);
     AddedTime := AddedTime nl; EndTime := EndTime nl; Owner := Owner nl;
     callbacks := callbacks nl |}.
Definition SetAddedTime (now : Z) (nl : listener) : listener :=
  {| UUID := UUID nl; Kind := Kind nl; go_type := go_type nl;
     Notifiers := Notifiers nl; Finished := Finished nl;
     Aborted := Aborted nl; ErrValue := ErrValue nl; Stats := Stats nl;
     AddedTime := now; EndTime := EndTime nl; Owner := Owner nl;
     callbacks := callbacks nl |}.
(** The completion callback runs once; it stamps the end time. *)
Definition Callback (nl : listener) (ts : Z) : listener :=
  if EndTime nl =? 0 then
    {| UUID := UUID nl; Kind := Kind nl; go_type := go_type nl;
       Notifiers := Notifiers nl; Finished := Finished nl;
       Aborted := Aborted nl; ErrValue := ErrValue nl; Stats := Stats nl;
       AddedTime := AddedTime nl; EndTime := ts; Owner := Owner nl;
       callbacks := S (callbacks nl) |}
  else nl.

(** *** listeners *)

(** [listeners.m]: uuid to listener. The lock is not modelled. *)
Abbreviation listeners := (gmap string listener).

Definition listeners_entry (l : listeners) (uuid : string) : option listener :=
  l !! uuid.

(** [listeners.add]: the table and [exists]. *)
Definition listeners_add (l : listeners) (nl : listener) : listeners * bool :=
  match l !! UUID nl with
  | Some _ => (l, true)
  | None => (<[UUID nl := nl]> l, false)
  end.

(** [listeners.del]: the table and [ok]. *)
Definition listeners_del (l : listeners) (nl : listener) : listeners * bool :=
  match l !! UUID nl with
  | Some _ => (delete (UUID nl) l, true)
  | None => (l, false)
  end.

(** [listeners.merge]; a [notifListenMsg] is the listener it wraps.
    [m.nl.SetAddedTime()] acts on the entry just inserted. *)
Definition listeners_merge (now : Z) (l : listeners) (msgs : list listener) : listeners :=
  foldl (λ acc nl,
           match acc !! UUID nl with
           | Some _ => acc
           | None => alter (SetAddedTime now) (UUID nl) (<[UUID nl := nl]> acc)
           end) l msgs.

(** *** notifs *)

Record notifs : Type := {
  nls : listeners;  (* running *)
  fin : listeners;  (* finished *)
  smapVer : Z
}.

Definition notifs_init : notifs := {| nls := ∅; fin := ∅; smapVer := 0 |}.

(** [notifs.add]; [None] is the panic of [cmn.Assert(nl.UUID() != "")]. *)
Definition add (nl : listener) (now : Z) (n : notifs) : option notifs :=
  if bool_decide (UUID nl = EmptyString) then None
  else
    let '(running, exists_) := listeners_add (nls n) nl in
    if exists_ then Some n
    else Some {| nls := alter (SetAddedTime now) (UUID nl) running;
                 fin := fin n; smapVer := smapVer n |}.

Definition del (nl : listener) (n : notifs) : notifs * bool :=
  let '(running, ok) := listeners_del (nls n) nl in
  ({| nls := running; fin := fin n; smapVer := smapVer n |}, ok).

Definition entry (uuid : string) (n : notifs) : option listener :=
  match listeners_entry (nls n) uuid with
  | Some nl => Some nl
  | None => listeners_entry (fin n) uuid
  end.

(** Writes the state of a listener obtained from [entry] back to the table
    that holds it. *)
Definition store (nl : listener) (n : notifs) : notifs :=
  match nls n !! UUID nl with
  | Some _ => {| nls := <[UUID nl := nl]> (nls n); fin := fin n; smapVer := smapVer n |}
  | None =>
      match fin n !! UUID nl with
      | Some _ => {| nls := nls n; fin := <[UUID nl := nl]> (fin n); smapVer := smapVer n |}
      | None => n
      end
  end.

(** [cmn.NewAbortedErrorDetails(nl.Kind(), detail)]. *)
Definition abortedError (nl : listener) (tid : string) : string :=
  Kind nl +:+ " aborted: " +:+ UUID nl +:+ ", node " +:+ tid.

(** [notifs.markFinished]: the listener and [done]. *)
Definition markFinished (nl : listener) (tid : string) (srcErr : option string)
    (aborted : bool) : listener * bool :=
  let nl1 := MarkFinished nl tid in
  let nl2 := if aborted then SetAborted nl1 else nl1 in
  let srcErr' := if aborted then
                   match srcErr with
                   | None => Some (abortedError nl2 tid)
                   | Some e => Some e
                   end
                 else srcErr in
  let nl3 := match srcErr' with Some e => SetErr nl2 e | None => nl2 end in
  (nl3, AllFinished nl3 || aborted).

(** [notifs.done]. The best-effort abort broadcast to the notifiers has no
    effect on the tables and is left out. *)
Definition done (nl : listener) (now : Z) (n : notifs) : notifs :=
  let '(n1, ok) := del nl n in
  if negb ok then n
  else
    {| nls := nls n1;
       fin := (listeners_add (fin n1) (Callback nl now)).1;
       smapVer := smapVer n1 |}.

Section WithCodec.

(** [nl.UnmarshalStats] (stats, finished, aborted; [None] is a decoding
    error), the listener kinds and the progress interval of the configuration
    are parameters. *)
Variable UnmarshalStats : string -> option (string * bool * bool).
Variable ActQueryObjects : string.
Variables DlTypeMulti DlTypeCloud DlTypeSingle DlTypeRange : string.
Variable progressInterval : Z.

(** [notifs.handleProgress]. *)
Definition handleProgress (nl : listener) (tid : string) (data : option string)
    (srcErr : option string) (n : notifs) : notifs :=
  let nl1 := match srcErr with Some e => SetErr nl e | None => nl end in
  let nl2 := match data with
             | Some d =>
                 match UnmarshalStats d with
                 | Some (stats, _, _) => SetStats nl1 tid stats
                 | None => SetStats nl1 tid EmptyString
                 end
             | None => nl1
             end in
  store nl2 n.

(** [notifs.handleFinished]. *)
Definition handleFinished (nl : listener) (tid : string) (data : option string)
    (srcErr : option string) (now : Z) (n : notifs) : notifs :=
  let '(nl1, aborted) :=
    match data with
    | Some d =>
        match UnmarshalStats d with
        | Some (stats, _, aborted) => (SetStats nl tid stats, aborted)
        | None => (SetStats nl tid EmptyString, false)
        end
    | None => (nl, false)
    end in
  let '(nl2, finished) := markFinished nl1 tid srcErr aborted in
  let n1 := store nl2 n in
  if finished then done nl2 now n1 else n1.

(** [cluster.NotifMsg]. *)
Record NotifMsg : Type := {
  msg_UUID : string;
  msg_Data : option string;
  msg_ErrMsg : string
}.

(** The two routes below [/v1/notifs]. *)
Inductive route : Type := Progress | Finished_.

(** [notifs.handler], from the point where the request has been parsed: the
    route, the message and the caller id [tid]. The HTTP reply is left out. *)
Definition handler (rt : route) (notifMsg : NotifMsg) (tid : string) (now : Z)
    (n : notifs) : notifs :=
  match entry (msg_UUID notifMsg) n with
  | None => n
  | Some nl =>
      if negb (bool_decide (tid ∈ Notifiers nl)) then n
      else if HasFinished nl tid then n
      else
        let errMsg := if bool_decide (msg_ErrMsg notifMsg = EmptyString) then None
                      else Some (msg_ErrMsg notifMsg) in
        match rt with
        | Progress => handleProgress nl tid (msg_Data notifMsg) errMsg n
        | Finished_ => handleFinished nl tid (msg_Data notifMsg) errMsg now n
        end
  end.

(** One reply to the pull broadcast of [syncStats]. *)
Record bcastResult : Type := {
  res_si : string;
  res_err : option string;
  res_status : Z;
  res_bytes : string
}.

(** The body of [for res := range results] in [syncStats]; Go's [||] does
    not evaluate [markFinished] once [done] holds. *)
Definition syncStats_step (now : Z) (st : listener * bool) (res : bcastResult)
    : listener * bool :=
  let '(nl, finished) := st in
  match res_err res with
  | None =>
      match UnmarshalStats (res_bytes res) with
      | None => st
      | Some (stats, fin_, aborted) =>
          let '(nl1, finished1) :=
            if fin_ then
              (if finished then (nl, true)
               else markFinished nl (res_si res) None aborted)
            else (nl, finished) in
          (SetStats nl1 (res_si res) stats, finished1)
      end
  | Some _ =>
      if res_status res =? StatusNotFound then
        if now - AddedTime nl <? progressInterval then st
        else if finished then st
        else
          markFinished nl (res_si res)
            (Some (UUID nl +:+ " not found at " +:+ res_si res)) true
      else st
  end.

(** [notifs.syncStats]; [results] is [None] when [nl.NodesTardy] reports
    that no sync is required, else the replies of the tardy notifiers. *)
Definition syncStats (nl : listener) (results : option (list bcastResult))
    (now : Z) (n : notifs) : notifs :=
  match results with
  | None => n
  | Some rs =>
      let '(nl1, finished) := foldl (syncStats_step now) (nl, false) rs in
      let n1 := store nl1 n in
      if finished then done nl1 now n1 else n1
  end.

(** [notifs.housekeep]. [fin_order] is the order in which the finished
    table is visited, [run_order] the one of the snapshot [tempn];
    [results] gives the pull replies per listener. *)
Definition housekeep (now : Z) (fin_order : list listener) (run_order : list string)
    (results : string -> option (list bcastResult)) (n : notifs) : notifs :=
  let fin1 :=
    foldl (λ acc nl,
             if notifsRemoveMult * notifsHousekeepT <? now - EndTime nl
             then (listeners_del acc nl).1 else acc)
          (fin n) fin_order in
  let n1 := {| nls := nls n; fin := fin1; smapVer := smapVer n |} in
  if bool_decide (size (nls n1) = 0%nat) then n1
  else
    foldl (λ acc uuid,
             match nls n !! uuid with
             | Some _ =>
                 match entry uuid acc with
                 | Some nl => syncStats nl (results uuid) now acc
                 | None => acc
                 end
             | None => acc
             end) n1 run_order.

(** Modelled from the spec: the cluster map [Smap] is declared outside the
    files at hand: a version and the proxies and targets by node id;
    [GetNode] looks a node up in either. *)
Record Smap : Type := {
  Version : Z;
  Tmap : gmap string Hrw.Snode;
  Pmap : gmap string Hrw.Snode
}.

Definition GetNode (smap : Smap) (id : string) : option Hrw.Snode :=
  match Tmap smap !! id with
  | Some node => Some node
  | None => Pmap smap !! id
  end.

Definition InMaintenance (node : Hrw.Snode) : bool := Hrw.InMaint (Hrw.Flags node).

(** A notifier that left the cluster map or entered maintenance. *)
Definition gone (smap : Smap) (id : string) : bool :=
  match GetNode smap id with
  | None => true
  | Some node => InMaintenance node
  end.

(** The first notifier found gone when [nl.ActiveNotifiers()] is visited in
    the given order. *)
Definition first_gone (smap : Smap) (order : list string) : option string :=
  head (filter (λ id, gone smap id = true) order).

(** [&errNodeNotFound{s, sid, n.p.si, smap}]. *)
Definition errNodeNotFound (nl : listener) (sid : string) : string :=
  "stop waiting for " +:+ UUID nl +:+ ": node " +:+ sid +:+ " not found".

(** [notifs.ListenSmapChanged]. [started] is [n.p.ClusterStarted()];
    [orders uuid] is the order in which [range nl.ActiveNotifiers()] visits
    node ids for the listener filed under [uuid] (ids that are not active
    notifiers are skipped). The loops over [remnl] act on one uuid each, so they are
    taken together per entry: the listener gets its error and the aborted
    flag, is added to [fin] unless the uuid is there, removed from [nls], and
    its callback runs. [None] is the panic of
    [cmn.Assert(nl.UUID() == uuid)]. *)
Definition ListenSmapChanged (started : bool) (smap : Smap)
    (orders : string -> list string) (now : Z) (n : notifs) : option notifs :=
  if negb started then Some n
  else if Version smap <=? smapVer n then Some n
  else
    let n1 := {| nls := nls n; fin := fin n; smapVer := Version smap |} in
    if bool_decide (size (nls n1) = 0%nat) then Some n1
    else
      let remnl :=
        map_imap (λ uuid nl,
                    sid ← first_gone smap
                            (filter (λ id, id ∈ ActiveNotifiers nl) (orders uuid));
                    Some (SetAborted (SetErr nl (errNodeNotFound nl sid))))
                 (nls n1) in
      if bool_decide (map_Forall (λ uuid nl, UUID nl = uuid) remnl) then
        Some {| nls := nls n1 ∖ remnl;
                fin := fin n1 ∪ ((λ nl, Callback nl now) <$> remnl);
                smapVer := smapVer n1 |}
      else None.

(** *** Serialization *)

(** The JSON object written for one listener ([jsoniter.Marshal(n.nl)]).
    Modelled from the spec: the fields of the listener types are declared
    outside the files at hand; the Go type of the listener is not part of
    the encoding. *)
Record nlJSON : Type := {
  j_UUID : string;
  j_Kind : string;
  j_Notifiers : gset string;
  j_Finished : gset string;
  j_Aborted : bool;
  j_Err : option string;
  j_Stats : gmap string string;
  j_AddedTime : Z;
  j_EndTime : Z;
  j_Owner : string
}.

(** [jsonNL]. *)
Record jsonNL : Type := {
  Type_ : string;
  NL : nlJSON
}.

(** [jsonNotifs]. *)
Record jsonNotifs : Type := {
  Running : list jsonNL;
  Finished_list : list jsonNL
}.

Definition marshal_listener (nl : listener) : nlJSON :=
  {| j_UUID := UUID nl; j_Kind := Kind nl; j_Notifiers := Notifiers nl;
     j_Finished := Finished nl; j_Aborted := Aborted nl; j_Err := ErrValue nl;
     j_Stats := Stats nl; j_AddedTime := AddedTime nl; j_EndTime := EndTime nl;
     j_Owner := Owner nl |}.

Definition unmarshal_listener (ty : nl_type) (j : nlJSON) : listener :=
  {| UUID := j_UUID j; Kind := j_Kind j; go_type := ty;
     Notifiers := j_Notifiers j; Finished := j_Finished j;
     Aborted := j_Aborted j; ErrValue := j_Err j; Stats := j_Stats j;
     AddedTime := j_AddedTime j; EndTime := j_EndTime j; Owner := j_Owner j;
     callbacks := 0 |}.

(** [notifListenMsg.MarshalJSON]. *)
Definition notifListenMsg_MarshalJSON (nl : listener) : jsonNL :=
  {| Type_ := Kind nl; NL := marshal_listener nl |}.

Definition isDLType (t : string) : bool :=
  bool_decide (t = DlTypeMulti) || bool_decide (t = DlTypeCloud) ||
  bool_decide (t = DlTypeSingle) || bool_decide (t = DlTypeRange).

(** The Go type [notifListenMsg.UnmarshalJSON] allocates for a type tag. *)
Definition type_of_tag (t : string) : nl_type :=
  if bool_decide (t = ActQueryObjects) then NotifListenerQuery
  else if isDLType t then NotifDownloadListerner
  else NotifXactListener.

(** [notifListenMsg.UnmarshalJSON]. *)
Definition notifListenMsg_UnmarshalJSON (t : jsonNL) : listener :=
  unmarshal_listener (type_of_tag (Type_ t)) (NL t).

(** [notifs.MarshalJSON]; the two orders are those in which the tables are
    visited. The JSON text of the envelope is identified with the envelope. *)
Definition MarshalJSON (run_order fin_order : list listener) : jsonNotifs :=
  {| Running := notifListenMsg_MarshalJSON <$> run_order;
     Finished_list := notifListenMsg_MarshalJSON <$> fin_order |}.

(** [notifs.UnmarshalJSON] on well-formed data. *)
Definition UnmarshalJSON (now : Z) (t : jsonNotifs) (n : notifs) : notifs :=
  let running := notifListenMsg_UnmarshalJSON <$> Running t in
  let finished := notifListenMsg_UnmarshalJSON <$> Finished_list t in
  let nls1 := if (0 <? length running)%nat
              then listeners_merge now (nls n) running else nls n in
  let fin1 := if (0 <? length finished)%nat
              then listeners_merge now (fin n) finished else fin n in
  {| nls := nls1; fin := fin1; smapVer := smapVer n |}.

(** The uuids carried by a serialized list of listeners. *)
Definition incoming_uuids (msgs : list jsonNL) : gset string :=
  list_to_set ((λ j, j_UUID (NL j)) <$> msgs).

End WithCodec.

(** *** find *)

Section WithFilter.

(** The bucket type, [nl.Bcks()], [cmn.QueryBcks(nf.Bck.Bck).Contains(bck)],
    [nf.Bck.IsEmpty()] and the listener method [nl.Finished()] are declared
    outside the files at hand; they are parameters. *)
Variable Bck : Type.
Variable Bcks : listener -> list Bck.
Variable Contains : Bck -> Bck -> bool.
Variable IsEmpty : Bck -> bool.
Variable listener_Finished : listener -> bool.

(** [nlFilter] (an [xreg.XactFilter]); [None] is a nil pointer. *)
Record nlFilter : Type := {
  flt_ID : string;
  flt_Kind : string;
  flt_Bck : option Bck;
  flt_OnlyRunning : option bool
}.

(** [nlFilter.match]. *)
Definition nlFilter_match (nf : nlFilter) (nl : listener) : bool :=
  if bool_decide (UUID nl = flt_ID nf) then true
  else if bool_decide (Kind nl = flt_Kind nf) then
    match flt_Bck nf with
    | None => true
    | Some b => if IsEmpty b then true else existsb (Contains b) (Bcks nl)
    end
  else false.

(** The body of the loop of [listeners.find]; the state is [ftime], the
    listener found so far, and whether the loop has returned. *)
Definition find_step (flt : nlFilter) (st : Z * option listener * bool)
    (l : listener) : Z * option listener * bool :=
  let '(ftime, found, returned) := st in
  if returned then st
  else if EndTime l <? ftime then st
  else
    let '(ftime', found') :=
      if nlFilter_match flt l then (EndTime l, Some l) else (ftime, found) in
    (ftime', found', bool_decide (is_Some found') && negb (listener_Finished l)).

(** [listeners.find]; [order] is the order in which the table is visited. *)
Definition listeners_find (flt : nlFilter) (order : list listener) : option listener :=
  (foldl (find_step flt) (0, None, false) order).1.2.

(** [notifs.find]. *)
Definition find (flt : nlFilter) (run_order fin_order : list listener) (n : notifs)
    : option listener :=
  if negb (bool_decide (flt_ID flt = EmptyString)) then entry (flt_ID flt) n
  else
    match listeners_find flt run_order with
    | Some nl => Some nl
    | None =>
        match flt_OnlyRunning flt with
        | Some true => None
        | _ => listeners_find flt fin_order
        end
    end.

End WithFilter.

Arguments flt_ID {Bck} _.
Arguments flt_Kind {Bck} _.
Arguments flt_Bck {Bck} _.
Arguments flt_OnlyRunning {Bck} _.

(** Every listener is filed under its own uuid. *)
Definition keyed (l : listeners) : Prop :=
  map_Forall (λ uuid nl, UUID nl = uuid) l.

(** No uuid is in both tables. *)
Definition exclusive (n : notifs) : Prop :=
  dom (nls n) ## dom (fin n).

(** The uuids the fabric tracks. *)
Definition tracked (n : notifs) : gset string :=
  dom (nls n) ∪ dom (fin n).

(** Examples. *)
Definition sample_listener (uuid kind : string) (notifiers : gset string) : listener :=
  {| UUID := uuid; Kind := kind; go_type := NotifXactListener;
     Notifiers := notifiers; Finished := ∅; Aborted := false; ErrValue := None;
     Stats := ∅; AddedTime := 0; EndTime := 0; Owner := "p1"; callbacks := 0 |}.

Definition sample_UnmarshalStats (data : string) : option (string * bool * bool) :=
  Some (data, true, false).

Definition sample_finished_msg (uuid : string) : NotifMsg :=
  {| msg_UUID := uuid; msg_Data := None; msg_ErrMsg := EmptyString |}.

(** A fabric with one running download and one finished query. *)
Definition sample_notifs : notifs :=
  {| nls := {[ "job-1" := sample_listener "job-1" "single" {[ "t1" ]} ]};
     fin := {[ "job-2" := sample_listener "job-2" "query" {[ "t1"; "t2" ]} ]};
     smapVer := 3 |}.

(** A cluster map, newer than the one [sample_notifs] has seen, from which
    the target ["t1"] is gone. *)
Definition sample_smap : Smap :=
  {| Version := 4; Tmap := {[ "t2" := Hrw.mkSnode "t2" 2 false ]}; Pmap := ∅ |}.

End Notifs.

(* ===================================================================== *)
(** * Properties *)
(* ===================================================================== *)

Section HrwFacts.
Import Hrw.
Variable Hash : N -> N.
Variable Checksum64S : string -> N -> N.
Variable MLCG32 : N.

Local Abbreviation weight := (Hrw.weight Hash).
Local Abbreviation heavier := (Hrw.heavier Hash).
Local Abbreviation hrw_inv := (Hrw.hrw_inv Hash).
Local Abbreviation hrwList_inv := (Hrw.hrwList_inv Hash).
Local Abbreviation HrwHash2T := (Hrw.HrwHash2T Hash).
Local Abbreviation HrwName2T := (Hrw.HrwName2T Hash Checksum64S MLCG32).

Lemma hrw_inv_step digest skipMaint seen st tsi :
  hrw_inv digest skipMaint seen st →
  hrw_inv digest skipMaint (seen ++ [tsi]) (HrwHash2T_step Hash digest skipMaint st tsi).
Proof.
  unfold hrw_inv, HrwHash2T_step, eligible.
  destruct st as [mx [si|]]; simpl.
  - intros (Hin & Hel & -> & Hmax).
    destruct (skipMaint && InMaintOrDecomm tsi) eqn:Hskip; simpl.
    + split_and!; [apply elem_of_app; by left | done | done | ].
      intros b [Hb | ->%list_elem_of_singleton]%elem_of_app Hb'; [by apply Hmax|].
      by rewrite Hskip in Hb'.
    + destruct (N.leb_spec (weight digest si) (weight digest tsi)); simpl.
      * split_and!; [apply elem_of_app; right; apply list_elem_of_singleton; done | by rewrite Hskip | done | ].
        intros b [Hb | ->%list_elem_of_singleton]%elem_of_app Hb'; [|lia].
        specialize (Hmax b Hb Hb'). lia.
      * split_and!; [apply elem_of_app; by left | done | done | ].
        intros b [Hb | ->%list_elem_of_singleton]%elem_of_app Hb'; [by apply Hmax | lia].
  - intros [-> Hnone].
    destruct (skipMaint && InMaintOrDecomm tsi) eqn:Hskip; simpl.
    + split; [done|].
      intros b [Hb | ->%list_elem_of_singleton]%elem_of_app; [by apply Hnone|].
      by rewrite Hskip.
    + rewrite (proj2 (N.leb_le 0 _) (N.le_0_l _)). simpl.
      split_and!; [apply elem_of_app; right; apply list_elem_of_singleton; done | by rewrite Hskip | done | ].
      intros b [Hb | ->%list_elem_of_singleton]%elem_of_app Hb'; [|lia].
      apply Hnone in Hb. congruence.
Qed.

Lemma hrw_inv_foldl digest skipMaint order :
  hrw_inv digest skipMaint order
    (foldl (HrwHash2T_step Hash digest skipMaint) (0%N, None) order).
Proof.
  induction order as [|tsi order IH] using rev_ind.
  - split; [done|]. intros b Hb. by apply elem_of_nil in Hb.
  - rewrite foldl_app. simpl. by apply hrw_inv_step.
Qed.

(** The result of [HrwHash2T]: a participating node of maximal weight, or
    the no-nodes error when nobody participates. *)
Lemma HrwHash2T_spec order digest skipMaint :
  match HrwHash2T order digest skipMaint with
  | Ok si =>
      si ∈ order ∧ eligible skipMaint si = true ∧
      ∀ b, b ∈ order → eligible skipMaint b = true →
           (weight digest b <= weight digest si)%N
  | Err e =>
      e = ErrNoNodes true (Z.of_nat (length order)) ∧
      ∀ b, b ∈ order → eligible skipMaint b = false
  | Panic => False
  end.
Proof.
  unfold Hrw.HrwHash2T.
  pose proof (hrw_inv_foldl digest skipMaint order) as Hinv.
  unfold hrw_inv in Hinv.
  destruct (foldl _ _ order).2 as [si|].
  - destruct Hinv as (? & ? & _ & ?). done.
  - destruct Hinv as [_ ?]. done.
Qed.

Lemma NoDup_fmap_eq {A B : Type} (f : A → B) (l : list A) x y :
  NoDup (f <$> l) → x ∈ l → y ∈ l → f x = f y → x = y.
Proof.
  induction l as [|a l IH]; simpl; [by intros _ ?%elem_of_nil|].
  rewrite NoDup_cons. intros [Hnotin Hnd] Hx Hy Hxy.
  apply elem_of_cons in Hx as [->|Hx], Hy as [->|Hy]; try done.
  - exfalso. apply Hnotin. rewrite Hxy. by apply list_elem_of_fmap_2.
  - exfalso. apply Hnotin. rewrite <- Hxy. by apply list_elem_of_fmap_2.
  - by apply IH.
Qed.

Lemma HrwHash2T_perm o1 o2 digest skipMaint :
  o1 ≡ₚ o2 →
  no_tie Hash digest skipMaint o1 →
  HrwHash2T o1 digest skipMaint = HrwHash2T o2 digest skipMaint.
Proof.
  intros Hperm Htie.
  pose proof (HrwHash2T_spec o1 digest skipMaint) as H1.
  pose proof (HrwHash2T_spec o2 digest skipMaint) as H2.
  destruct (HrwHash2T o1 digest skipMaint) as [s1|e1|],
           (HrwHash2T o2 digest skipMaint) as [s2|e2|]; try done.
  - destruct H1 as (Hin1 & Hel1 & Hmax1), H2 as (Hin2 & Hel2 & Hmax2).
    rewrite <- Hperm in Hin2.
    f_equal. apply (NoDup_fmap_eq (weight digest) _ _ _ Htie).
    + by apply list_elem_of_filter.
    + by apply list_elem_of_filter.
    + apply N.le_antisymm; [apply Hmax2; [by rewrite <- Hperm|done] | by apply Hmax1].
  - destruct H1 as (Hin1 & Hel1 & _), H2 as [_ Hnone].
    rewrite Hperm in Hin1. apply Hnone in Hin1. congruence.
  - destruct H2 as (Hin2 & Hel2 & _), H1 as [_ Hnone].
    rewrite <- Hperm in Hin2. apply Hnone in Hin2. congruence.
  - destruct H1 as [-> _], H2 as [-> _]. by rewrite Hperm.
Qed.

Lemma lxor_cancel_r (a b d : N) : N.lxor a d = N.lxor b d → a = b.
Proof.
  intros Heq. apply (f_equal (λ x, N.lxor x d)) in Heq.
  by rewrite !N.lxor_assoc, N.lxor_nilpotent, !N.lxor_0_r in Heq.
Qed.

(** With an injective hash (a permutation of the 64-bit words), targets
    with pairwise distinct digests never tie. *)
Lemma no_tie_distinct_digests digest skipMaint order :
  (∀ x y, Hash x = Hash y → x = y) →
  NoDup (Digest <$> filter (λ tsi, eligible skipMaint tsi = true) order) →
  no_tie Hash digest skipMaint order.
Proof.
  intros Hinj Hnd. unfold no_tie.
  assert (weight digest = (λ d, Hash (N.lxor d digest)) ∘ Digest) as -> by done.
  rewrite list_fmap_compose. apply NoDup_fmap_2; [|done].
  intros a b Hab. by apply Hinj, lxor_cancel_r in Hab.
Qed.
Lemma range_of_perm {V} (m : gmap string V) o1 o2 :
  range_of m o1 → range_of m o2 → o1 ≡ₚ o2.
Proof. unfold range_of. by intros -> ->. Qed.

(** Claim C1, as amended. For every key digest and skip-maintenance flag, two
    runs of [HrwHash2T] that visit the same target map [tmap] in any two
    orders return the same node (or the same no-nodes error), provided no two
    participating targets have the same weight for that digest; the same
    holds for [HrwName2T] on a name with that digest. On a tie the loop keeps
    the node it visits last, so the result then follows the visiting order
    (see [HrwHash2T_tie_follows_visiting_order]). *)
Theorem HrwHash2T_depends_only_on_Tmap (tmap : NodeMap) o1 o2 digest skipMaint :
  range_of tmap o1 → range_of tmap o2 →
  no_tie Hash digest skipMaint o1 →
  HrwHash2T o1 digest skipMaint = HrwHash2T o2 digest skipMaint ∧
  ∀ uname, Checksum64S uname MLCG32 = digest →
    HrwName2T o1 uname skipMaint = HrwName2T o2 uname skipMaint.
Proof.
  intros Ho1 Ho2 Htie.
  assert (HrwHash2T o1 digest skipMaint = HrwHash2T o2 digest skipMaint) as Heq
    by eauto using HrwHash2T_perm, range_of_perm.
  split; [done|]. intros uname <-. exact Heq.
Qed.


Lemma swap_adjacent {A : Type} (pre post : list A) (a x : A) (i : nat) :
  length pre = i →
  <[i := x]> (<[S i := a]> (pre ++ a :: x :: post)) = pre ++ x :: a :: post.
Proof.
  intros <-. rewrite !insert_app_r_alt by lia.
  replace (S (length pre) - length pre)%nat with 1%nat by lia.
  by replace (length pre - length pre)%nat with 0%nat by lia.
Qed.

Lemma snoc_length_inv {A : Type} (l : list A) (i : nat) :
  length l = S i → ∃ l' a, l = l' ++ [a] ∧ length l' = i.
Proof.
  destruct l as [|a l] using rev_ind; [done|].
  rewrite length_app. simpl. intros Hlen. exists l, a. split; [done|lia].
Qed.

Lemma lookup_adjacent {A : Type} (pre post : list A) (a x : A) (i : nat) :
  length pre = i →
  (pre ++ a :: x :: post) !! i = Some a ∧ (pre ++ a :: x :: post) !! S i = Some x.
Proof.
  intros <-. split; [by apply list_lookup_middle|].
  rewrite lookup_app_r by lia.
  by replace (S (length pre) - length pre)%nat with 1%nat by lia.
Qed.

(** The insertion loop moves the new entry left past every smaller weight and
    stops at the first weight that is not smaller. *)
Lemma bubble_decomp idx : ∀ (A B : list N) (sA sB : list Snode) x sx cnt,
  length A = idx → length sA = idx →
  ∃ A1 A2 sA1 sA2,
    A = A1 ++ A2 ∧ sA = sA1 ++ sA2 ∧ length A1 = length sA1 ∧
    Forall (λ a, (a < x)%N) A2 ∧
    (∀ A0 a, A1 = A0 ++ [a] → (x <= a)%N) ∧
    bubble idx {| hs := A ++ x :: B; sis := sA ++ sx :: sB; n := cnt |} =
      Some {| hs := A1 ++ x :: A2 ++ B; sis := sA1 ++ sx :: sA2 ++ sB; n := cnt |}.
Proof.
  induction idx as [|i IH]; intros A B sA sB x sx cnt HA HsA.
  - apply nil_length_inv in HA as ->. apply nil_length_inv in HsA as ->.
    exists [], [], [], []. split_and!; try done.
    intros A0 a Heq. by destruct A0.
  - destruct (snoc_length_inv _ _ HA) as (A' & a & -> & HA').   
    destruct (snoc_length_inv _ _ HsA) as (sA' & sa & -> & HsA').
    rewrite <- !app_assoc. simpl.
    destruct (lookup_adjacent A' B a x i HA') as [-> ->].
    destruct (lookup_adjacent sA' sB sa sx i HsA') as [-> ->].
    simpl. destruct (N.ltb_spec a x) as [Hlt|Hge].
    + rewrite !swap_adjacent by done.
      destruct (IH A' (a :: B) sA' (sa :: sB) x sx cnt HA' HsA')
        as (A1 & A2 & sA1 & sA2 & -> & -> & Hlen & Hall & Hlast & ->).
      exists A1, (A2 ++ [a]), sA1, (sA2 ++ [sa]).
      split_and!; try done.
      * by rewrite app_assoc.
      * by rewrite app_assoc.
      * apply Forall_app. split; [done|]. by apply Forall_singleton.
      * by rewrite <- !app_assoc.
    + exists (A' ++ [a]), [], (sA' ++ [sa]), [].
      split_and!; try done.
      * by rewrite app_nil_r.
      * by rewrite app_nil_r.
      * rewrite !length_app. simpl. lia.
      * intros A0 a0 [_ ->]%app_inj_tail. done.
      * by rewrite <- !app_assoc.
Qed.

Lemma bubble_insert digest (sis0 : list Snode) (x : Snode) cnt :
  StronglySorted (heavier digest) sis0 →
  ∃ sis',
    bubble (length sis0)
      {| hs := (weight digest <$> sis0) ++ [weight digest x];
         sis := sis0 ++ [x]; n := cnt |} =
      Some {| hs := weight digest <$> sis'; sis := sis'; n := cnt |} ∧
    sis' ≡ₚ sis0 ++ [x] ∧
    StronglySorted (heavier digest) sis'.
Proof.
  intros Hsorted.
  destruct (bubble_decomp (length sis0) (weight digest <$> sis0) [] sis0 []
              (weight digest x) x cnt) as
    (A1 & A2 & sA1 & sA2 & HA & -> & Hlen & Hlt & Hge & ->);
    [by rewrite length_fmap | done |].
  rewrite fmap_app in HA.
  apply app_inj_1 in HA as [<- <-]; [|by rewrite length_fmap].
  exists (sA1 ++ x :: sA2). split_and!.
  - by rewrite !app_nil_r, fmap_app.
  - rewrite <- app_assoc. apply Permutation_app_head, Permutation_cons_append.
  - apply StronglySorted_app in Hsorted as (Hcross & HsA1 & HsA2).
    apply StronglySorted_app. split_and!; [|done|].
    + intros x1 x2 Hx1 [->|Hx2]%elem_of_cons; [|by apply Hcross].
      destruct sA1 as [|s sA0 _] using rev_ind; [by apply elem_of_nil in Hx1|].
      assert (weight digest x <= weight digest s)%N as Hs.
      { apply (Hge (weight digest <$> sA0)). by rewrite fmap_app. }
      apply elem_of_app in Hx1 as [Hx1 | ->%list_elem_of_singleton]; [|done].
      apply StronglySorted_app in HsA1 as (Hc & _ & _).
      unfold heavier in *.
      specialize (Hc x1 s Hx1 ltac:(by apply list_elem_of_singleton)). lia.
    + apply StronglySorted_cons. split; [|done].
      apply Forall_fmap in Hlt. eapply Forall_impl; [exact Hlt|].
      unfold heavier. simpl. intros; lia.
Qed.


Lemma at_index_last {A : Type} (pre : list A) (a : A) (i : Z) :
  i = Z.of_nat (length pre) → at_index (pre ++ [a]) i = Some a.
Proof.
  intros ->. unfold at_index.
  destruct (Z.ltb_spec (Z.of_nat (length pre)) 0); [lia|].
  rewrite Nat2Z.id. by apply list_lookup_middle.
Qed.

Lemma set_index_last {A : Type} (pre : list A) (a x : A) (i : Z) :
  i = Z.of_nat (length pre) → set_index (pre ++ [a]) i x = Some (pre ++ [x]).
Proof.
  intros ->. unfold set_index. rewrite length_app. simpl.
  destruct (Z.ltb_spec (Z.of_nat (length pre)) 0); [lia|].
  destruct (Z.leb_spec (Z.of_nat (length pre + 1)) (Z.of_nat (length pre))); [lia|].
  simpl. rewrite Nat2Z.id. rewrite insert_app_r_alt by lia.
  by replace (length pre - length pre)%nat with 0%nat by lia.
Qed.

Lemma add_inv digest seen hl dropped x :
  hrwList_inv digest seen hl dropped →
  (1 <= n hl → is_Some (add (weight digest x) x hl)) ∧
  (∀ hl', add (weight digest x) x hl = Some hl' →
     n hl' = n hl ∧ ∃ dropped', hrwList_inv digest (seen ++ [x]) hl' dropped').
Proof.
  intros [Hperm Hfull Hlen Hdrop Hhs Hsorted].
  destruct hl as [hs0 sis0 cnt]; simpl in *. subst hs0.
  unfold add; simpl.
  destruct (Z.eqb_spec (Z.of_nat (length sis0)) cnt) as [Heq|Hne].
  - destruct sis0 as [|ln sis1 _] using rev_ind.
    + simpl in *. subst cnt. split; [lia|]. by intros hl'.
    + rewrite fmap_app. simpl. rewrite length_app in *. simpl in *.
      rewrite at_index_last by (rewrite length_fmap; lia). simpl.
      apply StronglySorted_app in Hsorted as (Hcross & Hsis1 & _).
      destruct (N.leb_spec (weight digest x) (weight digest ln)) as [Hle|Hgt].
      * split; [eauto|]. intros hl' [= <-]. simpl. split; [done|].
        exists (dropped ++ [x]). constructor; simpl.
        -- by rewrite Hperm, app_assoc.
        -- intros _. rewrite length_app. simpl. lia.
        -- rewrite length_app. simpl. lia.
        -- intros d s [Hd | ->%list_elem_of_singleton]%elem_of_app Hs; [by apply Hdrop|].
           unfold heavier.
           apply elem_of_app in Hs as [Hs | ->%list_elem_of_singleton]; [|done].
           specialize (Hcross s ln Hs ltac:(by apply list_elem_of_singleton)).
           unfold heavier in Hcross. lia.
        -- by rewrite fmap_app.
        -- apply StronglySorted_app. split_and!; [done|done|repeat constructor].
      * rewrite !set_index_last by (rewrite ?length_fmap; lia). simpl.
        replace (Z.to_nat (Z.of_nat (length sis1 + 1) - 1)) with (length sis1) by lia.
        destruct (bubble_insert digest sis1 x cnt Hsis1) as (sis' & -> & Hp & Hs').
        split; [eauto|]. intros hl' [= <-]. simpl. split; [done|].
        exists (dropped ++ [ln]). constructor; simpl.
        -- rewrite Hperm, Hp. rewrite <- !app_assoc.
           apply Permutation_app_head. simpl.
           rewrite (Permutation_app_comm dropped [ln]). simpl.
           rewrite Permutation_swap. apply Permutation_cons; [done|].
           symmetry. apply Permutation_cons_append.
        -- intros _. rewrite Hp, length_app. simpl. lia.
        -- rewrite Hp, length_app. simpl. lia.
        -- intros d s Hd Hs. rewrite Hp in Hs. unfold heavier.
           assert (weight digest d <= weight digest ln)%N as Hdl.
           { apply elem_of_app in Hd as [Hd | ->%list_elem_of_singleton]; [|done].
             apply (Hdrop d ln Hd). apply elem_of_app. right.
             by apply list_elem_of_singleton. }
           apply elem_of_app in Hs as [Hs | ->%list_elem_of_singleton]; [|lia].
           specialize (Hcross s ln Hs ltac:(by apply list_elem_of_singleton)).
           unfold heavier in Hcross. lia.
        -- done.
        -- done.
  - replace (Z.to_nat (Z.of_nat (length sis0) + 1 - 1)) with (length sis0) by lia.
    destruct (bubble_insert digest sis0 x cnt Hsorted) as (sis' & -> & Hp & Hs').
    split; [eauto|]. intros hl' [= <-]. simpl. split; [done|].
    assert (dropped = []) as ->.
    { destruct dropped as [|d dropped]; [done|]. exfalso. apply Hne, Hfull. done. }
    exists []. constructor; simpl.
    + rewrite Hperm, Hp, !app_nil_r. done.
    + done.
    + rewrite Hp, length_app. simpl. lia.
    + intros d s Hd. by apply elem_of_nil in Hd.
    + done.
    + done.
Qed.


Local Abbreviation HrwTargetList := (Hrw.HrwTargetList Hash Checksum64S MLCG32).

Lemma active_targets_snoc order tsi :
  active_targets (order ++ [tsi]) =
  active_targets order ++ (if InMaintOrDecomm tsi then [] else [tsi]).
Proof.
  unfold active_targets. rewrite filter_app. f_equal.
  rewrite filter_cons, filter_nil. unfold eligible. simpl.
  destruct (InMaintOrDecomm tsi); by case_decide.
Qed.

Lemma HrwTargetList_loop digest count order :
  0 <= count →
  (1 <= count →
     is_Some (foldl (HrwTargetList_step Hash digest) (newHrwList count) order)) ∧
  (∀ hl, foldl (HrwTargetList_step Hash digest) (newHrwList count) order = Some hl →
     n hl = count ∧ ∃ dropped, hrwList_inv digest (active_targets order) hl dropped).
Proof.
  intros Hcount. unfold newHrwList.
  destruct (Z.ltb_spec count 0); [lia|].
  induction order as [|tsi order [IHsome IHinv]] using rev_ind.
  - simpl. split; [eauto|]. intros hl [= <-]. simpl. split; [done|].
    exists []. constructor; simpl; try done.
    + intros d s Hd. by apply elem_of_nil in Hd.
    + constructor.
  - rewrite foldl_app. simpl. rewrite active_targets_snoc.
    destruct (foldl _ _ order) as [hl0|]; simpl.
    + destruct (IHinv hl0 eq_refl) as (Hn & dropped & Hinv).
      destruct (InMaintOrDecomm tsi).
      * rewrite app_nil_r. split; [eauto|]. intros hl [= <-]. eauto.
      * destruct (add_inv digest _ hl0 dropped tsi Hinv) as [Hsome Hstep].
        split; [intros; apply Hsome; lia|].
        intros hl Hadd. destruct (Hstep hl Hadd) as [Hn' Hex].
        split; [congruence|done].
    + split; [|done]. intros Hc. by apply IHsome.
Qed.

Lemma hrwList_inv_length digest seen hl dropped :
  hrwList_inv digest seen hl dropped →
  Z.of_nat (length (sis hl)) = Z.min (n hl) (Z.of_nat (length seen)).
Proof.
  intros [Hperm Hfull Hlen _ _ _].
  apply Permutation_length in Hperm. rewrite length_app in Hperm.
  destruct dropped as [|d dropped]; simpl in *; [lia|].
  specialize (Hfull ltac:(done)). lia.
Qed.

(** Claim C3, as amended. For [count >= 1], with [len] the size of the target
    map and [avail] the number of targets neither in maintenance nor being
    decommissioned: [HrwTargetList] fails with the not-enough-targets error
    when [len < count], and when [count < len] and [avail < count]; it
    returns exactly [count] targets when [count < len] and [count <= avail];
    and when [count = len] it returns all [avail] active targets without an
    error, even if they are fewer than [count]. *)
Theorem HrwTargetList_not_enough_targets order uname count :
  1 <= count →
  (Z.of_nat (length order) < count →
     HrwTargetList order uname count =
       Err (ErrNotEnoughTargets count (Z.of_nat (length order)))) ∧
  (count < Z.of_nat (length order) →
   Z.of_nat (length (active_targets order)) < count →
     HrwTargetList order uname count =
       Err (ErrNotEnoughTargets count (Z.of_nat (length (active_targets order))))) ∧
  (count < Z.of_nat (length order) →
   count <= Z.of_nat (length (active_targets order)) →
     ∃ sis, HrwTargetList order uname count = Ok sis ∧
            Z.of_nat (length sis) = count) ∧
  (count = Z.of_nat (length order) →
     ∃ sis, HrwTargetList order uname count = Ok sis ∧
            Z.of_nat (length sis) = Z.of_nat (length (active_targets order))).
Proof.
  intros Hcount.
  set (cnt := Z.of_nat (length order)).
  set (avail := Z.of_nat (length (active_targets order))).
  unfold Hrw.HrwTargetList, CountTargets. fold cnt.
  destruct (HrwTargetList_loop (Checksum64S uname MLCG32) count order ltac:(lia))
    as [Hsome Hinv].
  destruct (Hsome Hcount) as [hl Hhl]. rewrite Hhl.
  destruct (Hinv hl Hhl) as (Hn & dropped & Hi).
  pose proof (hrwList_inv_length _ _ _ _ Hi) as Hlen. rewrite Hn in Hlen.
  fold avail in Hlen. unfold get.
  assert (avail <= cnt) as Havail.
  { unfold avail, cnt, active_targets. pose proof (length_filter (λ tsi, eligible true tsi = true) order). lia. }
  split_and!.
  - intros Hlt. by destruct (Z.ltb_spec cnt count); [|lia].
  - intros Hlt Hav. destruct (Z.ltb_spec cnt count); [lia|].
    destruct (Z.eqb_spec count cnt); [lia|]. simpl.
    destruct (Z.ltb_spec (Z.of_nat (length (sis hl))) count); [|lia].
    do 2 f_equal. lia.
  - intros Hlt Hav. destruct (Z.ltb_spec cnt count); [lia|].
    destruct (Z.eqb_spec count cnt); [lia|]. simpl.
    destruct (Z.ltb_spec (Z.of_nat (length (sis hl))) count); [lia|].
    exists (sis hl). split; [done|lia].
  - intros Heq. destruct (Z.ltb_spec cnt count); [lia|].
    destruct (Z.eqb_spec count cnt); [|lia]. simpl.
    exists (sis hl). split; [done|lia].
Qed.


Lemma HrwTargetList_loop_panic digest order :
  foldl (HrwTargetList_step Hash digest) None order = None.
Proof. by induction order. Qed.

Lemma StronglySorted_strict digest (l : list Snode) :
  StronglySorted (heavier digest) l →
  NoDup (weight digest <$> l) →
  StronglySorted (λ a b, (weight digest b < weight digest a)%N) l.
Proof.
  induction 1 as [|a l Hl IH Hall]; simpl; [constructor|].
  rewrite NoDup_cons. intros [Hnotin Hnd].
  constructor; [by apply IH|].
  apply Forall_forall. intros b Hb.
  rewrite Forall_forall in Hall. specialize (Hall b Hb). unfold heavier in Hall.
  assert (weight digest a ≠ weight digest b); [|lia].
  intros Heq. apply Hnotin. rewrite Heq. by apply list_elem_of_fmap_2.
Qed.

(** Claim C2, as amended. Whenever [HrwTargetList] succeeds, the returned
    list is in descending order of HRW weight; if no two active targets have
    the same weight the order is strictly descending and the first element
    is the node [HrwHash2T] returns for the digest of the name with
    maintenance skipped, whatever order that run visits the map in. *)
Theorem HrwTargetList_descending order uname count sis :
  HrwTargetList order uname count = Ok sis →
  let digest := Checksum64S uname MLCG32 in
  StronglySorted (heavier digest) sis ∧
  (no_tie Hash digest true order →
     StronglySorted (λ a b, (weight digest b < weight digest a)%N) sis ∧
     ∀ o2 hd, o2 ≡ₚ order → head sis = Some hd →
              HrwHash2T o2 digest true = Ok hd).
Proof.
  intros Hres digest. unfold Hrw.HrwTargetList in Hres. fold digest in Hres.
  destruct (CountTargets order <? count); [done|].
  destruct (Z.ltb_spec count 0) as [Hneg|Hpos].
  { unfold newHrwList in Hres. destruct (Z.ltb_spec count 0); [|lia].
    by rewrite HrwTargetList_loop_panic in Hres. }
  destruct (HrwTargetList_loop digest count order Hpos) as [_ Hinv].
  destruct (foldl _ _ order) as [hl|]; [|done].
  destruct (Hinv hl eq_refl) as (_ & dropped & [Hperm _ _ Hdrop _ Hsorted]).
  destruct (_ && _); [done|]. injection Hres as <-. unfold get.
  split; [done|]. intros Htie. unfold no_tie in Htie. fold (active_targets order) in Htie.
  assert (NoDup (weight digest <$> sis hl)) as Hnd.
  { rewrite Hperm, fmap_app in Htie. by apply NoDup_app in Htie as (? & _ & _). }
  split; [by apply StronglySorted_strict|].
  intros o2 hd Ho2 Hhd.
  destruct (sis hl) as [|hd' rest] eqn:Hsis; simplify_eq/=.
  assert (hd ∈ active_targets order) as Hin.
  { rewrite Hperm. simpl. apply elem_of_cons. by left. }
  assert (∀ b, b ∈ order → eligible true b = true → heavier digest hd b) as Hmax.
  { intros b Hb Hel.
    assert (b ∈ active_targets order) as Hb' by by apply list_elem_of_filter.
    rewrite Hperm in Hb'. change (b ∈ (hd :: rest) ++ dropped) in Hb'.
    apply elem_of_app in Hb' as [Hb'|Hb'].
    - apply elem_of_cons in Hb' as [->|Hb']; [unfold heavier; lia|].
      apply StronglySorted_cons in Hsorted as [Hall _].
      rewrite Forall_forall in Hall. by apply Hall.
    - apply (Hdrop b hd Hb'). apply elem_of_cons. by left. }
  apply list_elem_of_filter in Hin as [Hel_hd Hin_hd].
  pose proof (HrwHash2T_spec o2 digest true) as Hspec.
  destruct (HrwHash2T o2 digest true) as [si|e|]; [|exfalso|done].
  - destruct Hspec as (Hsi & Hel & Hge). f_equal.
    apply (NoDup_fmap_eq (weight digest) _ _ _ Htie).
    + apply list_elem_of_filter. split; [done|]. by rewrite <- Ho2.
    + by apply list_elem_of_filter.
    + apply N.le_antisymm.
      * apply Hmax; [by rewrite <- Ho2|done].
      * apply Hge; [by rewrite Ho2|done].
  - destruct Hspec as [_ Hnone]. rewrite <- Ho2 in Hin_hd.
    apply Hnone in Hin_hd. congruence.
Qed.
End HrwFacts.

Section HrwExamples.
Import Hrw.

Lemma leb_0_l (x : N) : (0 <=? x)%N = true.
Proof. apply N.leb_le, N.le_0_l. Qed.

Lemma tie_order_1 : range_of tie_tmap [tie_a; tie_b].
Proof. unfold range_of. vm_compute. first [reflexivity | apply Permutation_swap]. Qed.

Lemma tie_order_2 : range_of tie_tmap [tie_b; tie_a].
Proof. unfold range_of. vm_compute. first [reflexivity | apply Permutation_swap]. Qed.

(** Counterexample to claim C1 as stated: two targets with the same digest,
    hence the same weight for every key and every hash; visiting the same
    target map in the two possible orders returns two different nodes. *)
Lemma HrwHash2T_tie_follows_visiting_order :
  (range_of tie_tmap [tie_a; tie_b] ∧ range_of tie_tmap [tie_b; tie_a]) ∧
  ∀ Hash digest skipMaint,
    HrwHash2T Hash [tie_a; tie_b] digest skipMaint = Ok tie_b ∧
    HrwHash2T Hash [tie_b; tie_a] digest skipMaint = Ok tie_a ∧
    tie_a ≠ tie_b.
Proof.
  split; [split; [apply tie_order_1 | apply tie_order_2]|].
  intros Hash digest skipMaint.
  unfold HrwHash2T, HrwHash2T_step, weight. simpl.
  rewrite !andb_false_r, leb_0_l. simpl. rewrite N.leb_refl. done.
Qed.

(** Counterexample to claim C2 as stated: with two targets of equal weight
    [HrwTargetList] returns both, so the list is not strictly descending, and
    its first element is not the node [HrwHash2T] returns for the same digest
    and the same visiting order. *)
Lemma HrwTargetList_tie_not_strict :
  tie_a ≠ tie_b ∧
  ∀ Hash Checksum64S MLCG32 uname,
    let digest := Checksum64S uname MLCG32 in
    HrwTargetList Hash Checksum64S MLCG32 [tie_a; tie_b] uname 2 = Ok [tie_a; tie_b] ∧
    weight Hash digest tie_a = weight Hash digest tie_b ∧
    HrwHash2T Hash [tie_a; tie_b] digest true = Ok tie_b.
Proof.
  split; [done|]. intros Hash cs seed uname digest.
  split_and!; [|done|].
  - unfold HrwTargetList, HrwTargetList_step, add, weight. simpl.
    rewrite N.ltb_irrefl. done.
  - unfold HrwHash2T, HrwHash2T_step, weight. simpl.
    rewrite leb_0_l. simpl. rewrite N.leb_refl. done.
Qed.

(** Counterexample to claim C3 as stated: two targets, one in maintenance,
    and [count = 2]: only one target is eligible, yet the call succeeds and
    returns one target instead of failing. *)
Lemma HrwTargetList_all_targets_requested :
  active_targets [maint_a; active_b] = [active_b] ∧
  ∀ Hash Checksum64S MLCG32 uname,
    HrwTargetList Hash Checksum64S MLCG32 [maint_a; active_b] uname 2 = Ok [active_b].
Proof. split; [done|]. intros. reflexivity. Qed.


Lemma four_order_range : range_of four_tmap four_order.
Proof. unfold range_of. apply (bool_decide_unpack _). vm_compute. exact I. Qed.

Lemma four_order'_range : range_of four_tmap four_order'.
Proof. unfold range_of. apply (bool_decide_unpack _). vm_compute. exact I. Qed.

Lemma four_no_tie skipMaint : no_tie sample_mix 0xDEAD skipMaint four_order.
Proof.
  unfold no_tie. apply (bool_decide_unpack _).
  destruct skipMaint; vm_compute; exact I.
Qed.

(** Claim C1 at four targets with digests 1..4 and key digest 0xDEAD. *)
Lemma HrwHash2T_depends_only_on_Tmap_witness :
  HrwHash2T sample_mix four_order 0xDEAD false =
  HrwHash2T sample_mix four_order' 0xDEAD false.
Proof.
  exact (proj1 (HrwHash2T_depends_only_on_Tmap sample_mix sample_checksum 0
                  four_tmap four_order four_order' 0xDEAD false
                  four_order_range four_order'_range (four_no_tie false))).
Defined.


Lemma four_no_tie_key :
  no_tie sample_mix (sample_checksum "bucket/object" 0) true four_order.
Proof. unfold no_tie. apply (bool_decide_unpack _). vm_compute. exact I. Qed.

(** Claim C2 at four targets with digests 1..4 and [count = 2]. *)
Lemma HrwTargetList_descending_witness :
  let digest := sample_checksum "bucket/object" 0 in
  let top2 := [mkSnode "C" 3 false; mkSnode "D" 4 false] in
  HrwTargetList sample_mix sample_checksum 0 four_order "bucket/object" 2 = Ok top2 ∧
  StronglySorted (λ a b, (weight sample_mix digest b < weight sample_mix digest a)%N) top2 ∧
  HrwHash2T sample_mix four_order' digest true = Ok (mkSnode "C" 3 false).
Proof.
  intros digest top2.
  assert (HrwTargetList sample_mix sample_checksum 0 four_order "bucket/object" 2
          = Ok top2) as Hrun by (vm_compute; reflexivity).
  destruct (HrwTargetList_descending sample_mix sample_checksum 0
              four_order "bucket/object" 2 top2 Hrun) as [_ Hstrict].
  destruct (Hstrict four_no_tie_key) as [Hsorted Hhead].
  split_and!; [exact Hrun | exact Hsorted |].
  apply Hhead; [|reflexivity].
  apply (bool_decide_unpack _). vm_compute. exact I.
Defined.

(** Claim C3 at four active targets with [count] 5 and 2, and at one active
    target out of two with [count = 2]. *)
Lemma HrwTargetList_not_enough_targets_witness :
  HrwTargetList sample_mix sample_checksum 0 four_order "bucket/object" 5 =
    Err (ErrNotEnoughTargets 5 4) ∧
  (∃ sis, HrwTargetList sample_mix sample_checksum 0 four_order "bucket/object" 2 = Ok sis ∧
          Z.of_nat (length sis) = 2) ∧
  (∃ sis, HrwTargetList sample_mix sample_checksum 0 [maint_a; active_b] "bucket/object" 2 = Ok sis ∧
          Z.of_nat (length sis) = 1).
Proof.
  split_and!.
  - refine (proj1 (HrwTargetList_not_enough_targets sample_mix sample_checksum 0
                     four_order "bucket/object" 5 _) _); [lia | vm_compute; reflexivity].
  - refine (proj1 (proj2 (proj2 (HrwTargetList_not_enough_targets sample_mix
                     sample_checksum 0 four_order "bucket/object" 2 _))) _ _);
      [lia | vm_compute; reflexivity | vm_compute; discriminate].
  - refine (proj2 (proj2 (proj2 (HrwTargetList_not_enough_targets sample_mix
                     sample_checksum 0 [maint_a; active_b] "bucket/object" 2 _))) _);
      [lia | vm_compute; reflexivity].
Defined.

(** [HrwTargetList] never returns a target in maintenance, while [HrwHash2T]
    with [skipMaint = false] may: whatever the hash, one of these two maps
    has a target in maintenance that weighs at least as much as the active
    one. *)
Lemma HrwTargetList_head_skips_maintenance :
  ∀ Hash Checksum64S MLCG32 uname,
    let digest := Checksum64S uname MLCG32 in
    (HrwTargetList Hash Checksum64S MLCG32
       [mkSnode "t2" 2 false; mkSnode "t1" 1 true] uname 1 = Ok [mkSnode "t2" 2 false] ∧
     HrwHash2T Hash [mkSnode "t2" 2 false; mkSnode "t1" 1 true] digest false
       = Ok (mkSnode "t1" 1 true)) ∨
    (HrwTargetList Hash Checksum64S MLCG32
       [mkSnode "t1" 1 false; mkSnode "t2" 2 true] uname 1 = Ok [mkSnode "t1" 1 false] ∧
     HrwHash2T Hash [mkSnode "t1" 1 false; mkSnode "t2" 2 true] digest false
       = Ok (mkSnode "t2" 2 true)).
Proof.
  intros Hash cs seed uname digest.
  destruct (N.le_gt_cases (Hash (N.lxor 2 digest)) (Hash (N.lxor 1 digest))) as [Hle|Hgt].
  - left. split; [reflexivity|].
    unfold HrwHash2T, HrwHash2T_step, weight. simpl.
    rewrite (proj2 (N.leb_le 0 _) (N.le_0_l _)). simpl.
    by rewrite (proj2 (N.leb_le _ _) Hle).
  - right. split; [reflexivity|].
    unfold HrwHash2T, HrwHash2T_step, weight. simpl.
    rewrite (proj2 (N.leb_le 0 _) (N.le_0_l _)). simpl.
    by rewrite (proj2 (N.leb_le _ _) (N.lt_le_incl _ _ Hgt)).
Qed.

(** With [count = 0] and an active target, [hrwList.add] reads [hs[-1]]. *)
Lemma HrwTargetList_zero_count_panics :
  ∀ Hash Checksum64S MLCG32 uname,
    HrwTargetList Hash Checksum64S MLCG32 [active_b] uname 0 = Panic.
Proof. reflexivity. Qed.

End HrwExamples.

Section QueueFacts.
Import Downloader.

Lemma drop_full_buffer (buf : list task) (received : nat) :
  (length buf ≤ queueChSize)%nat →
  (queueChSize ≤ length (drop received buf))%nat →
  drop received buf = buf.
Proof.
  rewrite length_drop. intros Hcap Hfull.
  assert (received = 0%nat) as -> by (unfold queueChSize in *; lia). done.
Qed.

(** Claim C4. For a queue in service and a task [t], whose uid is the string
    link|bucket|objname: if the uid is in the set, [put] returns
    [added = false] without an error and leaves the queue as it is; if the
    uid is absent and the channel stays full for the whole wait, [put]
    returns the timeout error with code 408 and leaves the queue, its uid set
    included, as it is; otherwise [put] appends [t] to the channel, adds the
    uid to the set and returns [added = true]. *)
Theorem put_dedup_timeout_enqueue q t received buf s :
  in_service q buf s →
  uid (treq t) = Link (obj (treq t)) +:+ "|" +:+ bucket (treq t) +:+ "|" +:+ Objname (obj (treq t)) ∧
  (uid (treq t) ∈ s →
     put q t received = Some (q, {| added := false; err := None; errCode := 0 |})) ∧
  (uid (treq t) ∉ s → (queueChSize ≤ length (drop received buf))%nat →
     put q t received =
       Some (q, {| added := false; err := Some (ErrPutTimeout t); errCode := 408 |})) ∧
  (uid (treq t) ∉ s → (length (drop received buf) < queueChSize)%nat →
     put q t received =
       Some ({| ch := ChanOpen (drop received buf ++ [t]);
                m := Some ({[ uid (treq t) ]} ∪ s) |},
             {| added := true; err := None; errCode := 0 |})).
Proof.
  intros (Hch & Hm & Hcap). destruct q as [c mm]. simpl in *. subst c mm.
  split; [done|]. unfold put. simpl. split_and!.
  - intros Hin. by rewrite bool_decide_eq_true_2.
  - intros Hnotin Hfull. rewrite bool_decide_eq_false_2 by done.
    destruct (Nat.ltb_spec (length (drop received buf)) queueChSize); [lia|].
    by rewrite drop_full_buffer.
  - intros Hnotin Hroom. rewrite bool_decide_eq_false_2 by done.
    by destruct (Nat.ltb_spec (length (drop received buf)) queueChSize); [|lia].
Qed.

End QueueFacts.

Section QueueExamples.
Import Downloader.

(** Claim C4 on a duplicate, on a full queue nobody reads from, and on an
    empty queue. *)
Lemma put_dedup_timeout_enqueue_witness :
  let t := sample_task "http://x/a" "b" "a" in
  let busy := {| ch := ChanOpen full_buffer; m := Some {[ "http://x/filler|b|filler" ]} |} in
  put {| ch := ChanOpen []; m := Some {[ uid (treq t) ]} |} t 0 =
    Some ({| ch := ChanOpen []; m := Some {[ uid (treq t) ]} |},
          {| added := false; err := None; errCode := 0 |}) ∧
  put busy t 0 =
    Some (busy, {| added := false; err := Some (ErrPutTimeout t); errCode := 408 |}) ∧
  put newQueue t 0 =
    Some ({| ch := ChanOpen [t]; m := Some ({[ uid (treq t) ]} ∪ ∅) |},
          {| added := true; err := None; errCode := 0 |}).
Proof.
  intros t busy. split_and!.
  - refine (proj1 (proj2 (put_dedup_timeout_enqueue _ t 0 [] {[ uid (treq t) ]} _)) _).
    + split_and!; [reflexivity | reflexivity | simpl; unfold queueChSize; lia].
    + apply elem_of_singleton. reflexivity.
  - refine (proj1 (proj2 (proj2 (put_dedup_timeout_enqueue busy t 0 full_buffer
                                   {[ "http://x/filler|b|filler" ]} _))) _ _).
    + split_and!; [reflexivity | reflexivity | vm_compute; lia].
    + intros Hin%elem_of_singleton. vm_compute in Hin. discriminate.
    + vm_compute. lia.
  - refine (proj2 (proj2 (proj2 (put_dedup_timeout_enqueue newQueue t 0 [] ∅ _))) _ _).
    + split_and!; [reflexivity | reflexivity | simpl; unfold queueChSize; lia].
    + apply not_elem_of_empty.
    + simpl. unfold queueChSize. lia.
Defined.

End QueueExamples.

Section BroadcastFacts.
Import Proxy.
Variable Unmarshal : string -> option DlStatusResp.
Variable fmtStatus : Z -> Z -> string.
Variable targetDownloadRequest : string -> Hrw.Snode -> dlResponse.

Local Abbreviation respond := (Proxy.respond Unmarshal fmtStatus).
Local Abbreviation broadcastDownloadRequest :=
  (Proxy.broadcastDownloadRequest Unmarshal fmtStatus targetDownloadRequest).

Lemma filter_snoc {A : Type} (P : A → Prop) `{∀ x, Decision (P x)} (l : list A) (x : A) :
  filter P (l ++ [x]) = filter P l ++ (if decide (P x) then [x] else []).
Proof. by rewrite filter_app. Qed.

Lemma aggregate_prefix (replies : list dlResponse) (i : nat) :
  (i ≤ length replies)%nat →
  ∃ st,
    foldl aggregate_step
      (Some {| responses := replies; validLen := 0; notFoundCnt := 0; errors := [] |})
      (seq 0 i) = Some st ∧
    aggregate_inv replies i st.
Proof.
  induction i as [|i IH]; intros Hi.
  - eexists. split; [done|]. unfold aggregate_inv. simpl.
    rewrite take_0, filter_nil. simpl. by rewrite drop_0.
  - destruct IH as (st & Hst & Hresp & Hlen & Hnf & Herr); [lia|].
    rewrite seq_S, foldl_app, Hst. simpl.
    destruct (lookup_lt_is_Some_2 replies i ltac:(lia)) as [x Hx].
    set (V := filter is_valid (take i replies)) in *.
    assert (length V ≤ i)%nat as HV.
    { unfold V. etrans; [apply length_filter|]. rewrite length_take. lia. }
    assert (responses st !! i = Some x) as Hlook.
    { rewrite Hresp, lookup_app_r by done. rewrite lookup_drop. rewrite <- Hx. f_equal. lia. }
    rewrite Hlook. simpl. unfold aggregate_inv.
    rewrite (take_S_r _ _ _ Hx), !filter_snoc.
    unfold StatusBadRequest, StatusNotFound.
    destruct (Z.leb_spec 400 (statusCode x)) as [Hge|Hlt].
    + destruct (Z.eqb_spec (statusCode x) 404) as [Heq|Hne].
      * eexists. split; [done|]. simpl.
        rewrite (decide_False (P := is_valid x)), (decide_True (P := is_not_found x)),
                (decide_False (P := is_other_error x));
          [|unfold is_other_error, StatusNotFound; tauto | done
           | unfold is_valid, StatusBadRequest; lia].
        rewrite !app_nil_r, length_app. simpl. split_and!; try done. lia.
      * eexists. split; [done|]. simpl.
        rewrite (decide_False (P := is_valid x)), (decide_False (P := is_not_found x)),
                (decide_True (P := is_other_error x));
          [|unfold is_other_error, StatusNotFound, StatusBadRequest; lia | done
           | unfold is_valid, StatusBadRequest; lia].
        rewrite !app_nil_r. split_and!; try done. by rewrite Herr.
    + eexists. split; [done|]. simpl.
      rewrite (decide_True (P := is_valid x)), (decide_False (P := is_not_found x)),
              (decide_False (P := is_other_error x));
        [|unfold is_other_error, StatusBadRequest; lia
         | unfold is_not_found, StatusNotFound; lia
         | unfold is_valid, StatusBadRequest; lia].
      rewrite !app_nil_r, length_app. simpl. fold V.
      split_and!; try done; [|rewrite Hlen; lia].
      rewrite Hresp, Hlen.
      destruct (lookup_lt_is_Some_2 replies (length V) ltac:(lia)) as [y Hy].
      rewrite insert_app_r_alt by lia.
      replace (length V - length V)%nat with 0%nat by lia.
      rewrite (drop_S _ _ _ Hy). simpl.
      rewrite <- app_assoc. simpl. do 3 f_equal. lia.
Qed.

Local Abbreviation collectResponses := (Proxy.collectResponses targetDownloadRequest).

Lemma aggregate_spec (replies : list dlResponse) :
  ∃ st, aggregate replies = Some st ∧ aggregate_inv replies (length replies) st.
Proof. by apply aggregate_prefix. Qed.

Lemma filter_length_all {A : Type} (P : A → Prop) `{∀ x, Decision (P x)} (l : list A) :
  length (filter P l) = length l ↔ Forall P l.
Proof.
  split.
  - intros Hlen. apply Forall_forall. intros x Hx.
    destruct (decide (P x)) as [|Hn]; [done|].
    pose proof (length_filter_lt P l x Hx Hn). lia.
  - intros Hall. induction Hall as [|x l Hx Hall IH]; [done|].
    rewrite filter_cons, decide_True by done. simpl. by rewrite IH.
Qed.

Lemma filter_none {A : Type} (P : A → Prop) `{∀ x, Decision (P x)} (l : list A) :
  Forall (λ x, ¬ P x) l → filter P l = [].
Proof.
  induction 1 as [|x l Hx Hall IH]; [done|].
  by rewrite filter_cons, decide_False.
Qed.

(** Claim C5. For a broadcast to at least one target: if every reply has
    status 404 the error of the first reply is returned as it is; otherwise,
    if some reply has a status of 400 or more other than 404, the error of
    the first such reply is returned; otherwise the request succeeds and is
    answered from the replies below 400 alone: a GET sums the statuses they
    decode to, a DELETE returns the body of the first of them. *)
Theorem broadcast_error_aggregation (method : string) (arrival : list Hrw.Snode) :
  arrival ≠ [] →
  (Forall is_not_found (collectResponses method arrival) →
     ∃ r0, head (collectResponses method arrival) = Some r0 ∧
           broadcastDownloadRequest method arrival = Some (EmptyString, err r0)) ∧
  (¬ Forall is_not_found (collectResponses method arrival) →
     ∀ e0 rest,
       filter is_other_error (collectResponses method arrival) = e0 :: rest →
       broadcastDownloadRequest method arrival = Some (EmptyString, err e0)) ∧
  (¬ Forall is_not_found (collectResponses method arrival) →
   filter is_other_error (collectResponses method arrival) = [] →
     (method = MethodGet →
        ∀ stats,
          mapM Unmarshal (body <$> filter is_valid (collectResponses method arrival))
            = Some stats →
          broadcastDownloadRequest method arrival =
            Some (fmtStatus (sum_int (Finished <$> stats)) (sum_int (Total <$> stats)),
                  None)) ∧
     (method = MethodDelete →
        ∃ v0, head (filter is_valid (collectResponses method arrival)) = Some v0 ∧
              broadcastDownloadRequest method arrival = Some (body v0, None))).
Proof.
  intros Hne. unfold Proxy.broadcastDownloadRequest.
  set (replies := collectResponses method arrival).
  assert (replies ≠ []) as Hreplies.
  { unfold replies, Proxy.collectResponses. by destruct arrival. }
  destruct (aggregate_spec replies) as (st & -> & Hresp & Hlen & Hnf & Herr).
  simpl. rewrite firstn_all in Hresp, Hlen, Hnf, Herr.
  assert ((notFoundCnt st =? Z.of_nat (length replies)) = true ↔
          Forall is_not_found replies) as Hall.
  { rewrite Z.eqb_eq, Hnf, Nat2Z.inj_iff. apply filter_length_all. }
  split_and!.
  - intros Hnotfound. rewrite (proj2 Hall Hnotfound).
    rewrite Hresp, (filter_none is_valid); cycle 1.
    { eapply Forall_impl; [exact Hnotfound|].
      unfold is_not_found, is_valid, StatusNotFound, StatusBadRequest. simpl. lia. }
    simpl. rewrite drop_0. destruct replies as [|r0 replies']; [done|].
    exists r0. done.
  - intros Hsome e0 rest Hfirst.
    rewrite (not_true_is_false _ (λ Heq, Hsome (proj1 Hall Heq))).
    rewrite Herr, Hfirst. done.
  - intros Hsome Hnoerr.
    rewrite (not_true_is_false _ (λ Heq, Hsome (proj1 Hall Heq))).
    rewrite Herr, Hnoerr. simpl.
    assert (∃ v0 V', filter is_valid replies = v0 :: V') as (v0 & V' & HV).
    { destruct (filter is_valid replies) as [|v0 V'] eqn:HV; [|eauto].
      exfalso. apply Hsome. apply Forall_forall. intros r Hr.
      destruct (decide (is_valid r)) as [Hv|Hv].
      - assert (r ∈ filter is_valid replies) as Hin by by apply list_elem_of_filter.
        rewrite HV in Hin. by apply elem_of_nil in Hin.
      - destruct (decide (is_not_found r)) as [|Hnf']; [done|].
        assert (r ∈ filter is_other_error replies) as Hin.
        { apply list_elem_of_filter. split; [|done].
          unfold is_valid, is_not_found, is_other_error in *. lia. }
        rewrite Hnoerr in Hin. by apply elem_of_nil in Hin. }
    unfold Proxy.respond, validResponses. rewrite Hresp, Hlen.
    rewrite take_app_length. split.
    + intros -> stats Hstats. rewrite bool_decide_eq_true_2 by done.
      by rewrite Hstats.
    + intros ->. rewrite bool_decide_eq_false_2 by done.
      rewrite bool_decide_eq_true_2 by done.
      rewrite HV. simpl. exists v0. done.
Qed.

(** Claim C10 (violated by the code). With an empty target map there are no
    replies, [notFoundCnt == len(responses)] holds as [0 == 0], and the read
    of [responses[0]] is out of range: [broadcastDownloadRequest] panics,
    whatever the method. *)
Theorem broadcast_no_targets_panics (method : string) :
  broadcastDownloadRequest method [] = None.
Proof. reflexivity. Qed.

End BroadcastFacts.

Section BroadcastExamples.
Import Proxy.

(** Claim C5 at four targets: all reply 404; two reply 500 and 503; one
    replies 404 and the others succeed. *)
Lemma broadcast_error_aggregation_witness :
  let all404 := sample_call {[ "A" := 404; "B" := 404; "C" := 404; "D" := 404 ]} in
  let mixed := sample_call {[ "A" := 404; "C" := 500; "D" := 503 ]} in
  let quiet := sample_call {[ "A" := 404 ]} in
  broadcastDownloadRequest sample_unmarshal sample_fmtStatus all404 "GET" Hrw.four_order
    = Some (EmptyString, Some "A") ∧
  broadcastDownloadRequest sample_unmarshal sample_fmtStatus mixed "DELETE" Hrw.four_order
    = Some (EmptyString, Some "C") ∧
  broadcastDownloadRequest sample_unmarshal sample_fmtStatus quiet "DELETE" Hrw.four_order
    = Some ("B", None).
Proof.
  intros all404 mixed quiet. split_and!.
  - destruct (proj1 (broadcast_error_aggregation sample_unmarshal sample_fmtStatus
                       all404 "GET" Hrw.four_order ltac:(discriminate)))
      as (r0 & Hhead & Hres).
    + apply (bool_decide_unpack _). vm_compute. exact I.
    + vm_compute in Hhead. injection Hhead as <-. exact Hres.
  - refine (proj1 (proj2 (broadcast_error_aggregation sample_unmarshal sample_fmtStatus
                            mixed "DELETE" Hrw.four_order ltac:(discriminate)))
                  _ (reply 500 "C") [reply 503 "D"] _).
    + intros Hall. apply (bool_decide_pack _) in Hall. vm_compute in Hall. exact Hall.
    + vm_compute. reflexivity.
  - destruct (proj2 (proj2 (proj2 (broadcast_error_aggregation sample_unmarshal
                       sample_fmtStatus quiet "DELETE" Hrw.four_order ltac:(discriminate)))
                       ltac:(intros Hall; apply (bool_decide_pack _) in Hall;
                             vm_compute in Hall; exact Hall)
                       ltac:(vm_compute; reflexivity)) eq_refl)
      as (v0 & Hhead & Hres).
    vm_compute in Hhead. injection Hhead as <-. exact Hres.
Defined.

End BroadcastExamples.

Section FmtFacts.
Import Fmt.

Lemma ascii_compare_refl (a : ascii) : Ascii.compare a a = Eq.
Proof. unfold Ascii.compare. apply N.compare_refl. Qed.

Lemma string_compare_refl (s : string) : String.compare s s = Eq.
Proof. induction s as [|a s IH]; simpl; [done|]. by rewrite ascii_compare_refl. Qed.

Lemma string_compare_app_head (p a b : string) :
  String.compare (p +:+ a) (p +:+ b) = String.compare a b.
Proof. induction p as [|c p IH]; simpl; [done|]. by rewrite ascii_compare_refl. Qed.

Lemma string_length_app (a b : string) :
  String.length (a +:+ b) = (String.length a + String.length b)%nat.
Proof. induction a as [|c a IH]; simpl; [done|]. by rewrite IH. Qed.

Lemma digit_char_compare (d1 d2 : N) :
  (d1 < 10)%N → (d2 < 10)%N →
  Ascii.compare (digit_char d1) (digit_char d2) = (d1 ?= d2)%N.
Proof.
  intros H1 H2. unfold Ascii.compare, digit_char.
  rewrite !N_ascii_embedding by lia.
  destruct (N.compare_spec d1 d2) as [->|Hlt|Hgt].
  - apply N.compare_refl.
  - apply N.compare_lt_iff. lia.
  - apply N.compare_gt_iff. lia.
Qed.

Lemma length_digits_k (k : nat) (n : N) : String.length (digits_k k n) = k.
Proof. induction k as [|k IH]; simpl; [done|]. by rewrite IH. Qed.

(** Zero-padded numerals of the same width compare like the numbers they
    denote, whatever follows them. *)
Lemma digits_k_compare_lt (k : nat) : ∀ (n m : N) (s1 s2 : string),
  (n mod 10 ^ N.of_nat k < m mod 10 ^ N.of_nat k)%N →
  String.compare (digits_k k n +:+ s1) (digits_k k m +:+ s2) = Lt.
Proof.
  induction k as [|k IH]; intros n m s1 s2 Hlt.
  - simpl in Hlt. rewrite !N.mod_1_r in Hlt. lia.
  - simpl.
    assert (10 ^ N.of_nat (S k) = 10 ^ N.of_nat k * 10)%N as Hpow.
    { rewrite Nat2N.inj_succ, N.pow_succ_r'. lia. }
    rewrite Hpow in Hlt.
    assert (10 ^ N.of_nat k ≠ 0)%N as Hnz by (apply N.pow_nonzero; lia).
    rewrite !N.Div0.mod_mul_r in Hlt.
    set (dn := ((n / 10 ^ N.of_nat k) mod 10)%N) in *.
    set (dm := ((m / 10 ^ N.of_nat k) mod 10)%N) in *.
    assert (dn < 10)%N by (apply N.mod_lt; lia).
    assert (dm < 10)%N by (apply N.mod_lt; lia).
    pose proof (N.mod_lt n _ Hnz) as Hn.
    pose proof (N.mod_lt m _ Hnz) as Hm.
    rewrite digit_char_compare by done.
    destruct (N.compare_spec dn dm) as [Heq|Hd|Hd]; [|done|].
    + apply IH. rewrite Heq in Hlt.
      set (a := (n mod 10 ^ N.of_nat k)%N) in *.
      set (b := (m mod 10 ^ N.of_nat k)%N) in *. clearbody a b. lia.
    + exfalso. clear IH Hpow Hnz. clearbody dn dm.
      set (p := (10 ^ N.of_nat k)%N) in *. clearbody p.
      assert (p * (dm + 1) <= p * dn)%N as Hmul by (apply N.mul_le_mono_l; lia).
      set (a := (n mod p)%N) in *. set (b := (m mod p)%N) in *. clearbody a b.
      rewrite N.mul_add_distr_l, N.mul_1_r in Hmul. lia.
Qed.

Lemma pow10_succ (k : nat) : (10 ^ N.of_nat (S k) = 10 * 10 ^ N.of_nat k)%N.
Proof. by rewrite Nat2N.inj_succ, N.pow_succ_r'. Qed.

Lemma div10_lt (n x : N) : (n / 10 < x)%N → (n < 10 * x)%N.
Proof.
  intros Hlt. pose proof (N.div_mod n 10 ltac:(lia)) as Hdm.
  pose proof (N.mod_lt n 10 ltac:(lia)) as Hm.
  set (q := (n / 10)%N) in *. set (r := (n mod 10)%N) in *. clearbody q r. lia.
Qed.

Lemma ndigits_aux_bound (fuel : nat) : ∀ n : N,
  (n < 2 ^ N.of_nat (S fuel))%N → (n < 10 ^ N.of_nat (ndigits_aux fuel n))%N.
Proof.
  induction fuel as [|f IH]; intros n Hn.
  - simpl in *. lia.
  - cbn [ndigits_aux]. destruct (N.ltb_spec n 10) as [Hsmall|Hbig]; [simpl; lia|].
    rewrite pow10_succ. apply div10_lt, IH.
    rewrite (Nat2N.inj_succ (S f)), N.pow_succ_r' in Hn.
    apply N.Div0.div_lt_upper_bound.
    set (p := (2 ^ N.of_nat (S f))%N) in *. clearbody p. lia.
Qed.

Lemma ndigits_bound (n : N) : (n < 10 ^ N.of_nat (ndigits n))%N.
Proof.
  unfold ndigits. apply ndigits_aux_bound.
  rewrite Nat2N.inj_succ, N2Nat.id.
  destruct (decide (n = 0%N)) as [->|Hpos]; [done|].
  apply N.log2_spec. lia.
Qed.

Lemma ndigits_aux_fits (fuel : nat) : ∀ (n : N) (w : nat),
  (1 ≤ w)%nat → (n < 10 ^ N.of_nat w)%N → (ndigits_aux fuel n ≤ w)%nat.
Proof.
  induction fuel as [|f IH]; intros n w Hw Hn; [simpl; lia|].
  cbn [ndigits_aux]. destruct (N.ltb_spec n 10) as [Hsmall|Hbig]; [lia|].
  destruct w as [|w]; [lia|]. destruct w as [|w]; [simpl in Hn; lia|].
  apply le_n_S, IH; [lia|].
  rewrite pow10_succ in Hn. by apply N.Div0.div_lt_upper_bound.
Qed.

Lemma itoa_pad_fits (w : nat) (n : N) :
  (1 ≤ w)%nat → (n < 10 ^ N.of_nat w)%N → itoa_pad w n = digits_k w n.
Proof.
  intros Hw Hn. unfold itoa_pad.
  pose proof (ndigits_aux_fits (N.to_nat (N.log2 n)) n w Hw Hn) as Hfit.
  fold (ndigits n) in Hfit. by rewrite Nat.max_l.
Qed.

Lemma pow10_mono (a b : nat) : (a ≤ b)%nat → (10 ^ N.of_nat a <= 10 ^ N.of_nat b)%N.
Proof. intros Hab. apply N.pow_le_mono_r; lia. Qed.

(** Different numbers never print alike, whatever the padding width. *)
Lemma itoa_pad_inj (w : nat) (n m : N) (s : string) :
  itoa_pad w n +:+ s = itoa_pad w m +:+ s → n = m.
Proof.
  unfold itoa_pad. intros Heq.
  assert (Nat.max w (ndigits n) = Nat.max w (ndigits m)) as Hlen.
  { apply (f_equal String.length) in Heq.
    rewrite !string_length_app, !length_digits_k in Heq. lia. }
  rewrite <- Hlen in Heq. set (L := Nat.max w (ndigits n)) in *.
  assert (n < 10 ^ N.of_nat L)%N as Hn.
  { eapply N.lt_le_trans; [apply ndigits_bound|]. apply pow10_mono. lia. }
  assert (m < 10 ^ N.of_nat L)%N as Hm.
  { eapply N.lt_le_trans; [apply ndigits_bound|]. apply pow10_mono. lia. }
  destruct (N.lt_trichotomy n m) as [Hlt|[->|Hgt]]; [|done|].
  - pose proof (digits_k_compare_lt L n m s s) as Hcmp.
    rewrite !N.mod_small in Hcmp by done.
    rewrite Heq, string_compare_refl in Hcmp. by specialize (Hcmp Hlt).
  - pose proof (digits_k_compare_lt L m n s s) as Hcmp.
    rewrite !N.mod_small in Hcmp by done.
    rewrite Heq, string_compare_refl in Hcmp. by specialize (Hcmp Hgt).
Qed.

Lemma sprintf_0d_nonneg (w i : Z) :
  0 <= w → 0 <= i → sprintf_0d w i = itoa_pad (Z.to_nat w) (Z.to_N i).
Proof.
  intros Hw Hi. unfold sprintf_0d.
  destruct (Z.ltb_spec w 0); [lia|]. by destruct (Z.ltb_spec i 0); [lia|].
Qed.

End FmtFacts.

Section RangeFacts.
Import Proxy.
Variables (prefix suffix base : string) (digitCount : Z).

Local Abbreviation objname := (range_objname prefix suffix digitCount).
Local Abbreviation insert_objects := (Proxy.insert_objects prefix suffix base digitCount).

Lemma wrap_int_small (z : Z) : Fmt.minInt <= z <= Fmt.maxInt → Fmt.wrap_int z = z.
Proof.
  unfold Fmt.minInt, Fmt.maxInt, Fmt.wrap_int. intros Hz.
  rewrite Z.mod_small; lia.
Qed.

Lemma range_indexes_cons (start step : Z) (k : nat) :
  range_indexes start step (S k) = start :: range_indexes (start + step) step k.
Proof.
  unfold range_indexes. simpl. f_equal; [lia|].
  rewrite <- fmap_S_seq, <- list_fmap_compose.
  apply list_fmap_ext. intros _ t _. simpl. lia.
Qed.

Lemma elem_of_range_indexes (start step : Z) (k : nat) (i : Z) :
  i ∈ range_indexes start step k ↔
  ∃ t, 0 <= t < Z.of_nat k ∧ i = start + t * step.
Proof.
  unfold range_indexes. rewrite list_elem_of_fmap. split.
  - intros (t & -> & Ht). apply elem_of_seq in Ht. exists (Z.of_nat t). lia.
  - intros (t & Ht & ->). exists (Z.to_nat t). split; [by rewrite Z2Nat.id by lia|]. apply elem_of_seq. lia.
Qed.

Lemma range_loop_run (end_ step : Z) (k : nat) :
  ∀ (fuel : nat) (i : Z) (objects : gmap string string),
    1 <= step → end_ + step <= Fmt.maxInt → Fmt.minInt <= i →
    (i <= end_ → k = Z.to_nat ((end_ - i) / step + 1)) →
    (end_ < i → k = 0%nat) →
    (k ≤ fuel)%nat →
    range_loop fuel prefix suffix base end_ step digitCount i objects =
      Some (insert_objects objects (range_indexes i step k)).
Proof.
  induction k as [|k IH]; intros fuel i objects Hstep Hmax Hmin Hle Hgt Hfuel.
  - assert (end_ < i) as Hdone.
    { destruct (Z.lt_ge_cases end_ i) as [|Hi]; [done|]. specialize (Hle Hi).
      pose proof (Z.div_pos (end_ - i) step ltac:(lia) ltac:(lia)). lia. }
    destruct fuel; simpl; by destruct (Z.leb_spec i end_); [lia|].
  - assert (i <= end_) as Hi.
    { destruct (Z.lt_ge_cases end_ i) as [Hlt|]; [|done]. by specialize (Hgt Hlt). }
    specialize (Hle Hi). destruct fuel as [|fuel]; [lia|].
    rewrite range_indexes_cons. cbn [range_loop].
    destruct (Z.leb_spec i end_); [|lia].
    rewrite wrap_int_small by (unfold Fmt.minInt, Fmt.maxInt in *; lia).
    unfold Proxy.insert_objects. cbn [foldl].
    fold (insert_objects
            (<[objname i := base +:+ objname i]> objects)
            (range_indexes (i + step) step k)).
    assert ((end_ - i) / step = (end_ - (i + step)) / step + 1) as Hdiv.
    { replace (end_ - i) with ((end_ - (i + step)) + 1 * step) by lia.
      rewrite Z.div_add by lia. lia. }
    apply IH; [done | done | unfold Fmt.minInt in *; lia | | | lia].
    + intros Hnext.
      pose proof (Z.div_pos (end_ - (i + step)) step
                    ltac:(clear - Hnext; lia) ltac:(clear - Hstep; lia)) as Hq.
      rewrite Hdiv in Hle.
      set (q := (end_ - (i + step)) / step) in *. clearbody q. lia.
    + intros Hlast.
      assert ((end_ - i) / step = 0) as Hzero by (apply Z.div_small; lia).
      rewrite Hzero in Hle. simpl in Hle. lia.
Qed.

Lemma insert_objects_lookup_other (indexes : list Z) :
  ∀ (objects : gmap string string) (key : string),
    key ∉ objname <$> indexes →
    insert_objects objects indexes !! key = objects !! key.
Proof.
  induction indexes as [|i indexes IH]; intros objects key Hkey; [done|].
  simpl in *. apply not_elem_of_cons in Hkey as [Hne Hkey].
  unfold Proxy.insert_objects in *. simpl. rewrite IH by done.
  by rewrite lookup_insert_ne.
Qed.

Lemma insert_objects_lookup (indexes : list Z) :
  ∀ (objects : gmap string string) (i : Z),
    NoDup (objname <$> indexes) → i ∈ indexes →
    insert_objects objects indexes !! objname i = Some (base +:+ objname i).
Proof.
  induction indexes as [|x indexes IH]; intros objects i Hnd Hi;
    [by apply elem_of_nil in Hi|].
  simpl in Hnd. apply NoDup_cons in Hnd as [Hx Hnd].
  apply elem_of_cons in Hi as [->|Hi].
  - unfold Proxy.insert_objects. simpl.
    fold (insert_objects (<[objname x := base +:+ objname x]> objects) indexes).
    rewrite insert_objects_lookup_other by done. by rewrite lookup_insert_eq.
  - unfold Proxy.insert_objects in *. simpl. by apply IH.
Qed.

Lemma insert_objects_dom (indexes : list Z) :
  ∀ objects : gmap string string,
    dom (insert_objects objects indexes) = dom objects ∪ list_to_set (objname <$> indexes).
Proof.
  induction indexes as [|x indexes IH]; intros objects.
  - simpl. by rewrite (right_id_L ∅ (∪)).
  - unfold Proxy.insert_objects in *. simpl. rewrite IH, dom_insert_L.
    rewrite (comm_L (∪) {[objname x]} (dom objects)). by rewrite (assoc_L (∪)).
Qed.

Lemma objname_inj (i j : Z) :
  0 <= digitCount → 0 <= i → 0 <= j → objname i = objname j → i = j.
Proof.
  intros Hw Hi Hj. unfold range_objname. intros Heq.
  apply (inj (String.app prefix)) in Heq.
  rewrite !sprintf_0d_nonneg in Heq by done.
  apply itoa_pad_inj in Heq. lia.
Qed.


Lemma range_index_count (start end_ step t : Z) :
  start <= end_ → 1 <= step → 0 <= t →
  (start + t * step <= end_ ↔ t < (end_ - start) / step + 1).
Proof.
  intros Hse Hstep Ht. split.
  - intros Hle.
    assert (t <= (end_ - start) / step); [|lia].
    apply Z.div_le_lower_bound; lia.
  - intros Hlt.
    pose proof (Z.mul_div_le (end_ - start) step ltac:(lia)) as Hmul.
    assert (step * t <= step * ((end_ - start) / step)) as Hmono.
    { apply Z.mul_le_mono_nonneg_l; lia. }
    set (q := (end_ - start) / step) in *. clearbody q. lia.
Qed.

Lemma to_N_lt_pow10 (i w : Z) :
  0 <= i → 0 <= w → i < 10 ^ w →
  (Z.to_N i < 10 ^ N.of_nat (Z.to_nat w))%N.
Proof.
  intros Hi Hw Hlt. apply N2Z.inj_lt.
  rewrite N2Z.inj_pow, Z2N.id, nat_N_Z, Z2Nat.id by done. done.
Qed.

Lemma objname_lt (i j : Z) :
  0 <= digitCount → 0 <= i → i < j → j < 10 ^ digitCount →
  String.ltb (objname i) (objname j) = true.
Proof.
  intros Hw Hi Hij Hj.
  assert (1 <= digitCount) as Hw1.
  { destruct (Z.eq_dec digitCount 0) as [Hz|]; [|lia]. rewrite Hz in Hj. simpl in Hj. lia. }
  unfold String.ltb, range_objname.
  rewrite string_compare_app_head, !sprintf_0d_nonneg by lia.
  pose proof (to_N_lt_pow10 i digitCount ltac:(lia) Hw ltac:(lia)) as Hi'.
  pose proof (to_N_lt_pow10 j digitCount ltac:(lia) Hw Hj) as Hj'.
  rewrite !itoa_pad_fits by (done || lia).
  rewrite digits_k_compare_lt; [done|].
  rewrite !N.mod_small by done. lia.
Qed.

(** Claim C6, as amended. For parsed template values with
    [0 <= start <= end], [step >= 1], a digit count of at least 0 and
    [end + step] within the range of [int], the loop of
    [rangeDownloadHandler] terminates with exactly
    [(end - start) / step + 1] objects: one per index
    [start + t * step <= end], named prefix, the index zero-padded to the
    digit count, suffix, and linked to base followed by that name; and there
    are no others. If moreover [end < 10 ^ digitCount], the names are in
    (byte-wise) string order exactly as their indexes are in integer
    order. *)
Theorem rangeObjects_generated (fuel : nat) (start end_ step : Z) :
  0 <= start <= end_ → 1 <= step → 0 <= digitCount →
  end_ + step <= Fmt.maxInt →
  (Z.to_nat ((end_ - start) / step + 1) ≤ fuel)%nat →
  ∃ objects,
    rangeObjects fuel prefix suffix base start end_ step digitCount = Some objects ∧
    Z.of_nat (size objects) = (end_ - start) / step + 1 ∧
    (∀ t, 0 <= t → start + t * step <= end_ →
       objects !! objname (start + t * step) =
         Some (base +:+ objname (start + t * step)) ∧
       objname (start + t * step) =
         prefix +:+ Fmt.itoa_pad (Z.to_nat digitCount) (Z.to_N (start + t * step))
                +:+ suffix) ∧
    (∀ key link, objects !! key = Some link →
       ∃ t, 0 <= t ∧ start + t * step <= end_ ∧ key = objname (start + t * step) ∧
            link = base +:+ key) ∧
    (end_ < 10 ^ digitCount →
       ∀ i j, start <= i → i < j → j <= end_ →
         String.ltb (objname i) (objname j) = true).
Proof.
  intros [Hstart Hse] Hstep Hw Hmax Hfuel.
  set (k := Z.to_nat ((end_ - start) / step + 1)) in *.
  pose proof (Z.div_pos (end_ - start) step ltac:(lia) ltac:(lia)) as Hq.
  assert (Z.of_nat k = (end_ - start) / step + 1) as Hk by (unfold k; lia).
  exists (insert_objects ∅ (range_indexes start step k)).
  assert (∀ i, i ∈ range_indexes start step k → 0 <= i) as Hnonneg.
  { intros i (t & Ht & ->)%elem_of_range_indexes. nia. }
  assert (NoDup (objname <$> range_indexes start step k)) as Hnd.
  { apply NoDup_fmap_2_strong.
    - intros i j Hi Hj. apply objname_inj; auto.
    - unfold range_indexes. apply NoDup_fmap_2_strong; [|apply NoDup_seq].
      intros a b _ _ Hab. nia. }
  split_and!.
  - unfold rangeObjects. apply range_loop_run; try done.
    + unfold Fmt.minInt. lia.
    + lia.
  - rewrite <- Hk. f_equal. rewrite <- size_dom, insert_objects_dom, dom_empty_L.
    rewrite (left_id_L ∅ (∪)), size_list_to_set by done.
    unfold range_indexes. by rewrite !length_fmap, length_seq.
  - intros t Ht Hle. split.
    + apply insert_objects_lookup; [done|]. apply elem_of_range_indexes.
      exists t. split; [|done]. rewrite Hk. split; [done|].
      by apply range_index_count.
    + unfold range_objname. rewrite sprintf_0d_nonneg; [done|done|nia].
  - intros key link Hlook.
    assert (key ∈ dom (insert_objects ∅ (range_indexes start step k))) as Hdom
      by (apply elem_of_dom; eauto).
    rewrite insert_objects_dom, dom_empty_L, (left_id_L ∅ (∪)) in Hdom.
    apply elem_of_list_to_set, list_elem_of_fmap in Hdom as (i & -> & Hi).
    rewrite insert_objects_lookup in Hlook by done. injection Hlook as <-.
    apply elem_of_range_indexes in Hi as (t & Ht & ->).
    exists t. split_and!; try done; [lia|].
    apply range_index_count; lia.
  - intros Hfit i j Hi Hij Hj. apply objname_lt; lia.
Qed.

End RangeFacts.

Section ProxyExamples.
Import Proxy.

(** Counterexample to claim C6 as stated: the template [{8..12}] has digit
    count 1; the generated names include "8" and "10", and "10" sorts before
    "8" although 8 < 10. *)
Lemma rangeObjects_names_not_in_index_order :
  (rangeObjects 5 "" "" "http://x/" 8 12 1 1 ≫= (.!! "8")) = Some "http://x/8" ∧
  (rangeObjects 5 "" "" "http://x/" 8 12 1 1 ≫= (.!! "10")) = Some "http://x/10" ∧
  range_objname "" "" 1 8 = "8" ∧
  range_objname "" "" 1 10 = "10" ∧
  String.ltb (range_objname "" "" 1 10) (range_objname "" "" 1 8) = true.
Proof. vm_compute. done. Qed.

(** Claim C6 at the template [img-{001..003}.jpg] with base [http://x/]. *)
Lemma rangeObjects_generated_witness :
  ∃ objects,
    rangeObjects 10 "img-" ".jpg" "http://x/" 1 3 1 3 = Some objects ∧
    Z.of_nat (size objects) = 3 ∧
    objects !! "img-002.jpg" = Some "http://x/img-002.jpg" ∧
    String.ltb "img-002.jpg" "img-003.jpg" = true.
Proof.
  destruct (rangeObjects_generated "img-" ".jpg" "http://x/" 3 10 1 3 1)
    as (objects & Hrun & Hsize & Hnames & _ & Hsorted);
    [lia | lia | lia | unfold Fmt.maxInt; lia | vm_compute; lia |].
  exists objects. split_and!; [exact Hrun | exact Hsize | |].
  - exact (proj1 (Hnames 1 ltac:(lia) ltac:(lia))).
  - apply (Hsorted ltac:(lia) 2 3); lia.
Defined.

(** When [end + step] exceeds the largest [int], [i += step] wraps around
    and the loop goes on: one index lies between [start] and [end], yet the
    loop has not finished after three rounds. *)
Lemma range_loop_wraps_around :
  rangeObjects 3 "" "" "" Fmt.maxInt Fmt.maxInt 1 1 = None ∧
  (Fmt.maxInt - Fmt.maxInt) / 1 + 1 = 1.
Proof. split; [vm_compute; reflexivity | reflexivity]. Qed.

End ProxyExamples.

Section SharedDMFacts.
Import SharedDM.
Variable RecvObj : Type.
Implicit Types sdm : sharedDM RecvObj.

Lemma consistent_step sdm sdm' : consistent sdm → step sdm sdm' → consistent sdm'.
Proof.
  unfold consistent. intros Hc Hstep.
  destruct Hstep as [failure sdm | order sdm Horder | xid cb sdm sdm' Hreg | xid sdm].
  - unfold Open. destruct (isOpen sdm) eqn:Hopen; simpl; [by rewrite Hopen|].
    destruct failure as [e|]; simpl.
    + unfold isOpen in *. simpl. by rewrite Hopen.
    + unfold isOpen. simpl. eauto.
  - unfold Close. destruct (isOpen sdm) eqn:Hopen; simpl; [|by rewrite Hopen].
    destruct (0 <? len_rxcbs sdm); simpl; [by rewrite Hopen|]. done.
  - unfold RegRecv in Hreg. destruct (isOpen sdm) eqn:Hopen; simpl in Hreg.
    + destruct (rxcbs sdm) as [cbs|]; simplify_eq/=.
      unfold isOpen in *. simpl. rewrite Hopen. eauto.
    + simplify_eq. by rewrite Hopen.
  - unfold UnregRecv. destruct (isOpen sdm) eqn:Hopen; simpl; [|by rewrite Hopen].
    unfold isOpen in *. simpl. rewrite Hopen.
    destruct Hc as [cbs ->]. simpl. eauto.
Qed.

Lemma reachable_consistent sdm : reachable sdm → consistent sdm.
Proof.
  induction 1 as [|sdm sdm' _ IH Hstep]; [done|].
  by eapply consistent_step.
Qed.

Lemma range_keys_head {V : Type} (m : gmap string V) (order : list string) :
  range_keys_of m order → m ≠ ∅ →
  ∃ xid, head order = Some xid ∧ xid ∈ dom m.
Proof.
  unfold range_keys_of. intros Horder Hne.
  destruct order as [|xid order].
  - symmetry in Horder. apply Permutation_nil_r, fmap_nil_inv in Horder.
    by apply map_to_list_empty_iff in Horder.
  - exists xid. split; [done|].
    assert (xid ∈ (map_to_list m).*1) as Hin by (rewrite <- Horder; left).
    apply list_elem_of_fmap in Hin as ([k v] & -> & Hkv).
    apply elem_of_map_to_list in Hkv. apply elem_of_dom. eauto.
Qed.

(** Claim C7. In every state the shared data mover can reach: if at least
    one receiver is registered, [Close] changes nothing, leaves the transport
    open and returns an error whose text contains the id of a registered
    job; if the transport is open and no receiver is registered, [Close]
    clears the receiver table, closes the data mover, unregisters it and
    returns nil. *)
Theorem Close_refused_while_registered sdm (order : list string) :
  reachable sdm →
  (∀ cbs, rxcbs sdm = Some cbs → cbs ≠ ∅ → range_keys_of cbs order →
     ∃ xid,
       xid ∈ dom cbs ∧
       Close order sdm = (sdm, Some (close_error xid (Z.of_nat (size cbs)))) ∧
       isOpen (Close order sdm).1 = true ∧
       ∃ pre post, close_error xid (Z.of_nat (size cbs)) = pre +:+ xid +:+ post) ∧
  (isOpen sdm = true → len_rxcbs sdm = 0 →
     Close order sdm =
       ({| dm := {| opened := false; regred := false |}; rxcbs := None |}, None)).
Proof.
  intros Hreach. apply reachable_consistent in Hreach. split.
  - intros cbs Hcbs Hne Horder.
    destruct (range_keys_head cbs order Horder Hne) as (xid & Hhead & Hxid).
    assert (0 < Z.of_nat (size cbs)) as Hsize.
    { destruct (decide (size cbs = 0%nat)) as [Hz|]; [|lia].
      by apply map_size_empty_iff in Hz. }
    assert (isOpen sdm = true) as Hopen.
    { unfold consistent, len_rxcbs in Hreach. rewrite Hcbs in Hreach.
      destruct (isOpen sdm); [done|lia]. }
    exists xid. unfold Close, len_rxcbs. rewrite Hopen, Hcbs, Hhead. simpl.
    destruct (Z.ltb_spec 0 (Z.of_nat (size cbs))); [|lia]. simpl.
    split_and!; try done.
    exists ("cannot close " +:+ trname +:+ ": ["),
           (", " +:+ Fmt.sprintf_d (Z.of_nat (size cbs)) +:+ "]").
    reflexivity.
  - intros Hopen Hlen. unfold Close. rewrite Hopen, Hlen. simpl. done.
Qed.

End SharedDMFacts.

Section SharedDMExamples.
Import SharedDM.

Lemma sample_open_reachable : reachable sample_open.
Proof. eapply reachable_step; [apply reachable_init | apply step_Open]. Qed.

Lemma sample_registered_reachable : reachable sample_registered.
Proof.
  eapply reachable_step; [apply sample_open_reachable|].
  by apply (step_RegRecv unit "job-7" tt).
Qed.

(** Claim C7 after [Open] and [RegRecv("job-7")], and after [Open] alone. *)
Lemma Close_refused_while_registered_witness :
  (∃ xid, xid ∈ dom ({[ "job-7" := tt ]} : gmap string unit) ∧
          Close ["job-7"] sample_registered =
            (sample_registered, Some (close_error xid 1))) ∧
  Close [] sample_open =
    ({| dm := {| opened := false; regred := false |}; rxcbs := None |}, None).
Proof.
  split.
  - destruct (proj1 (Close_refused_while_registered unit sample_registered ["job-7"]
                       sample_registered_reachable)
                    {[ "job-7" := tt ]} eq_refl)
      as (xid & Hxid & Hclose & _).
    + intros Hempty. apply (f_equal size) in Hempty. vm_compute in Hempty. discriminate.
    + unfold range_keys_of. vm_compute. reflexivity.
    + exists xid. split; [exact Hxid | exact Hclose].
  - apply (Close_refused_while_registered unit sample_open [] sample_open_reachable);
      reflexivity.
Defined.

End SharedDMExamples.

Section NotifsFacts.
Import Notifs.
Variable UnmarshalStats : string -> option (string * bool * bool).
Variable ActQueryObjects : string.
Variables DlTypeMulti DlTypeCloud DlTypeSingle DlTypeRange : string.
Variable progressInterval : Z.

Local Abbreviation handler := (Notifs.handler UnmarshalStats).
Local Abbreviation handleProgress := (Notifs.handleProgress UnmarshalStats).
Local Abbreviation handleFinished := (Notifs.handleFinished UnmarshalStats).
Local Abbreviation syncStats := (Notifs.syncStats UnmarshalStats progressInterval).
Local Abbreviation syncStats_step := (Notifs.syncStats_step UnmarshalStats progressInterval).
Local Abbreviation housekeep := (Notifs.housekeep UnmarshalStats progressInterval).
Local Abbreviation type_of_tag :=
  (Notifs.type_of_tag ActQueryObjects DlTypeMulti DlTypeCloud DlTypeSingle DlTypeRange).
Local Abbreviation notifListenMsg_UnmarshalJSON :=
  (Notifs.notifListenMsg_UnmarshalJSON ActQueryObjects DlTypeMulti DlTypeCloud
     DlTypeSingle DlTypeRange).
Local Abbreviation UnmarshalJSON :=
  (Notifs.UnmarshalJSON ActQueryObjects DlTypeMulti DlTypeCloud DlTypeSingle DlTypeRange).

(** The mutators leave the uuid alone. *)
Lemma UUID_Callback nl ts : UUID (Callback nl ts) = UUID nl.
Proof. unfold Callback. by destruct (EndTime nl =? 0). Qed.

Lemma UUID_markFinished nl tid srcErr aborted :
  UUID (markFinished nl tid srcErr aborted).1 = UUID nl.
Proof. unfold markFinished. by destruct aborted, srcErr. Qed.

Lemma UUID_syncStats_step now st res :
  UUID (syncStats_step now st res).1 = UUID st.1.
Proof.
  destruct st as [nl finished]. unfold Notifs.syncStats_step. simpl.
  destruct (res_err res).
  - destruct (res_status res =? StatusNotFound); [|done].
    destruct (now - AddedTime nl <? progressInterval); [done|].
    destruct finished; [done|]. apply UUID_markFinished.
  - destruct (UnmarshalStats (res_bytes res)) as [[[stats fin_] aborted]|]; [|done].
    destruct fin_; [|done]. destruct finished; [done|].
    pose proof (UUID_markFinished nl (res_si res) None aborted) as Hm.
    destruct (markFinished nl (res_si res) None aborted). done.
Qed.

Lemma UUID_syncStats_loop now rs st :
  UUID (foldl (syncStats_step now) st rs).1 = UUID st.1.
Proof.
  revert st. induction rs as [|res rs IH]; intros st; [done|].
  simpl. by rewrite IH, UUID_syncStats_step.
Qed.

(** [store] and [done] on the domains of the two tables. *)
Lemma store_dom nl n :
  dom (nls (store nl n)) = dom (nls n) ∧ dom (fin (store nl n)) = dom (fin n).
Proof.
  unfold store. destruct (nls n !! UUID nl) eqn:Hr; simpl.
  - split; [|done]. rewrite dom_insert_L.
    apply (elem_of_dom_2 (D := gset string)) in Hr. set_solver.
  - destruct (fin n !! UUID nl) eqn:Hf; simpl; [|done].
    split; [done|]. rewrite dom_insert_L.
    apply (elem_of_dom_2 (D := gset string)) in Hf. set_solver.
Qed.

Lemma done_dom nl now n :
  (UUID nl ∈ dom (nls n) →
     dom (nls (done nl now n)) = dom (nls n) ∖ {[ UUID nl ]} ∧
     dom (fin (done nl now n)) = {[ UUID nl ]} ∪ dom (fin n)) ∧
  (UUID nl ∉ dom (nls n) → done nl now n = n).
Proof.
  unfold done, del, listeners_del, listeners_add. rewrite UUID_Callback. split.
  - intros [x Hx]%elem_of_dom. rewrite Hx. simpl.
    split; [by rewrite dom_delete_L|].
    destruct (fin n !! UUID nl) eqn:Hf; simpl.
    + apply (elem_of_dom_2 (D := gset string)) in Hf. set_solver.
    + by rewrite dom_insert_L.
  - intros Hx%not_elem_of_dom. by rewrite Hx.
Qed.

Lemma done_exclusive nl now n :
  exclusive n → exclusive (done nl now n) ∧ tracked (done nl now n) = tracked n.
Proof.
  unfold exclusive, tracked. intros Hex.
  destruct (done_dom nl now n) as [Hin Hout].
  destruct (decide (UUID nl ∈ dom (nls n))) as [Hd|Hd].
  - destruct (Hin Hd) as [-> ->]. split; [set_solver|].
    apply set_eq. intros u. rewrite !elem_of_union, elem_of_difference, elem_of_singleton.
    destruct (decide (u = UUID nl)) as [->|]; [tauto|]. tauto.
  - by rewrite (Hout Hd).
Qed.

Lemma store_exclusive nl n :
  exclusive n → exclusive (store nl n) ∧ tracked (store nl n) = tracked n.
Proof.
  unfold exclusive, tracked. destruct (store_dom nl n) as [-> ->]. done.
Qed.

Lemma handler_exclusive rt notifMsg tid now n :
  exclusive n →
  exclusive (handler rt notifMsg tid now n) ∧
  tracked (handler rt notifMsg tid now n) = tracked n.
Proof.
  intros Hex. unfold Notifs.handler.
  destruct (entry (msg_UUID notifMsg) n) as [nl|]; [|done].
  destruct (negb _); [done|]. destruct (HasFinished nl tid); [done|].
  destruct rt.
  - unfold Notifs.handleProgress. by apply store_exclusive.
  - unfold Notifs.handleFinished.
    destruct (match msg_Data notifMsg with Some _ => _ | None => _ end) as [nl1 aborted].
    destruct (markFinished nl1 tid _ aborted) as [nl2 finished].
    destruct (store_exclusive nl2 n Hex) as [Hex1 Htr1].
    destruct finished; [|done].
    destruct (done_exclusive nl2 now _ Hex1) as [Hex2 Htr2].
    split; [done|]. by rewrite Htr2.
Qed.

Lemma syncStats_exclusive nl results now n :
  exclusive n →
  exclusive (syncStats nl results now n) ∧
  tracked (syncStats nl results now n) = tracked n.
Proof.
  intros Hex. unfold Notifs.syncStats. destruct results as [rs|]; [|done].
  destruct (foldl _ _ rs) as [nl1 finished].
  destruct (store_exclusive nl1 n Hex) as [Hex1 Htr1].
  destruct finished; [|done].
  destruct (done_exclusive nl1 now _ Hex1) as [Hex2 Htr2].
  split; [done|]. by rewrite Htr2.
Qed.


Lemma evict_dom (now : Z) (fin_order : list listener) : ∀ acc : listeners,
  dom (foldl (λ acc nl,
                if notifsRemoveMult * notifsHousekeepT <? now - EndTime nl
                then (listeners_del acc nl).1 else acc) acc fin_order) ⊆ dom acc.
Proof.
  induction fin_order as [|nl fin_order IH]; intros acc; [done|].
  simpl. etrans; [apply IH|].
  destruct (_ <? _); [|done]. unfold listeners_del.
  destruct (acc !! UUID nl); simpl; [|done].
  rewrite dom_delete_L. set_solver.
Qed.

Lemma housekeep_exclusive now fin_order run_order results n :
  exclusive n →
  exclusive (housekeep now fin_order run_order results n) ∧
  tracked (housekeep now fin_order run_order results n) ⊆ tracked n ∧
  dom (nls n) ⊆ tracked (housekeep now fin_order run_order results n).
Proof.
  intros Hex. unfold Notifs.housekeep.
  pose proof (evict_dom now fin_order (fin n)) as Hsub.
  set (fin1 := foldl _ (fin n) fin_order) in *.
  set (n1 := {| nls := nls n; fin := fin1; smapVer := smapVer n |}).
  assert (exclusive n1) as Hex1 by (unfold exclusive in *; simpl; set_solver).
  assert (tracked n1 ⊆ tracked n) as Htr1 by (unfold tracked; simpl; set_solver).
  assert (dom (nls n) ⊆ tracked n1) as Hrun by (unfold tracked; simpl; set_solver).
  destruct (bool_decide (size (nls n1) = 0%nat)); [done|].
  assert (∀ acc, exclusive acc →
            exclusive (foldl (λ acc uuid,
                match nls n !! uuid with
                | Some _ =>
                    match entry uuid acc with
                    | Some nl => syncStats nl (results uuid) now acc
                    | None => acc
                    end
                | None => acc
                end) acc run_order) ∧
            tracked (foldl (λ acc uuid,
                match nls n !! uuid with
                | Some _ =>
                    match entry uuid acc with
                    | Some nl => syncStats nl (results uuid) now acc
                    | None => acc
                    end
                | None => acc
                end) acc run_order) = tracked acc) as Hloop.
  { induction run_order as [|uuid run_order IH]; intros acc Hacc; [done|].
    simpl. destruct (nls n !! uuid); [|by apply IH].
    destruct (entry uuid acc) as [nl|]; [|by apply IH].
    destruct (syncStats_exclusive nl (results uuid) now acc Hacc) as [Hex2 Htr2].
    destruct (IH _ Hex2) as [Hex3 Htr3]. split; [done|]. by rewrite Htr3. }
  destruct (Hloop n1 Hex1) as [Hex2 Htr2]. rewrite Htr2. done.
Qed.

Lemma ListenSmapChanged_exclusive started smap orders now n n' :
  exclusive n →
  ListenSmapChanged started smap orders now n = Some n' →
  exclusive n' ∧ tracked n' = tracked n.
Proof.
  intros Hex. unfold ListenSmapChanged.
  destruct (negb started); [by intros [= <-]|].
  destruct (Version smap <=? smapVer n); [by intros [= <-]|].
  destruct (bool_decide (size _ = 0%nat)); [by intros [= <-]|]. simpl.
  set (remnl := map_imap _ (nls n)).
  destruct (bool_decide (map_Forall _ remnl)); [|done]. intros [= <-].
  assert (dom remnl ⊆ dom (nls n)) as Hsub.
  { intros u [x Hx]%elem_of_dom. unfold remnl in Hx.
    rewrite map_lookup_imap in Hx. apply elem_of_dom.
    destruct (nls n !! u); [eauto|done]. }
  unfold exclusive, tracked in *. simpl.
  rewrite dom_difference_L, dom_union_L, dom_fmap_L. split; [set_solver|].
  apply set_eq. intros u.
  rewrite !elem_of_union, elem_of_difference.
  destruct (decide (u ∈ dom remnl)) as [Hu|Hu]; [|tauto].
  pose proof (Hsub u Hu). tauto.
Qed.

Lemma add_exclusive nl now n n' :
  exclusive n → add nl now n = Some n' → UUID nl ∉ dom (fin n) →
  exclusive n' ∧ tracked n' = {[ UUID nl ]} ∪ tracked n.
Proof.
  intros Hex. unfold add, listeners_add.
  destruct (bool_decide (UUID nl = EmptyString)); [done|].
  destruct (nls n !! UUID nl) eqn:Hr; simpl.
  - intros [= <-] _. split; [done|].
    apply (elem_of_dom_2 (D := gset string)) in Hr. unfold tracked. set_solver.
  - intros [= <-] Hfresh. unfold exclusive, tracked in *. simpl.
    rewrite dom_alter_L, dom_insert_L. set_solver.
Qed.

Lemma listeners_merge_dom now (msgs : list listener) : ∀ l : listeners,
  dom (listeners_merge now l msgs) = dom l ∪ list_to_set (UUID <$> msgs).
Proof.
  unfold listeners_merge.
  induction msgs as [|nl msgs IH]; intros l; simpl; [set_solver|].
  rewrite IH. destruct (l !! UUID nl) eqn:Hl.
  - apply (elem_of_dom_2 (D := gset string)) in Hl. set_solver.
  - rewrite dom_alter_L, dom_insert_L. set_solver.
Qed.

Lemma merge_if_nonempty now (l : listeners) (msgs : list listener) :
  (if (0 <? length msgs)%nat then listeners_merge now l msgs else l) =
  listeners_merge now l msgs.
Proof. by destruct msgs. Qed.

Lemma UUID_notifListenMsg_UnmarshalJSON (msgs : list jsonNL) :
  UUID <$> (notifListenMsg_UnmarshalJSON <$> msgs) = (λ j, j_UUID (NL j)) <$> msgs.
Proof. by rewrite <- list_fmap_compose. Qed.

Lemma UnmarshalJSON_dom now t n :
  dom (nls (UnmarshalJSON now t n)) = dom (nls n) ∪ incoming_uuids (Running t) ∧
  dom (fin (UnmarshalJSON now t n)) = dom (fin n) ∪ incoming_uuids (Finished_list t).
Proof.
  unfold Notifs.UnmarshalJSON, incoming_uuids. cbn [nls fin].
  rewrite !merge_if_nonempty, !listeners_merge_dom.
  by rewrite !UUID_notifListenMsg_UnmarshalJSON.
Qed.

Lemma UnmarshalJSON_exclusive now t n :
  exclusive n →
  incoming_uuids (Running t) ## dom (fin n) →
  incoming_uuids (Finished_list t) ## dom (nls n) →
  incoming_uuids (Running t) ## incoming_uuids (Finished_list t) →
  exclusive (UnmarshalJSON now t n) ∧
  tracked (UnmarshalJSON now t n) =
    tracked n ∪ incoming_uuids (Running t) ∪ incoming_uuids (Finished_list t).
Proof.
  intros Hex Hr Hf Hrf. unfold exclusive, tracked in *.
  destruct (UnmarshalJSON_dom now t n) as [-> ->]. set_solver.
Qed.

(** Claim C9, as amended. Starting from tables that share no uuid: the
    finished/progress handler, housekeeping and the cluster-map change
    listener leave the tables without a shared uuid, and lose no listener
    (housekeeping only drops finished ones); [add] does so when the uuid of
    the new listener is not in the finished table, and the deserialization
    merge does so when no incoming running uuid is in the finished table, no
    incoming finished uuid is in the running table, and the two incoming
    lists share no uuid. [add] and [merge] look at one table only. *)
Theorem listener_tables_exclusive (n : notifs) :
  exclusive n →
  (∀ nl now n', add nl now n = Some n' → UUID nl ∉ dom (fin n) →
     exclusive n' ∧ tracked n' = {[ UUID nl ]} ∪ tracked n) ∧
  (∀ rt notifMsg tid now,
     exclusive (handler rt notifMsg tid now n) ∧
     tracked (handler rt notifMsg tid now n) = tracked n) ∧
  (∀ now fin_order run_order results,
     exclusive (housekeep now fin_order run_order results n) ∧
     tracked (housekeep now fin_order run_order results n) ⊆ tracked n ∧
     dom (nls n) ⊆ tracked (housekeep now fin_order run_order results n)) ∧
  (∀ started smap orders now n',
     ListenSmapChanged started smap orders now n = Some n' →
     exclusive n' ∧ tracked n' = tracked n) ∧
  (∀ now t,
     incoming_uuids (Running t) ## dom (fin n) →
     incoming_uuids (Finished_list t) ## dom (nls n) →
     incoming_uuids (Running t) ## incoming_uuids (Finished_list t) →
     exclusive (UnmarshalJSON now t n) ∧
     tracked (UnmarshalJSON now t n) =
       tracked n ∪ incoming_uuids (Running t) ∪ incoming_uuids (Finished_list t)).
Proof.
  intros Hex. split_and!.
  - intros nl now n'. by apply add_exclusive.
  - intros rt notifMsg tid now. by apply handler_exclusive.
  - intros now fin_order run_order results. by apply housekeep_exclusive.
  - intros started smap orders now n'. by apply ListenSmapChanged_exclusive.
  - intros now t. by apply UnmarshalJSON_exclusive.
Qed.


Local Abbreviation MarshalJSON := Notifs.MarshalJSON.

(** What [listeners.merge] leaves under a uuid: the entry that was there, or
    else the first incoming listener with that uuid, its added time set. *)
Lemma listeners_merge_lookup now (msgs : list listener) : ∀ (l : listeners) (u : string),
  listeners_merge now l msgs !! u =
    match l !! u with
    | Some nl => Some nl
    | None => SetAddedTime now <$> head (filter (λ nl, UUID nl = u) msgs)
    end.
Proof.
  unfold listeners_merge.
  induction msgs as [|nl msgs IH]; intros l u; simpl.
  - by destruct (l !! u).
  - rewrite IH, filter_cons. destruct (decide (UUID nl = u)) as [<-|Hne].
    + destruct (l !! UUID nl) eqn:Hl; [by rewrite Hl|].
      by rewrite lookup_alter_eq, lookup_insert_eq.
    + destruct (l !! UUID nl) eqn:Hl; [done|].
      by rewrite lookup_alter_ne, lookup_insert_ne.
Qed.

Lemma range_of_elem {V : Type} (m : gmap string V) (order : list V) (x : V) :
  range_of m order → (x ∈ order ↔ ∃ k, m !! k = Some x).
Proof.
  unfold range_of. intros ->. rewrite list_elem_of_fmap. split.
  - intros ([k v] & -> & Hkv%elem_of_map_to_list). eauto.
  - intros [k Hk]. exists (k, x). split; [done|]. by apply elem_of_map_to_list.
Qed.

Lemma head_filter_unique {A : Type} (P : A → Prop) `{∀ x, Decision (P x)}
    (l : list A) (a : A) :
  a ∈ l → P a → (∀ x, x ∈ l → P x → x = a) → head (filter P l) = Some a.
Proof.
  intros Hin Ha Huniq.
  destruct (filter P l) as [|x xs] eqn:Hf.
  - assert (a ∈ filter P l) as Hin' by by apply list_elem_of_filter.
    rewrite Hf in Hin'. by apply elem_of_nil in Hin'.
  - simpl. f_equal.
    assert (x ∈ filter P l) as Hx by (rewrite Hf; left).
    apply list_elem_of_filter in Hx as [HPx Hx]. by apply Huniq.
Qed.

(** One table through [MarshalJSON] and [UnmarshalJSON]. *)
Lemma table_round_trip now (l : listeners) (order : list listener) :
  keyed l → range_of l order →
  let l' := listeners_merge now ∅
              (notifListenMsg_UnmarshalJSON <$> (notifListenMsg_MarshalJSON <$> order)) in
  dom l' = dom l ∧
  ∀ u nl, l !! u = Some nl →
    ∃ nl', l' !! u = Some nl' ∧ UUID nl' = u ∧ Kind nl' = Kind nl ∧
           go_type nl' = type_of_tag (Kind nl) ∧ AddedTime nl' = now.
Proof.
  intros Hkeyed Horder l'.
  assert (∀ u nl, l !! u = Some nl →
            l' !! u = Some (SetAddedTime now
                              (notifListenMsg_UnmarshalJSON (notifListenMsg_MarshalJSON nl))))
    as Hlook.
  { intros u nl Hnl. unfold l'. rewrite listeners_merge_lookup, lookup_empty.
    rewrite <- list_fmap_compose.
    erewrite head_filter_unique; [done| | |].
    - apply list_elem_of_fmap. exists nl. split; [done|].
      apply (range_of_elem l); eauto.
    - simpl. by apply Hkeyed in Hnl.
    - intros x (y & -> & Hy)%list_elem_of_fmap Hu. simpl in Hu.
      apply (range_of_elem l order y Horder) in Hy as [k Hk].
      pose proof (Hkeyed k y Hk) as Hky. simpl in Hky.
      assert (k = u) as -> by congruence. by simplify_eq. }
  split.
  - apply set_eq. intros u. rewrite !elem_of_dom. split.
    + intros [x Hx]. unfold l' in Hx.
      rewrite listeners_merge_lookup, lookup_empty in Hx.
      destruct (head _) as [y|] eqn:Hhead; [|done].
      apply head_Some_elem_of, list_elem_of_filter in Hhead as [Hu Hy].
      rewrite <- list_fmap_compose in Hy.
      apply list_elem_of_fmap in Hy as (z & -> & Hz).
      apply (range_of_elem l order z Horder) in Hz as [k Hk].
      pose proof (Hkeyed k z Hk) as Hkz. simpl in *. exists z. congruence.
    + intros [nl Hnl]. rewrite (Hlook u nl Hnl). eauto.
  - intros u nl Hnl. eexists. split; [by apply Hlook|].
    simpl. split_and!; try done. by apply Hkeyed in Hnl.
Qed.

(** The variant [notifListenMsg.UnmarshalJSON] allocates, kind by kind. *)
Lemma type_of_tag_cases (t : string) :
  (t = ActQueryObjects → type_of_tag t = NotifListenerQuery) ∧
  (t ≠ ActQueryObjects →
   t = DlTypeMulti ∨ t = DlTypeCloud ∨ t = DlTypeSingle ∨ t = DlTypeRange →
   type_of_tag t = NotifDownloadListerner) ∧
  (t ≠ ActQueryObjects →
   t ≠ DlTypeMulti → t ≠ DlTypeCloud → t ≠ DlTypeSingle → t ≠ DlTypeRange →
   type_of_tag t = NotifXactListener).
Proof.
  unfold Notifs.type_of_tag, isDLType. split_and!.
  - intros ->. by rewrite bool_decide_eq_true_2.
  - intros Hq Hdl. rewrite bool_decide_eq_false_2 by done.
    destruct Hdl as [-> | [-> | [-> | ->]]];
      repeat case_bool_decide; simpl; congruence.
  - intros Hq Hm Hc Hs Hr. by rewrite !bool_decide_eq_false_2.
Qed.

(** Claim C8. Serializing the two tables of a fabric (each listener filed
    under its own uuid) and deserializing the result into a fresh fabric
    gives tables with the same uuids; each entry has the kind of the
    original and the time of the merge as its added time, and is
    reconstructed as the variant its kind selects: the query listener for
    the kind [ActQueryObjects], the download listener for any other kind
    that is one of the four download types, and the xaction listener for
    every other kind. In a merge, a uuid already present keeps its
    entry (the incoming listener is dropped), and an absent one gets the
    first incoming listener with that uuid, its added time set to the time
    of the merge. *)
Theorem notifs_round_trip_and_merge (now : Z) (n : notifs)
    (run_order fin_order : list listener) :
  keyed (nls n) → keyed (fin n) →
  range_of (nls n) run_order → range_of (fin n) fin_order →
  (let n' := UnmarshalJSON now (MarshalJSON run_order fin_order) notifs_init in
   dom (nls n') = dom (nls n) ∧ dom (fin n') = dom (fin n) ∧
   (∀ u nl, nls n !! u = Some nl →
      ∃ nl', nls n' !! u = Some nl' ∧ UUID nl' = u ∧ Kind nl' = Kind nl ∧
             (Kind nl = ActQueryObjects → go_type nl' = NotifListenerQuery) ∧
             (Kind nl ≠ ActQueryObjects →
              Kind nl = DlTypeMulti ∨ Kind nl = DlTypeCloud ∨
              Kind nl = DlTypeSingle ∨ Kind nl = DlTypeRange →
              go_type nl' = NotifDownloadListerner) ∧
             (Kind nl ≠ ActQueryObjects →
              Kind nl ≠ DlTypeMulti → Kind nl ≠ DlTypeCloud →
              Kind nl ≠ DlTypeSingle → Kind nl ≠ DlTypeRange →
              go_type nl' = NotifXactListener) ∧
             AddedTime nl' = now) ∧
   (∀ u nl, fin n !! u = Some nl →
      ∃ nl', fin n' !! u = Some nl' ∧ UUID nl' = u ∧ Kind nl' = Kind nl ∧
             (Kind nl = ActQueryObjects → go_type nl' = NotifListenerQuery) ∧
             (Kind nl ≠ ActQueryObjects →
              Kind nl = DlTypeMulti ∨ Kind nl = DlTypeCloud ∨
              Kind nl = DlTypeSingle ∨ Kind nl = DlTypeRange →
              go_type nl' = NotifDownloadListerner) ∧
             (Kind nl ≠ ActQueryObjects →
              Kind nl ≠ DlTypeMulti → Kind nl ≠ DlTypeCloud →
              Kind nl ≠ DlTypeSingle → Kind nl ≠ DlTypeRange →
              go_type nl' = NotifXactListener) ∧
             AddedTime nl' = now)) ∧
  (∀ (l : listeners) (msgs : list listener) (u : string),
     (∀ nl, l !! u = Some nl → listeners_merge now l msgs !! u = Some nl) ∧
     (l !! u = None →
        listeners_merge now l msgs !! u =
          SetAddedTime now <$> head (filter (λ nl, UUID nl = u) msgs))).
Proof.
  intros Hkr Hkf Hor Hof. split.
  - intros n'. unfold n', Notifs.UnmarshalJSON, Notifs.MarshalJSON. cbn [nls fin Running Finished_list notifs_init].
    rewrite !merge_if_nonempty.
    destruct (table_round_trip now (nls n) run_order Hkr Hor) as [Hd1 Hl1].
    destruct (table_round_trip now (fin n) fin_order Hkf Hof) as [Hd2 Hl2].
    split_and!; [done|done| |].
    + intros u nl Hnl. destruct (Hl1 u nl Hnl) as (nl' & Hnl' & Hu & Hk & Hty & Ht).
      destruct (type_of_tag_cases (Kind nl)) as (Hq & Hdl & Hx).
      exists nl'. rewrite Hty. by split_and!.
    + intros u nl Hnl. destruct (Hl2 u nl Hnl) as (nl' & Hnl' & Hu & Hk & Hty & Ht).
      destruct (type_of_tag_cases (Kind nl)) as (Hq & Hdl & Hx).
      exists nl'. rewrite Hty. by split_and!.
  - intros l msgs u. rewrite listeners_merge_lookup. split.
    + by intros nl ->.
    + by intros ->.
Qed.

End NotifsFacts.

Section NotifsExamples.
Import Notifs.

(** Counterexample to claim C9 as stated: a listener is added, its only
    notifier reports finished (the listener moves to the finished table),
    and a listener with the same uuid is added again: the uuid is then in
    both tables. *)
Lemma add_after_finish_in_both_tables :
  let nl := sample_listener "job-1" "single" {[ "t1" ]} in
  ∃ n1 n3,
    add nl 10 notifs_init = Some n1 ∧
    let n2 := handler sample_UnmarshalStats Finished_ (sample_finished_msg "job-1")
                "t1" 20 n1 in
    exclusive n2 ∧ dom (nls n2) = ∅ ∧ dom (fin n2) = {[ "job-1" ]} ∧
    add nl 30 n2 = Some n3 ∧
    "job-1" ∈ dom (nls n3) ∧ "job-1" ∈ dom (fin n3) ∧ ¬ exclusive n3.
Proof.
  intros nl. eexists _, _. split; [vm_compute; reflexivity|].
  intros n2.
  assert (dom (nls n2) = ∅) as Hr by (vm_compute; reflexivity).
  assert (dom (fin n2) = {[ "job-1" ]}) as Hf by (vm_compute; reflexivity).
  split_and!; [unfold exclusive; rewrite Hr; set_solver | done | done | | | |].
  - vm_compute. reflexivity.
  - apply elem_of_dom. vm_compute. eauto.
  - apply elem_of_dom. vm_compute. eauto.
  - unfold exclusive. intros Hdis. apply (Hdis "job-1"); apply elem_of_dom; vm_compute; eauto.
Qed.

Lemma sample_notifs_exclusive : exclusive sample_notifs.
Proof.
  unfold exclusive, sample_notifs. simpl. rewrite !dom_singleton_L.
  intros u ->%elem_of_singleton Hu%elem_of_singleton. discriminate.
Qed.

(** Claim C9 at a finished notification for the running listener of the
    sample fabric. *)
Lemma listener_tables_exclusive_witness :
  exclusive (handler sample_UnmarshalStats Finished_ (sample_finished_msg "job-1")
               "t1" 20 sample_notifs) ∧
  tracked (handler sample_UnmarshalStats Finished_ (sample_finished_msg "job-1")
             "t1" 20 sample_notifs) = tracked sample_notifs.
Proof.
  exact (proj1 (proj2 (listener_tables_exclusive sample_UnmarshalStats
                         "query" "multi" "cloud" "single" "range" 10
                         sample_notifs sample_notifs_exclusive))
               Finished_ (sample_finished_msg "job-1") "t1" 20).
Defined.

(** Claim C8 at the sample fabric. *)
Lemma notifs_round_trip_and_merge_witness :
  let run_order := [sample_listener "job-1" "single" {[ "t1" ]}] in
  let fin_order := [sample_listener "job-2" "query" {[ "t1"; "t2" ]}] in
  let n' := UnmarshalJSON "query" "multi" "cloud" "single" "range" 50
              (MarshalJSON run_order fin_order) notifs_init in
  dom (nls n') = dom (nls sample_notifs) ∧ dom (fin n') = dom (fin sample_notifs) ∧
  ∃ nl', nls n' !! "job-1" = Some nl' ∧ UUID nl' = "job-1" ∧ Kind nl' = "single" ∧
         go_type nl' = NotifDownloadListerner ∧ AddedTime nl' = 50.
Proof.
  intros run_order fin_order n'.
  destruct (proj1 (notifs_round_trip_and_merge "query" "multi" "cloud" "single" "range"
                     50 sample_notifs run_order fin_order
                     ltac:(apply map_Forall_singleton; reflexivity)
                     ltac:(apply map_Forall_singleton; reflexivity)
                     ltac:(unfold range_of; vm_compute; reflexivity)
                     ltac:(unfold range_of; vm_compute; reflexivity)))
    as (Hd1 & Hd2 & Hrun & _).
  split_and!; [exact Hd1 | exact Hd2 |].
  destruct (Hrun "job-1" (sample_listener "job-1" "single" {[ "t1" ]}) eq_refl)
    as (nl' & Hnl' & Hu & Hk & _ & Hdl & _ & Ht).
  exists nl'. split_and!; [exact Hnl' | exact Hu | exact Hk | | exact Ht].
  apply Hdl; [discriminate|]. right. right. left. reflexivity.
Defined.

End NotifsExamples.

Section HrwProxyFacts.
Import Hrw.

(** The loops of [HrwHash2T], [HrwProxy], [HrwIC] and [HrwTargetTask] all
    have the same shape: skip some entries, keep (the node of) the last entry
    whose score is at least the running maximum. *)
Lemma max_loop {A B : Type} (skip : A → bool) (score : A → N) (val : A → B)
    (step : N * option B → A → N * option B) :
  (∀ st x, step st x =
     if skip x then st
     else if (st.1 <=? score x)%N then (score x, Some (val x)) else st) →
  ∀ l,
    match (foldl step (0%N, None) l).2 with
    | None => ∀ b, b ∈ l → skip b = true
    | Some y =>
        ∃ x, y = val x ∧ x ∈ l ∧ skip x = false ∧
        ∀ b, b ∈ l → skip b = false → (score b <= score x)%N
    end.
Proof.
  intros Hstep l.
  cut (match (foldl step (0%N, None) l).2 with
       | None => (foldl step (0%N, None) l).1 = 0%N ∧ ∀ b, b ∈ l → skip b = true
       | Some y =>
           ∃ x, (foldl step (0%N, None) l).1 = score x ∧
           y = val x ∧ x ∈ l ∧ skip x = false ∧
           ∀ b, b ∈ l → skip b = false → (score b <= score x)%N
       end).
  { destruct ((foldl step (0%N, None) l).2); [|tauto].
    intros (x & _ & ?). by exists x. }
  induction l as [|x l IH] using rev_ind.
  - simpl. split; [done|]. intros b Hb. by apply elem_of_nil in Hb.
  - rewrite foldl_app. simpl. rewrite Hstep.
    destruct (foldl step (0%N, None) l) as [mx cur]. simpl in *.
    destruct (skip x) eqn:Hskip; simpl.
    + destruct cur as [y|].
      * destruct IH as (x0 & Hmx & Hy & Hx0 & Hsk & Hmax).
        exists x0. split_and!; [done|done| |done|].
        -- apply elem_of_app. by left.
        -- intros b Hb Hb'. apply elem_of_app in Hb as [Hb|Hb]; [by apply Hmax|].
           apply list_elem_of_singleton in Hb as ->. congruence.
      * destruct IH as [Hmx Hall]. split; [done|].
        intros b Hb. apply elem_of_app in Hb as [Hb|Hb]; [by apply Hall|].
        by apply list_elem_of_singleton in Hb as ->.
    + destruct (mx <=? score x)%N eqn:Hle; simpl.
      * apply N.leb_le in Hle. exists x. split_and!; [done|done| |done|].
        -- apply elem_of_app. right. by apply list_elem_of_singleton.
        -- intros b Hb Hb'. apply elem_of_app in Hb as [Hb|Hb].
           ++ destruct cur as [y|].
              ** destruct IH as (x0 & Hmx & _ & _ & _ & Hmax).
                 specialize (Hmax b Hb Hb'). lia.
              ** destruct IH as [_ Hall]. specialize (Hall b Hb). congruence.
           ++ apply list_elem_of_singleton in Hb as ->. lia.
      * apply N.leb_gt in Hle. destruct cur as [y|].
        -- destruct IH as (x0 & Hmx & Hy & Hx0 & Hsk & Hmax).
           exists x0. split_and!; [done|done| |done|].
           ++ apply elem_of_app. by left.
           ++ intros b Hb Hb'. apply elem_of_app in Hb as [Hb|Hb]; [by apply Hmax|].
              apply list_elem_of_singleton in Hb as ->. lia.
        -- destruct IH as [Hmx _]. lia.
Qed.

(** The winner of such a loop does not depend on the visiting order when the
    entries that take part have pairwise distinct scores. *)
Lemma max_loop_perm {A B : Type} (skip : A → bool) (score : A → N) (val : A → B)
    (step : N * option B → A → N * option B) (l1 l2 : list A) :
  (∀ st x, step st x =
     if skip x then st
     else if (st.1 <=? score x)%N then (score x, Some (val x)) else st) →
  l1 ≡ₚ l2 →
  NoDup (score <$> filter (λ x, skip x = false) l1) →
  (foldl step (0%N, None) l1).2 = (foldl step (0%N, None) l2).2.
Proof.
  intros Hstep Hperm Hnd.
  pose proof (max_loop skip score val step Hstep l1) as H1.
  pose proof (max_loop skip score val step Hstep l2) as H2.
  destruct ((foldl step (0%N, None) l1).2) as [x|],
           ((foldl step (0%N, None) l2).2) as [y|]; [|exfalso..|done].
  - destruct H1 as (x0 & -> & Hx & Hsx & Hmx), H2 as (y0 & -> & Hy & Hsy & Hmy).
    do 2 f_equal.
    apply (NoDup_fmap_eq score _ _ _ Hnd).
    + by apply list_elem_of_filter.
    + apply list_elem_of_filter. by rewrite Hperm.
    + apply N.le_antisymm.
      * apply Hmy; [by rewrite <- Hperm|done].
      * apply Hmx; [by rewrite Hperm|done].
  - destruct H1 as (x0 & _ & Hx & Hsx & _). rewrite Hperm in Hx.
    specialize (H2 x0 Hx). congruence.
  - destruct H2 as (y0 & _ & Hy & Hsy & _). rewrite <- Hperm in Hy.
    specialize (H1 y0 Hy). congruence.
Qed.

Lemma HrwProxy_step_shape idToSkip st entry :
  HrwProxy_step idToSkip st entry =
  if bool_decide (entry.1 = idToSkip) || NonElectable (Flags entry.2)
     || InMaintOrDecomm entry.2
  then st
  else if (st.1 <=? Digest entry.2)%N then (Digest entry.2, Some entry.2) else st.
Proof.
  destruct entry as [pid psi]. unfold HrwProxy_step. simpl.
  by destruct (bool_decide (pid = idToSkip)), (NonElectable (Flags psi)),
              (InMaintOrDecomm psi).
Qed.

(** X1. [HrwProxy] returns a proxy of the map that is stored under a key
    other than [idToSkip], is electable and is neither in maintenance nor
    being decommissioned, with the largest id digest among such proxies; when
    there is none it fails with the no-nodes error that carries the size of
    the map; it never panics. *)
Theorem HrwProxy_highest_digest pmap_order idToSkip :
  (∀ pi, HrwProxy pmap_order idToSkip = Ok pi →
     (∃ pid, (pid, pi) ∈ pmap_order ∧ pid ≠ idToSkip) ∧
     NonElectable (Flags pi) = false ∧ InMaintOrDecomm pi = false ∧
     ∀ qid qsi, (qid, qsi) ∈ pmap_order → qid ≠ idToSkip →
       NonElectable (Flags qsi) = false → InMaintOrDecomm qsi = false →
       (Digest qsi <= Digest pi)%N) ∧
  (∀ e, HrwProxy pmap_order idToSkip = Err e →
     e = ErrNoNodes false (Z.of_nat (length pmap_order)) ∧
     ∀ qid qsi, (qid, qsi) ∈ pmap_order →
       qid = idToSkip ∨ NonElectable (Flags qsi) = true ∨ InMaintOrDecomm qsi = true) ∧
  HrwProxy pmap_order idToSkip ≠ Panic.
Proof.
  pose proof (max_loop _ _ snd (HrwProxy_step idToSkip)
                (HrwProxy_step_shape idToSkip) pmap_order) as H.
  unfold Hrw.HrwProxy.
  destruct ((foldl (HrwProxy_step idToSkip) (0%N, None) pmap_order).2) as [pi0|].
  - destruct H as ([pid pi] & -> & Hx & Hsk & Hmax). simpl in *.
    apply orb_false_iff in Hsk as [Hsk Hm]. apply orb_false_iff in Hsk as [Hid He].
    apply bool_decide_eq_false in Hid.
    split_and!; [|done|done].
    intros ? [= <-]. split_and!; [by exists pid|done|done|].
    intros qid qsi Hq Hne Hel Hmq. apply (Hmax (qid, qsi) Hq). simpl.
    rewrite Hel, Hmq. by rewrite bool_decide_eq_false_2.
  - split_and!; [done| |done].
    intros e [= <-]. split; [done|].
    intros qid qsi Hq. specialize (H (qid, qsi) Hq). simpl in H.
    apply orb_true_iff in H as [H|H]; [|by right; right].
    apply orb_true_iff in H as [H|H]; [|by right; left].
    left. by apply bool_decide_eq_true in H.
Qed.

(** X2. [HrwProxy] picks the same proxy whatever order the [range] over
    [Pmap] visits its entries in, provided the candidates (stored under a key
    other than [idToSkip], electable, not in maintenance) have pairwise
    distinct id digests. *)
Theorem HrwProxy_independent_of_visiting_order (pmap : NodeMap) o1 o2 idToSkip :
  range_items_of pmap o1 → range_items_of pmap o2 →
  NoDup (Digest <$>
    (filter (λ entry : string * Snode,
       entry.1 ≠ idToSkip ∧ NonElectable (Flags entry.2) = false ∧
       InMaintOrDecomm entry.2 = false) o1).*2) →
  HrwProxy o1 idToSkip = HrwProxy o2 idToSkip.
Proof.
  intros Ho1 Ho2 Hnd.
  assert (o1 ≡ₚ o2) as Hperm by (unfold range_items_of in *; by rewrite Ho1, Ho2).
  unfold Hrw.HrwProxy.
  rewrite (max_loop_perm _ _ snd (HrwProxy_step idToSkip) o1 o2
             (HrwProxy_step_shape idToSkip) Hperm).
  - by rewrite (Permutation_length Hperm).
  - rewrite <- list_fmap_compose in Hnd.
    erewrite list_filter_iff; [exact Hnd|].
    intros [pid psi]. simpl. 
    rewrite !orb_false_iff, bool_decide_eq_false. tauto.
Qed.

End HrwProxyFacts.

Section HrwSelection.
Import Hrw.

Variable Hash : N -> N.
Variable Checksum64S : string -> N -> N.
Variable MLCG32 : N.

Local Abbreviation weight := (Hrw.weight Hash).
Local Abbreviation HrwHash2T := (Hrw.HrwHash2T Hash).
Local Abbreviation HrwName2T := (Hrw.HrwName2T Hash Checksum64S MLCG32).
Local Abbreviation HrwTargetTask := (Hrw.HrwTargetTask Hash Checksum64S MLCG32).
Local Abbreviation HrwIC := (Hrw.HrwIC Hash Checksum64S MLCG32).
Local Abbreviation HrwTargetList := (Hrw.HrwTargetList Hash Checksum64S MLCG32).

Lemma HrwHash2T_step_shape digest skipMaint st tsi :
  HrwHash2T_step Hash digest skipMaint st tsi =
  if skipMaint && InMaintOrDecomm tsi then st
  else if (st.1 <=? weight digest tsi)%N then (weight digest tsi, Some tsi) else st.
Proof. reflexivity. Qed.

(** X3. [HrwHash2T] returns a target of the map that takes part in the
    placement (with [skipMaint], one that is neither in maintenance nor being
    decommissioned) and whose weight is the largest among the targets that
    take part; it fails exactly when no target takes part, with the
    no-nodes error that carries the size of the map; it never panics. *)
Theorem HrwHash2T_heaviest_participant order digest skipMaint :
  (∀ si, HrwHash2T order digest skipMaint = Ok si →
     si ∈ order ∧
     (skipMaint = true → InMaintOrDecomm si = false) ∧
     ∀ b, b ∈ order → (skipMaint = true → InMaintOrDecomm b = false) →
          (weight digest b <= weight digest si)%N) ∧
  ((∃ e, HrwHash2T order digest skipMaint = Err e) ↔
     ∀ b, b ∈ order → skipMaint = true ∧ InMaintOrDecomm b = true) ∧
  (∀ e, HrwHash2T order digest skipMaint = Err e →
     e = ErrNoNodes true (Z.of_nat (length order))) ∧
  HrwHash2T order digest skipMaint ≠ Panic.
Proof.
  pose proof (max_loop (λ tsi, skipMaint && InMaintOrDecomm tsi) (weight digest) id
                (HrwHash2T_step Hash digest skipMaint)
                (HrwHash2T_step_shape digest skipMaint) order) as H.
  unfold Hrw.HrwHash2T.
  destruct ((foldl (HrwHash2T_step Hash digest skipMaint) (0%N, None) order).2) as [x|].
  - destruct H as (x0 & -> & Hx & Hsk & Hmax). simpl in *. split_and!; [| |done|done].
    + intros si [= <-]. split_and!; [done| |].
      * intros ->. done.
      * intros b Hb Hel. apply Hmax; [done|].
        destruct skipMaint; [|done]. by rewrite Hel.
    + split; [by intros [e ?]|].
      intros Hall. destruct (Hall x0 Hx) as [-> Hm]. simpl in Hsk. congruence.
  - split_and!; [done| |by intros e [= <-]|done].
    split; [|by eauto].
    intros _ b Hb. specialize (H b Hb). by apply andb_true_iff in H.
Qed.


Lemma HrwIC_step_shape digest st psi :
  HrwIC_step Hash digest st psi =
  if InMaintOrDecomm psi || negb (IsIC psi) then st
  else if (st.1 <=? weight digest psi)%N then (weight digest psi, Some psi) else st.
Proof. reflexivity. Qed.

(** X5. [HrwIC] returns a proxy of the map that is an IC member and is
    neither in maintenance nor being decommissioned, of the largest weight for
    the given uuid among such members; it reports an empty IC exactly when the
    map has no such member; it never panics. *)
Theorem HrwIC_heaviest_member pmap_order uuid :
  let digest := Checksum64S uuid MLCG32 in
  (∀ pi, HrwIC pmap_order uuid = Ok pi →
     pi ∈ pmap_order ∧ IsIC pi = true ∧ InMaintOrDecomm pi = false ∧
     ∀ b, b ∈ pmap_order → IsIC b = true → InMaintOrDecomm b = false →
          (weight digest b <= weight digest pi)%N) ∧
  (HrwIC pmap_order uuid = Err ErrEmptyIC ↔
     ∀ b, b ∈ pmap_order → IsIC b = false ∨ InMaintOrDecomm b = true) ∧
  HrwIC pmap_order uuid ≠ Panic.
Proof.
  intros digest.
  pose proof (max_loop _ _ id (HrwIC_step Hash digest)
                (HrwIC_step_shape digest) pmap_order) as H.
  unfold Hrw.HrwIC. fold digest.
  destruct ((foldl (HrwIC_step Hash digest) (0%N, None) pmap_order).2) as [x|].
  - destruct H as (x0 & -> & Hx & Hsk & Hmax). simpl in *.
    apply orb_false_iff in Hsk as [Hm Hic]. apply negb_false_iff in Hic.
    split_and!; [| |done].
    + intros ? [= <-]. split_and!; [done..|].
      intros b Hb Hbic Hbm. apply Hmax; [done|]. by rewrite Hbm, Hbic.
    + split; [done|]. intros Hall. destruct (Hall x0 Hx); congruence.
  - split_and!; [done| |done]. split; [|done].
    intros _ b Hb. specialize (H b Hb).
    apply orb_true_iff in H as [H|H]; [by right|left]. by apply negb_true_iff in H.
Qed.

End HrwSelection.

Section HrwListFacts.
Import Hrw.

Variable Hash : N -> N.
Variable Checksum64S : string -> N -> N.
Variable MLCG32 : N.

Local Abbreviation weight := (Hrw.weight Hash).
Local Abbreviation heavier := (Hrw.heavier Hash).
Local Abbreviation hrwList_inv := (Hrw.hrwList_inv Hash).
Local Abbreviation HrwTargetList := (Hrw.HrwTargetList Hash Checksum64S MLCG32).

Lemma active_targets_cons tsi order :
  active_targets (tsi :: order) =
  if InMaintOrDecomm tsi then active_targets order else tsi :: active_targets order.
Proof.
  unfold active_targets, eligible. rewrite filter_cons. simpl.
  destruct (InMaintOrDecomm tsi); simpl; done.
Qed.

(** With [count = 0] the first target that is not in maintenance makes
    [hrwList.add] read [hs[-1]]. *)
Lemma HrwTargetList_loop_zero digest order :
  foldl (HrwTargetList_step Hash digest) (newHrwList 0) order =
  match active_targets order with
  | [] => Some {| hs := []; sis := []; n := 0 |}
  | _ :: _ => None
  end.
Proof.
  change (newHrwList 0) with (Some {| hs := []; sis := []; n := 0 |}).
  induction order as [|tsi order IH]; [done|].
  rewrite active_targets_cons. cbn [foldl]. unfold HrwTargetList_step at 2. simpl.
  destruct (InMaintOrDecomm tsi) eqn:Hm.
  - apply IH.
  - apply HrwTargetList_loop_panic.
Qed.

(** X6. What a successful [HrwTargetList] returns: [min count a] targets,
    where [a] is the number of targets of the map that are neither in
    maintenance nor being decommissioned; each returned target is such a
    target of the map; and every such target that was left out weighs no more
    than any returned one (targets are left out only when [count] are
    returned). *)
Theorem HrwTargetList_keeps_heaviest order uname count sis :
  HrwTargetList order uname count = Ok sis →
  Z.of_nat (length sis) = Z.min count (Z.of_nat (length (active_targets order))) ∧
  (∀ s, s ∈ sis → s ∈ order ∧ InMaintOrDecomm s = false) ∧
  ∃ dropped,
    active_targets order ≡ₚ sis ++ dropped ∧
    (dropped ≠ [] → Z.of_nat (length sis) = count) ∧
    ∀ d s, d ∈ dropped → s ∈ sis →
      (weight (Checksum64S uname MLCG32) d <= weight (Checksum64S uname MLCG32) s)%N.
Proof.
  unfold Hrw.HrwTargetList. intros Hrun.
  destruct (CountTargets order <? count) eqn:Hcnt; [done|].
  set (digest := Checksum64S uname MLCG32) in *.
  destruct (foldl (HrwTargetList_step Hash digest) (newHrwList count) order)
    as [hl|] eqn:Hloop; [|done].
  destruct (negb (count =? CountTargets order) &&
            (Z.of_nat (length (get hl)) <? count)); [done|].
  injection Hrun as <-.
  assert (0 <= count) as Hnn.
  { destruct (Z.ltb_spec count 0) as [Hneg|]; [|done].
    unfold newHrwList in Hloop. rewrite (proj2 (Z.ltb_lt _ _) Hneg) in Hloop.
    by rewrite HrwTargetList_loop_panic in Hloop. }
  destruct (HrwTargetList_loop Hash digest count order Hnn) as [_ Hinv].
  destruct (Hinv hl Hloop) as (Hn & dropped & Hhl).
  pose proof (hrwList_inv_length Hash _ _ _ _ Hhl) as Hlen.
  destruct Hhl as [Hperm Hfull _ Hdrop _ _].
  unfold get. split_and!.
  - by rewrite Hlen, Hn.
  - intros s Hs.
    assert (s ∈ active_targets order) as Hin.
    { rewrite Hperm. apply elem_of_app. by left. }
    apply list_elem_of_filter in Hin as [Hel Hin]. split; [done|].
    unfold eligible in Hel. simpl in Hel. by apply negb_true_iff in Hel.
  - exists dropped. split_and!; [done| |].
    + intros Hne. rewrite <- Hn. by apply Hfull.
    + intros d s Hd Hs. by apply (Hdrop d s).
Qed.

#[local] Instance strict_weight_antisymm digest :
  AntiSymm eq (λ a b : Snode, (weight digest b < weight digest a)%N).
Proof. intros a b H1 H2. lia. Qed.

(** Two runs of the collecting loop over the same targets, each keeping the
    heaviest [count], keep the same list when weights are pairwise distinct. *)
Lemma hrwList_inv_unique digest seen1 seen2 hl1 hl2 d1 d2 :
  hrwList_inv digest seen1 hl1 d1 →
  hrwList_inv digest seen2 hl2 d2 →
  seen1 ≡ₚ seen2 → n hl1 = n hl2 →
  NoDup (weight digest <$> seen1) →
  sis hl1 = sis hl2.
Proof.
  intros H1 H2 Hperm Hn Hnd.
  pose proof (hrwList_inv_length Hash _ _ _ _ H1) as Hlen1.
  pose proof (hrwList_inv_length Hash _ _ _ _ H2) as Hlen2.
  assert (length (sis hl1) = length (sis hl2)) as Hlen.
  { rewrite (Permutation_length Hperm), Hn in Hlen1. lia. }
  destruct H1 as [Hp1 _ _ Hdrop1 _ Hs1], H2 as [Hp2 Hfull2 _ Hdrop2 _ Hs2].
  assert (NoDup (weight digest <$> seen2)) as Hnd2 by by rewrite <- Hperm.
  assert (NoDup (weight digest <$> sis hl1)) as Hnd_s1.
  { rewrite Hp1, fmap_app in Hnd. by apply NoDup_app in Hnd as (? & _ & _). }
  assert (NoDup (weight digest <$> sis hl2)) as Hnd_s2.
  { rewrite Hp2, fmap_app in Hnd2. by apply NoDup_app in Hnd2 as (? & _ & _). }
  assert (NoDup (sis hl2 ++ d2)) as Hnd_l2.
  { rewrite <- Hp2. by apply (NoDup_fmap_1 (weight digest)). }
  assert (∀ x, x ∈ sis hl1 → x ∈ sis hl2) as Hsub.
  { intros x Hx.
    assert (x ∈ seen2) as Hx2.
    { rewrite <- Hperm, Hp1. apply elem_of_app. by left. }
    rewrite Hp2 in Hx2. apply elem_of_app in Hx2 as [Hx2|Hx2]; [done|]. exfalso.
    apply NoDup_app in Hnd_l2 as (Hnd_k2 & Hdisj & _).
    assert (∀ s, s ∈ sis hl2 → s ∈ sis hl1) as Hback.
    { intros s Hs.
      assert (s ∈ seen1) as Hs1'.
      { rewrite Hperm, Hp2. apply elem_of_app. by left. }
      rewrite Hp1 in Hs1'. apply elem_of_app in Hs1' as [Hs1'|Hs1']; [done|]. exfalso.
      pose proof (Hdrop2 x s Hx2 Hs) as Hle1.
      pose proof (Hdrop1 s x Hs1' Hx) as Hle2.
      unfold Hrw.heavier in *.
      assert (s = x) as ->.
      { apply (NoDup_fmap_eq (weight digest) seen2 _ _ Hnd2).
        - rewrite Hp2. apply elem_of_app. by left.
        - rewrite Hp2. apply elem_of_app. by right.
        - lia. }
      by apply (Hdisj x). }
    assert (sis hl2 ≡ₚ sis hl1) as Heq.
    { apply submseteq_length_Permutation; [|lia].
      by apply NoDup_submseteq. }
    apply (Hdisj x); [|done]. by rewrite Heq. }
  assert (sis hl1 ≡ₚ sis hl2) as Hperm_s.
  { apply submseteq_length_Permutation; [|lia].
    apply NoDup_submseteq; [|done]. by apply (NoDup_fmap_1 (weight digest)). }
  apply (StronglySorted_unique (λ a b, (weight digest b < weight digest a)%N));
    [by apply StronglySorted_strict..|done].
Qed.

Lemma active_targets_perm o1 o2 : o1 ≡ₚ o2 → active_targets o1 ≡ₚ active_targets o2.
Proof. intros H. unfold active_targets. by rewrite H. Qed.

(** X7. The list [HrwTargetList] returns (or the error it reports, or the
    panic) is the same whatever order the [range] over [Tmap] visits the
    targets in, provided the targets that are not in maintenance have
    pairwise distinct weights for the name. *)
Theorem HrwTargetList_independent_of_visiting_order
    (tmap : NodeMap) o1 o2 uname count :
  range_of tmap o1 → range_of tmap o2 →
  no_tie Hash (Checksum64S uname MLCG32) true o1 →
  HrwTargetList o1 uname count = HrwTargetList o2 uname count.
Proof.
  intros Ho1 Ho2 Htie.
  pose proof (range_of_perm tmap o1 o2 Ho1 Ho2) as Hperm.
  pose proof (active_targets_perm o1 o2 Hperm) as Hact.
  unfold Hrw.HrwTargetList, CountTargets.
  rewrite <- (Permutation_length Hperm).
  destruct (Z.of_nat (length o1) <? count) eqn:Hcnt; [done|].
  set (digest := Checksum64S uname MLCG32) in *.
  destruct (Z.ltb_spec count 0) as [Hneg|Hnn].
  { unfold newHrwList. rewrite (proj2 (Z.ltb_lt _ _) Hneg).
    by rewrite !HrwTargetList_loop_panic. }
  destruct (decide (count = 0)) as [->|Hpos].
  { rewrite !HrwTargetList_loop_zero.
    destruct (active_targets o1) as [|a l1] eqn:E1,
             (active_targets o2) as [|b l2] eqn:E2; try done.
    - by apply Permutation_nil_cons in Hact.
    - symmetry in Hact. by apply Permutation_nil_cons in Hact. }
  destruct (HrwTargetList_loop Hash digest count o1 Hnn) as [Hsome1 Hinv1].
  destruct (HrwTargetList_loop Hash digest count o2 Hnn) as [Hsome2 Hinv2].
  destruct Hsome1 as [hl1 Hl1]; [lia|]. destruct Hsome2 as [hl2 Hl2]; [lia|].
  rewrite Hl1, Hl2.
  destruct (Hinv1 hl1 Hl1) as (Hn1 & d1 & H1).
  destruct (Hinv2 hl2 Hl2) as (Hn2 & d2 & H2).
  unfold get.
  rewrite (hrwList_inv_unique digest _ _ hl1 hl2 d1 d2 H1 H2 Hact); [done|congruence|].
  exact Htie.
Qed.

(** X8. [HrwTargetList] with a negative [count] panics (the slices are made
    with a negative capacity); with [count = 0] it returns the empty list
    when no target of the map is out of maintenance and panics otherwise
    ([hrwList.add] reads [hs[-1]]). *)
Theorem HrwTargetList_nonpositive_count order uname count :
  count <= 0 →
  HrwTargetList order uname count =
    if bool_decide (count = 0 ∧ active_targets order = []) then Ok [] else Panic.
Proof.
  intros Hle. unfold Hrw.HrwTargetList, CountTargets.
  rewrite (proj2 (Z.ltb_ge _ _)) by lia.
  destruct (decide (count = 0)) as [->|Hne].
  - rewrite HrwTargetList_loop_zero.
    destruct (active_targets order) as [|a l] eqn:E.
    + rewrite bool_decide_eq_true_2 by done. simpl.
      by rewrite andb_false_r.
    + rewrite bool_decide_eq_false_2; [done|]. by intros [_ ?].
  - unfold newHrwList. rewrite (proj2 (Z.ltb_lt _ _)) by lia.
    rewrite HrwTargetList_loop_panic.
    rewrite bool_decide_eq_false_2; [done|]. by intros [? _].
Qed.

End HrwListFacts.

Section HrwSelectionExamples.
Import Hrw.

Lemma sample_pmap_order_range : range_items_of sample_pmap sample_pmap_order.
Proof. unfold range_items_of. apply (bool_decide_unpack _). vm_compute. exact I. Qed.

Lemma sample_pmap_order'_range : range_items_of sample_pmap sample_pmap_order'.
Proof. unfold range_items_of. apply (bool_decide_unpack _). vm_compute. exact I. Qed.

(** X2 at five proxies, skipping the primary ["p1"]. *)
Lemma HrwProxy_independent_of_visiting_order_witness :
  HrwProxy sample_pmap_order "p1" = HrwProxy sample_pmap_order' "p1".
Proof.
  apply (HrwProxy_independent_of_visiting_order sample_pmap);
    [exact sample_pmap_order_range | exact sample_pmap_order'_range |].
  apply (bool_decide_unpack _). vm_compute. exact I.
Defined.

(** X6 at three targets, one of them in maintenance, with [count = 1]. *)
Lemma HrwTargetList_keeps_heaviest_witness :
  Z.of_nat (length [mkSnode "C" 3 false]) =
    Z.min 1 (Z.of_nat (length (active_targets mixed_order))) ∧
  (∀ s, s ∈ [mkSnode "C" 3 false] → s ∈ mixed_order ∧ InMaintOrDecomm s = false) ∧
  ∃ dropped,
    active_targets mixed_order ≡ₚ [mkSnode "C" 3 false] ++ dropped ∧
    (dropped ≠ [] → Z.of_nat (length [mkSnode "C" 3 false]) = 1) ∧
    ∀ d s, d ∈ dropped → s ∈ [mkSnode "C" 3 false] →
      (weight sample_mix (sample_checksum "bucket/object" 0) d <=
       weight sample_mix (sample_checksum "bucket/object" 0) s)%N.
Proof.
  apply (HrwTargetList_keeps_heaviest sample_mix sample_checksum 0
           mixed_order "bucket/object" 1).
  vm_compute. reflexivity.
Defined.

(** X7 at four targets with digests 1..4 and [count = 2]. *)
Lemma HrwTargetList_independent_of_visiting_order_witness :
  HrwTargetList sample_mix sample_checksum 0 four_order "bucket/object" 2 =
  HrwTargetList sample_mix sample_checksum 0 four_order' "bucket/object" 2.
Proof.
  exact (HrwTargetList_independent_of_visiting_order sample_mix sample_checksum 0
           four_tmap four_order four_order' "bucket/object" 2
           four_order_range four_order'_range four_no_tie_key).
Defined.

(** X8 at [count = 0]: one target in maintenance, then an active one too. *)
Lemma HrwTargetList_nonpositive_count_witness :
  HrwTargetList sample_mix sample_checksum 0 [maint_a] "bucket/object" 0 = Ok [] ∧
  HrwTargetList sample_mix sample_checksum 0 [maint_a; active_b] "bucket/object" 0 = Panic.
Proof.
  split.
  - exact (HrwTargetList_nonpositive_count sample_mix sample_checksum 0
             [maint_a] "bucket/object" 0 ltac:(lia)).
  - exact (HrwTargetList_nonpositive_count sample_mix sample_checksum 0
             [maint_a; active_b] "bucket/object" 0 ltac:(lia)).
Defined.

End HrwSelectionExamples.

Section QueuePutFacts.
Import Downloader.

Lemma has_uid_delete q req u :
  has_uid (m (delete q req).1) u = has_uid (m q) u && negb (bool_decide (u = uid req)).
Proof.
  unfold delete, has_uid. destruct (m q) as [s|] eqn:Hm; simpl; [|by rewrite Hm].
  rewrite <- bool_decide_not, <- bool_decide_and.
  apply bool_decide_ext. set_solver.
Qed.

(** A task that [put] added is tracked afterwards. *)
Lemma put_added_tracked q t received q1 res :
  put q t received = Some (q1, res) → added res = true →
  ∃ s, m q1 = Some s ∧ uid (treq t) ∈ s.
Proof.
  intros Hput Hadded. unfold put in Hput.
  destruct (match m q with Some s => bool_decide (uid (treq t) ∈ s) | None => false end);
    [by simplify_eq|].
  destruct (ch q) as [|buf|buf]; [by simplify_eq|..|done].
  destruct (length (drop received buf) <? queueChSize)%nat; [|by simplify_eq].
  destruct (m q) as [s|]; [|done]. simplify_eq. eexists. split; [done|]. set_solver.
Qed.

Lemma put_tracked q t received s :
  m q = Some s → uid (treq t) ∈ s →
  put q t received = Some (q, {| added := false; err := None; errCode := 0 |}).
Proof. intros Hm Hin. unfold put. rewrite Hm. by rewrite bool_decide_eq_true_2. Qed.

(** X9. A task that [queue.put] added is not added again while its uid is
    tracked: a second [put] of it returns [added = false] without an error
    and leaves the queue as it is. Deleting its request makes the uid free
    again. *)
Theorem put_twice q t received q1 res :
  put q t received = Some (q1, res) → added res = true →
  (∀ received', put q1 t received' =
     Some (q1, {| added := false; err := None; errCode := 0 |})) ∧
  (delete q1 (treq t)).2 = true ∧
  has_uid (m (delete q1 (treq t)).1) (uid (treq t)) = false.
Proof.
  intros Hput Hadded.
  destruct (put_added_tracked _ _ _ _ _ Hput Hadded) as (s & Hm & Hin).
  split_and!.
  - intros r'. by apply (put_tracked _ _ _ s).
  - unfold delete. rewrite Hm. simpl. by rewrite bool_decide_eq_true_2.
  - rewrite has_uid_delete. by rewrite bool_decide_eq_true_2, andb_false_r.
Qed.

(** X10. A queue in service stays in service under [put], which never panics
    on it: the channel never buffers more than [queueChSize] tasks, the uid
    set only grows, and it grows by the uid of the task exactly when the task
    was added. *)
Theorem put_keeps_in_service q buf s t received :
  in_service q buf s →
  ∃ q' res buf',
    put q t received = Some (q', res) ∧
    in_service q' buf' (if added res then {[ uid (treq t) ]} ∪ s else s) ∧
    (added res = true → (uid (treq t) ∉ s) ∧ buf' = drop received buf ++ [t]) ∧
    (added res = false → buf' = buf ∨ buf' = drop received buf).
Proof.
  intros (Hch & Hm & Hcap). unfold put, in_service. rewrite Hch, Hm.
  case_bool_decide as Hin.
  - exists q, {| added := false; err := None; errCode := 0 |}, buf.
    simpl. split_and!; try done. by left.
  - destruct (Nat.ltb_spec (length (drop received buf)) queueChSize) as [Hroom|Hfull].
    + eexists _, _, (drop received buf ++ [t]). split; [done|]. simpl.
      split_and!; try done. rewrite length_app. simpl. lia.
    + eexists _, _, (drop received buf). split; [done|]. simpl.
      split_and!; try done; [rewrite length_drop; lia|by right].
Qed.

(** The receive loop of [queue.get] drops the buffered tasks that are not
    tracked and stops at the first tracked one. *)
Lemma get_scan_spec mm buf :
  ∃ skipped,
    Forall (λ t, has_uid mm (uid (treq t)) = false) skipped ∧
    ((∃ t rest, buf = skipped ++ t :: rest ∧ has_uid mm (uid (treq t)) = true ∧
                get_scan mm buf = (rest, Some t)) ∨
     (buf = skipped ∧ get_scan mm buf = ([], None))).
Proof.
  induction buf as [|t buf IH].
  - exists []. split; [constructor|]. by right.
  - simpl. destruct (has_uid mm (uid (treq t))) eqn:Ht.
    + exists []. split; [constructor|]. left. by exists t, buf.
    + destruct IH as (skipped & Hsk & [(t' & rest & -> & Ht' & Hscan)|[-> Hscan]]).
      * exists (t :: skipped). split; [by constructor|]. left. by exists t', rest.
      * exists (t :: skipped). split; [by constructor|]. by right.
Qed.

End QueuePutFacts.

Section QueueGetFacts.
Import Downloader.

Variable defaultTimeout : Z.
Variable ParseDuration : string -> option Z.

Local Abbreviation get := (Downloader.get defaultTimeout ParseDuration).
Local Abbreviation with_context := (Downloader.with_context defaultTimeout ParseDuration).

(** X11. [queue.get] on an open channel hands out the first buffered task
    whose uid is still in the uid set, with the tasks before it (those
    cancelled in the meantime) taken out of the channel and dropped; when no
    buffered task is tracked it drains the channel and blocks. The uid set is
    left as it is: the uid of the task handed out stays in it. *)
Theorem get_first_tracked q buf :
  ch q = ChanOpen buf →
  ∃ skipped,
    Forall (λ t, has_uid (m q) (uid (treq t)) = false) skipped ∧
    ((∃ t rest, buf = skipped ++ t :: rest ∧
                has_uid (m q) (uid (treq t)) = true ∧
                get q = ({| ch := ChanOpen rest; m := m q |}, with_context t)) ∨
     (buf = skipped ∧ get q = ({| ch := ChanOpen []; m := m q |}, GetBlocked))).
Proof.
  intros Hch. unfold Downloader.get. rewrite Hch.
  destruct (get_scan_spec (m q) buf) as (skipped & Hsk & [(t & rest & -> & Ht & Hscan)|[-> Hscan]]);
    exists skipped; (split; [exact Hsk|]); rewrite Hscan.
  - left. by exists t, rest.
  - by right.
Qed.


End QueueGetFacts.

Section UidFacts.
Import Downloader.

Lemma append_assoc (a b c : string) : (a +:+ b) +:+ c = a +:+ (b +:+ c).
Proof.
  induction a as [|x a IH]; [done|].
  change (String x ((a +:+ b) +:+ c) = String x (a +:+ (b +:+ c))). by rewrite IH.
Qed.

(** Two strings cut at their first ["|"] agree piecewise. *)
Lemma bar_split (l1 l2 r1 r2 : string) :
  no_bar l1 = true → no_bar l2 = true →
  l1 +:+ "|" +:+ r1 = l2 +:+ "|" +:+ r2 → l1 = l2 ∧ r1 = r2.
Proof.
  revert l2. induction l1 as [|c l1 IH]; intros [|c2 l2]; simpl; intros H1 H2 Heq.
  - by simplify_eq.
  - injection Heq as <- _. apply andb_true_iff in H2 as [H2 _]. done.
  - injection Heq as -> _. apply andb_true_iff in H1 as [H1 _]. done.
  - injection Heq as <- Heq.
    apply andb_true_iff in H1 as [_ H1]. apply andb_true_iff in H2 as [_ H2].
    destruct (IH l2 H1 H2 Heq) as [-> ->]. done.
Qed.

(** X13. The uid that deduplicates download requests tells requests apart
    exactly by link, bucket and object name as long as neither links nor
    bucket names contain ["|"]; with a ["|"] in the link or the object name,
    requests for different objects get the same uid, so [equals] holds of
    them (and [queue.put] takes the second for a duplicate of the first). *)
Theorem uid_separates_requests :
  (∀ r1 r2 : request,
     no_bar (Link (obj r1)) = true → no_bar (Link (obj r2)) = true →
     no_bar (bucket r1) = true → no_bar (bucket r2) = true →
     (equals r1 r2 = true ↔
        Link (obj r1) = Link (obj r2) ∧ bucket r1 = bucket r2 ∧
        Objname (obj r1) = Objname (obj r2))) ∧
  (∀ l b x n : string,
     equals (mkRequest (l +:+ "|" +:+ b +:+ "|" +:+ x) b n)
            (mkRequest l b (x +:+ "|" +:+ b +:+ "|" +:+ n)) = true).
Proof.
  split.
  - intros r1 r2 Hl1 Hl2 Hb1 Hb2. unfold equals, uid.
    rewrite bool_decide_eq_true. split.
    + intros Heq.
      destruct (bar_split _ _ _ _ Hl1 Hl2 Heq) as [Hl Heq'].
      destruct (bar_split _ _ _ _ Hb1 Hb2 Heq') as [Hb Hn]. done.
    + intros (-> & -> & ->). done.
  - intros l b x n. unfold equals, uid, mkRequest.
    cbn [obj Link bucket Objname].
    apply bool_decide_eq_true. by rewrite !append_assoc.
Qed.

End UidFacts.

Section DispatcherFacts.
Import Downloader Dispatcher.

Variable Fill : string -> string -> string -> LOM.
Variable getJob : string -> DlBody + error.
Variable delJob : string -> option error.

Local Abbreviation dispatchStatus_obj := (Dispatcher.dispatchStatus_obj Fill).
Local Abbreviation dispatchStatus := (Dispatcher.dispatchStatus Fill getJob).
Local Abbreviation Status := (Dispatcher.Status Fill getJob).
Local Abbreviation dispatchDownload := (Dispatcher.dispatchDownload Fill).
Local Abbreviation dispatchCancel_obj := (Dispatcher.dispatchCancel_obj Fill).
Local Abbreviation dispatchCancel := (Dispatcher.dispatchCancel Fill getJob delJob).

(** The loop of [dispatchStatus] over objects that all resolve. *)
Lemma dispatchStatus_loop_clean d body req outer objs finished :
  (∀ o, o ∈ objs →
     errstr (Fill (Bucket body) (Objname o) (BckProvider body)) = EmptyString ∧
     (Exists (Fill (Bucket body) (Objname o) (BckProvider body)) = true ∨
      ∃ p, MpathInfo (Fill (Bucket body) (Objname o) (BckProvider body)) = Some p ∧
           is_Some (joggers d !! p))) →
  foldl (dispatchStatus_obj d body req outer) (Some (finished, [])) objs =
  Some (finished +
        Z.of_nat (length (filter
          (λ o, Exists (Fill (Bucket body) (Objname o) (BckProvider body)) = true) objs)),
        []).
Proof.
  revert finished. induction objs as [|o objs IH]; intros finished Hall.
  - simpl. by rewrite Z.add_0_r.
  - destruct (Hall o) as [Herr Hres]; [by left|].
    cbn [foldl]. unfold Dispatcher.dispatchStatus_obj at 2. simpl.
    rewrite Herr. simpl. rewrite filter_cons.
    destruct (Exists (Fill (Bucket body) (Objname o) (BckProvider body))) eqn:Hex.
    + rewrite decide_True by done. rewrite IH; [|intros; apply Hall; by right].
      f_equal. f_equal. simpl. lia.
    + rewrite decide_False by done. destruct Hres as [?|(p & -> & Hp)]; [done|].
      rewrite bool_decide_eq_true_2 by done.
      apply IH. intros. apply Hall. by right.
Qed.

(** X14. A status request for a job whose objects all resolve (no [lom.Fill]
    error; each object either exists or maps to a mountpath that has a
    jogger) is answered with status 200 and the counts: [Total] is the number
    of objects of the job and [Finished] the number of them that exist
    locally, so [0 <= Finished <= Total]. An unknown job is answered with
    status 404 and the not-found error. *)
Theorem dispatchStatus_counts d req :
  (∀ body,
     getJob (id req) = inl body →
     (∀ o, o ∈ Objs body →
        errstr (Fill (Bucket body) (Objname o) (BckProvider body)) = EmptyString ∧
        (Exists (Fill (Bucket body) (Objname o) (BckProvider body)) = true ∨
         ∃ p, MpathInfo (Fill (Bucket body) (Objname o) (BckProvider body)) = Some p ∧
              is_Some (joggers d !! p))) →
     ∃ finished,
       dispatchStatus d req =
         Some {| resp := Some (StatusOf {| Proxy.Finished := finished;
                                           Proxy.Total := Z.of_nat (length (Objs body)) |});
                 err := None; statusCode := 200 |} ∧
       finished = Z.of_nat (length (filter
         (λ o, Exists (Fill (Bucket body) (Objname o) (BckProvider body)) = true)
         (Objs body))) ∧
       0 <= finished <= Z.of_nat (length (Objs body))) ∧
  (getJob (id req) = inr errJobNotFound →
     dispatchStatus d req =
       Some {| resp := None; err := Some (ErrJobNotFoundMsg (id req)); statusCode := 404 |}).
Proof.
  split.
  - intros body Hjob Hall. eexists. split; [|split; [done|]].
    + unfold Dispatcher.dispatchStatus. rewrite Hjob.
      rewrite (dispatchStatus_loop_clean d body req None (Objs body) 0 Hall). simpl. done.
    + split; [lia|]. apply inj_le, length_filter.
  - intros Hjob. unfold Dispatcher.dispatchStatus. by rewrite Hjob.
Qed.

(** Once an error was collected, the first error stays the first. *)
Lemma dispatchStatus_loop_errs d body req outer objs finished e es :
  match foldl (dispatchStatus_obj d body req outer) (Some (finished, e :: es)) objs with
  | Some (_, errs) => ∃ es', errs = e :: es'
  | None => True
  end.
Proof.
  revert finished es. induction objs as [|o objs IH]; intros finished es.
  - simpl. by exists es.
  - cbn [foldl]. unfold Dispatcher.dispatchStatus_obj at 2. simpl.
    destruct (negb _).
    + apply (IH finished (es ++ [_])).
    + destruct (Exists _); [apply IH|].
      destruct (MpathInfo _) as [p|]; [|apply (IH finished (es ++ [_]))].
      destruct (bool_decide _); [apply IH|].
      clear. induction objs as [|o objs IH]; [done|]. simpl. apply IH.
Qed.

Lemma dispatchStatus_loop_panic d body req outer objs :
  foldl (dispatchStatus_obj d body req outer) None objs = None.
Proof. induction objs as [|o objs IH]; [done|]. simpl. apply IH. Qed.

(** The loop over objects none of which yields an error. *)
Lemma dispatchStatus_loop_quiet d body req outer objs finished :
  (∀ o, o ∈ objs →
     errstr (Fill (Bucket body) (Objname o) (BckProvider body)) = EmptyString ∧
     (Exists (Fill (Bucket body) (Objname o) (BckProvider body)) = true ∨
      MpathInfo (Fill (Bucket body) (Objname o) (BckProvider body)) ≠ None)) →
  match foldl (dispatchStatus_obj d body req outer) (Some (finished, [])) objs with
  | Some (_, errs) => errs = []
  | None => True
  end.
Proof.
  revert finished. induction objs as [|o objs IH]; intros finished Hall; [done|].
  destruct (Hall o) as [Herr Hres]; [by left|].
  cbn [foldl]. unfold Dispatcher.dispatchStatus_obj at 2. simpl.
  rewrite Herr. simpl.
  destruct (Exists _); [apply IH; intros; apply Hall; by right|].
  destruct Hres as [?|Hmp]; [done|].
  destruct (MpathInfo _) as [p|]; [|done].
  destruct (bool_decide _); [apply IH; intros; apply Hall; by right|].
  by rewrite dispatchStatus_loop_panic.
Qed.

(** X15. When [lom.Fill] fails for an object of the job, and no object
    before it lacks a mountpath, the response of [dispatchStatus] carries
    status 500 and a nil error (the loop records the variable [err] of the
    enclosing function, which is nil there, not the error string), and the
    status request panics: either an assertion of the dispatcher fails, or
    the target's handler calls [err.Error()] on that nil error. *)
Theorem status_fill_failure_panics d id_ body pre o post :
  getJob id_ = inl body →
  Objs body = pre ++ o :: post →
  (∀ p, p ∈ pre →
     errstr (Fill (Bucket body) (Objname p) (BckProvider body)) = EmptyString ∧
     (Exists (Fill (Bucket body) (Objname p) (BckProvider body)) = true ∨
      MpathInfo (Fill (Bucket body) (Objname p) (BckProvider body)) ≠ None)) →
  errstr (Fill (Bucket body) (Objname o) (BckProvider body)) ≠ EmptyString →
  (∀ r, Status d id_ = Some r →
        r = {| resp := None; err := None; statusCode := 500 |}) ∧
  (Status d id_ ≫= downloadHandler_reply) = None.
Proof.
  intros Hjob Hobjs Hpre Hfail.
  unfold Dispatcher.Status, Dispatcher.dispatchStatus. cbn [id]. rewrite Hjob, Hobjs.
  rewrite foldl_app. cbn [foldl].
  set (req := {| action := adminStatus; id := id_; obj := _; bucket := _;
                 bckProvider := _; timeout := _; fqn := _ |}).
  pose proof (dispatchStatus_loop_quiet d body req None pre 0 Hpre) as Hq.
  destruct (foldl (dispatchStatus_obj d body req None) (Some (0, [])) pre)
    as [[finished errs]|].
  - subst errs. unfold Dispatcher.dispatchStatus_obj at 2. simpl.
    rewrite bool_decide_eq_false_2 by done. simpl.
    pose proof (dispatchStatus_loop_errs d body req None post finished
                  {| resp := None; err := None; statusCode := StatusInternalServerError |} [])
      as He.
    destruct (foldl _ _ post) as [[f' errs']|]; [|done].
    destruct He as (es' & ->). simpl. split; [by intros r [= <-]|done].
  - simpl. rewrite dispatchStatus_loop_panic. done.
Qed.

End DispatcherFacts.

Section PendingFacts.
Import Downloader Dispatcher.

Variable Fill : string -> string -> string -> LOM.
Variable getJob : string -> DlBody + error.
Variable delJob : string -> option error.

Local Abbreviation dispatchDownload := (Dispatcher.dispatchDownload Fill).
Local Abbreviation dispatchCancel_obj := (Dispatcher.dispatchCancel_obj Fill).
Local Abbreviation dispatchCancel := (Dispatcher.dispatchCancel Fill getJob delJob).

(** X16. A download request for an object that is already queued is
    answered like the request that queued it, with the "added to queue"
    message and no error, although nothing is added: the queues stay as they
    are and pending is lowered by one. *)
Theorem dispatchDownload_duplicate d t received d1 resp1 :
  dispatchDownload d t received = Some (d1, resp1) →
  pending d1 = pending d →
  ∀ received', dispatchDownload d1 t received' = Some (DecPending d1, resp1).
Proof.
  unfold Dispatcher.dispatchDownload, finalize, DecPending.
  intros Hrun Hpend received'.
  destruct (negb _) eqn:Herr; [simplify_eq/=; lia|].
  destruct (Exists _) eqn:Hex; [simplify_eq/=; lia|].
  destruct (MpathInfo _) as [path|] eqn:Hmp; [|simplify_eq/=; lia].
  destruct (joggers d !! path) as [j|] eqn:Hj; [|done]. simpl in Hrun.
  unfold putIntoDownloadQueue in *.
  destruct (put (q j) _ received) as [[q' r]|] eqn:Hput; [|done]. simpl in Hrun.
  destruct (Downloader.err r) as [e|] eqn:He; [simplify_eq/=; lia|].
  destruct (added r) eqn:Hadded; [|simplify_eq/=; lia].
  injection Hrun as <- <-. simpl.
  rewrite lookup_insert_eq. simpl.
  destruct (put_added_tracked _ _ _ _ _ Hput Hadded) as (s & Hm & Hin).
  rewrite (put_tracked q' _ received' s Hm Hin). simpl.
  by rewrite insert_insert_eq.
Qed.

Lemma foldr_add_perm (l1 l2 : list Z) :
  l1 ≡ₚ l2 → foldr Z.add 0 l1 = foldr Z.add 0 l2.
Proof. induction 1; simpl; lia. Qed.

(** Replacing the jogger of a mountpath changes the number of tracked uids
    by the difference of the two joggers. *)
Lemma total_tracked_insert js k j j' p c p' c' :
  js !! k = Some j →
  total_tracked {| joggers := <[k := j']> js; pending := p'; cancelled := c' |} =
  total_tracked {| joggers := js; pending := p; cancelled := c |} - tracked j + tracked j'.
Proof.
  intros Hk. unfold total_tracked. simpl.
  rewrite (foldr_add_perm (tracked <$> (map_to_list (<[k:=j']> js)).*2)
             (tracked <$> ((k, j') :: map_to_list (base.delete k js)).*2)).
  2:{ rewrite <- (insert_delete_eq js). rewrite map_to_list_insert; [done|].
      apply lookup_delete_eq. }
  rewrite (foldr_add_perm (tracked <$> (map_to_list js).*2)
             (tracked <$> ((k, j) :: map_to_list (base.delete k js)).*2)).
  2:{ by rewrite map_to_list_delete. }
  simpl. lia.
Qed.

Lemma tracked_put qq t received q' r jt :
  put qq t received = Some (q', r) →
  tracked {| q := q'; j_task := jt |} =
  tracked {| q := qq; j_task := jt |} + (if added r then 1 else 0).
Proof.
  unfold put, tracked. cbn [q]. intros Hput.
  destruct (match m qq with Some s => bool_decide (uid (treq t) ∈ s) | None => false end)
    eqn:Hex; [simplify_eq/=; lia|].
  destruct (ch qq) as [|buf|buf]; [simplify_eq/=; lia|..|done].
  destruct (length (drop received buf) <? queueChSize)%nat; [|simplify_eq/=; lia].
  destruct (m qq) as [s|] eqn:Hm; [|done]. simplify_eq/=.
  apply bool_decide_eq_false in Hex.
  rewrite size_union by set_solver. rewrite size_singleton. lia.
Qed.

Lemma tracked_delete qq req jt :
  tracked {| q := (delete qq req).1; j_task := jt |} =
  tracked {| q := qq; j_task := jt |} - (if (delete qq req).2 then 1 else 0).
Proof.
  unfold delete, tracked. simpl.
  destruct (m qq) as [s|] eqn:Hm; simpl; [|rewrite Hm; lia].
  case_bool_decide as Hin.
  - assert (s = {[uid req]} ∪ s ∖ {[uid req]}) as Hs.
    { apply set_eq. intros x. rewrite elem_of_union, elem_of_difference, elem_of_singleton.
      destruct (decide (x = uid req)) as [->|]; naive_solver. }
    assert (size s = size ({[uid req]} ∪ s ∖ {[uid req]})) as Hsz by (by rewrite <- Hs).
    rewrite size_union in Hsz by set_solver. rewrite size_singleton in Hsz. lia.
  - replace (s ∖ {[uid req]}) with s; [lia|].
    apply set_eq. intros x. rewrite elem_of_difference, elem_of_singleton. naive_solver.
Qed.

Lemma delete_branch_balance d mpath j req (errs : list response) jt :
  joggers d !! mpath = Some j → jt = j_task j →
  pending (let '(q', existed) := delete (q j) req in
           (if existed
            then DecPending {| joggers := <[mpath := {| q := q'; j_task := jt |}]> (joggers d);
                               pending := pending d; cancelled := cancelled d |}
            else {| joggers := <[mpath := {| q := q'; j_task := jt |}]> (joggers d);
                    pending := pending d; cancelled := cancelled d |}, errs)).1 -
  total_tracked (let '(q', existed) := delete (q j) req in
           (if existed
            then DecPending {| joggers := <[mpath := {| q := q'; j_task := jt |}]> (joggers d);
                               pending := pending d; cancelled := cancelled d |}
            else {| joggers := <[mpath := {| q := q'; j_task := jt |}]> (joggers d);
                    pending := pending d; cancelled := cancelled d |}, errs)).1 =
  pending d - total_tracked d.
Proof.
  intros Hj ->.
  pose proof (tracked_delete (q j) req (j_task j)) as Ht.
  destruct (delete (q j) req) as [q' existed]. simpl in Ht.
  assert (tracked {| q := q j; j_task := j_task j |} = tracked j) as Hj' by by destruct j.
  destruct d as [js p c]. simpl in *.
  destruct existed; simpl; unfold DecPending; simpl;
    rewrite (total_tracked_insert js mpath j _ p c _ _ Hj); lia.
Qed.

(** One step of the loops of [dispatchCancel] keeps the balance of pending
    and tracked uids. *)
Lemma dispatchCancel_obj_balance body req mpath st o :
  pending (dispatchCancel_obj body req mpath st o).1 -
    total_tracked (dispatchCancel_obj body req mpath st o).1 =
  pending st.1 - total_tracked st.1.
Proof.
  destruct st as [d errs]. unfold Dispatcher.dispatchCancel_obj.
  destruct (joggers d !! mpath) as [j|] eqn:Hj; [|done]. simpl.
  destruct (negb _); [done|]. destruct (Exists _); [done|].
  destruct (j_task j) as [running|] eqn:Hrun.
  - destruct (equals _ _); [done|]. by apply delete_branch_balance.
  - by apply delete_branch_balance.
Qed.

Lemma dispatchCancel_loop_balance body req order objs st :
  pending (foldl (λ st mpath, foldl (dispatchCancel_obj body req mpath) st objs) st order).1 -
    total_tracked (foldl (λ st mpath, foldl (dispatchCancel_obj body req mpath) st objs) st order).1 =
  pending st.1 - total_tracked st.1.
Proof.
  revert st. induction order as [|mpath order IH]; intros st; [done|].
  cbn [foldl]. rewrite IH.
  clear IH. revert st.
  induction objs as [|o objs IH]; intros st; [done|].
  cbn [foldl]. rewrite IH. apply dispatchCancel_obj_balance.
Qed.

(** X17. Pending accounting of the downloader: every uid tracked by a
    jogger queue holds one count of pending. Dispatching a download (whose
    pending was raised by [Download] before the task was sent) and
    dispatching a cancel both leave [pending - tracked] as it was: pending
    is lowered exactly when the task was not added to a queue, and once for
    every uid a cancel deletes from a queue. *)
Theorem pending_matches_tracked :
  (∀ d t received d' r,
     dispatchDownload (IncPending d) t received = Some (d', r) →
     pending d' - total_tracked d' = pending d - total_tracked d) ∧
  (∀ d order req d' r,
     dispatchCancel d order req = Some (d', r) →
     pending d' - total_tracked d' = pending d - total_tracked d).
Proof.
  split.
  - intros d t received d' r. unfold Dispatcher.dispatchDownload, finalize.
    intros Hrun.
    assert (pending (DecPending (IncPending d)) - total_tracked (DecPending (IncPending d)) =
            pending d - total_tracked d) as Hsame.
    { unfold DecPending, IncPending, total_tracked. simpl. lia. }
    destruct (negb _); [by simplify_eq|].
    destruct (Exists _); [by simplify_eq|].
    destruct (MpathInfo _) as [path|]; [|by simplify_eq].
    cbn [joggers IncPending] in Hrun.
    destruct (joggers d !! path) as [j|] eqn:Hj; [|done]. simpl in Hrun.
    unfold putIntoDownloadQueue in Hrun.
    destruct (put (q j) _ received) as [[q' res]|] eqn:Hput; [|done]. simpl in Hrun.
    pose proof (tracked_put _ _ _ _ _ (j_task j) Hput) as Ht.
    assert (tracked {| q := q j; j_task := j_task j |} = tracked j) as Hj' by by destruct j.
    destruct d as [js p c]. simpl in *.
    destruct (Downloader.err res) as [e|] eqn:He.
    + injection Hrun as <- <-. unfold DecPending. simpl.
      rewrite (total_tracked_insert js path j _ p c _ _ Hj).
      assert (added res = false) as Hna.
      { clear -Hput He. unfold put in Hput.
        destruct (match m (q j) with Some s => _ | None => _ end); [by simplify_eq|].
        destruct (ch (q j)) as [|buf|buf]; [by simplify_eq|..|done].
        destruct (_ <? _)%nat; [|by simplify_eq].
        destruct (m (q j)); by simplify_eq. }
      rewrite Hna in Ht. lia.
    + destruct (added res); injection Hrun as <- <-; unfold DecPending; simpl;
        rewrite (total_tracked_insert js path j _ p c _ _ Hj); lia.
  - intros d order req d' r. unfold Dispatcher.dispatchCancel.
    destruct (getJob (id req)) as [body|e].
    + pose proof (dispatchCancel_loop_balance body req order (Objs body) (d, [])) as Hbal.
      destruct (foldl _ _ order) as [d2 errs]. simpl in Hbal.
      destruct errs as [|e es].
      * destruct (delJob _); [done|]. by intros [= <- <-].
      * by intros [= <- <-].
    + destruct e; by intros [= <- <-].
Qed.

End PendingFacts.

Section CancelFacts.
Import Downloader Dispatcher.

Variable Fill : string -> string -> string -> LOM.
Variable getJob : string -> DlBody + error.
Variable delJob : string -> option error.

Local Abbreviation dispatchCancel_obj := (Dispatcher.dispatchCancel_obj Fill).
Local Abbreviation dispatchCancel := (Dispatcher.dispatchCancel Fill getJob delJob).

(** The nested loops of [dispatchCancel] as one loop over the pairs of a
    mountpath and an object. *)
Lemma foldl_nested {S A B : Type} (f : A → S → B → S) (st : S) (xs : list A) (ys : list B) :
  foldl (λ st x, foldl (f x) st ys) st xs =
  foldl (λ st p, f p.1 st p.2) st (xs ≫= λ x, pair x <$> ys).
Proof.
  revert st. induction xs as [|x xs IH]; intros st; [done|].
  cbn [foldl]. rewrite IH. rewrite bind_cons, foldl_app. f_equal.
  clear IH. revert st. induction ys as [|y ys IH]; intros st; [done|]. simpl. apply IH.
Qed.

Lemma shrinks_refl st : shrinks st st.
Proof. split_and!; [|done|done]. intros mpath j Hj. by exists j. Qed.

Lemma shrinks_trans st1 st2 st3 : shrinks st1 st2 → shrinks st2 st3 → shrinks st1 st3.
Proof.
  intros (H1 & C1 & E1) (H2 & C2 & E2). split_and!; [|by auto|by auto].
  intros mpath j Hj.
  destruct (H1 mpath j Hj) as (j2 & Hj2 & Ht2 & Hc2 & Hu2).
  destruct (H2 mpath j2 Hj2) as (j3 & Hj3 & Ht3 & Hc3 & Hu3).
  exists j3. split_and!; [done|congruence|congruence|by auto].
Qed.

Lemma delete_branch_shrinks d mpath j req (errs : list response) :
  joggers d !! mpath = Some j →
  shrinks (d, errs)
    (let '(q', existed) := delete (q j) req in
     (if existed
      then DecPending {| joggers := <[mpath := {| q := q'; j_task := j_task j |}]> (joggers d);
                         pending := pending d; cancelled := cancelled d |}
      else {| joggers := <[mpath := {| q := q'; j_task := j_task j |}]> (joggers d);
              pending := pending d; cancelled := cancelled d |}, errs)).
Proof.
  intros Hj.
  pose proof (has_uid_delete (q j) req) as Hdel.
  assert (ch (delete (q j) req).1 = ch (q j)) as Hch.
  { unfold delete. by destruct (m (q j)). }
  destruct (delete (q j) req) as [q' existed]. simpl in Hdel, Hch.
  assert (∀ mpath0 j0, joggers d !! mpath0 = Some j0 →
            ∃ j', <[mpath := {| q := q'; j_task := j_task j |}]> (joggers d) !! mpath0 = Some j' ∧
                  j_task j' = j_task j0 ∧ ch (q j') = ch (q j0) ∧
                  ∀ u, has_uid (m (q j')) u = true → has_uid (m (q j0)) u = true) as Hjs.
  { intros mpath0 j0 Hj0. destruct (decide (mpath0 = mpath)) as [->|Hne].
    - rewrite lookup_insert_eq. eexists. split; [done|]. simplify_eq. simpl.
      split_and!; [done|done|]. intros u. rewrite Hdel. by intros [? _]%andb_true_iff.
    - rewrite lookup_insert_ne by done. by exists j0. }
  destruct existed; (split_and!; [exact Hjs|done|done]).
Qed.

Lemma dispatchCancel_obj_shrinks body req mpath st o :
  shrinks st (dispatchCancel_obj body req mpath st o).
Proof.
  destruct st as [d errs]. unfold Dispatcher.dispatchCancel_obj.
  destruct (joggers d !! mpath) as [j|] eqn:Hj; [|apply shrinks_refl].
  cbn [bucket obj bckProvider].
  destruct (negb _).
  { split_and!; [intros mp j0 Hj0; by exists j0|done|]. simpl. intros _. by destruct errs. }
  destruct (Exists _); [apply shrinks_refl|].
  destruct (j_task j) as [running|] eqn:Hrun.
  - destruct (equals _ _).
    + split_and!; [intros mp j0 Hj0; by exists j0| |done].
      simpl. intros t Ht. apply elem_of_app. by left.
    + rewrite <- Hrun. by apply delete_branch_shrinks.
  - rewrite <- Hrun. by apply delete_branch_shrinks.
Qed.

Lemma dispatchCancel_loop_shrinks body req st (pairs : list (string * DlObj)) :
  shrinks st (foldl (λ st p, dispatchCancel_obj body req p.1 st p.2) st pairs).
Proof.
  revert st. induction pairs as [|p pairs IH]; intros st; [apply shrinks_refl|].
  cbn [foldl]. eapply shrinks_trans; [apply dispatchCancel_obj_shrinks|apply IH].
Qed.

(** X18. What a cancel that is answered without an error has done, for
    every jogger the loop visited and every object of the job: the object
    exists locally, or it is the task the jogger is running and that task's
    [cancelFunc] was called, or its uid is not tracked by the jogger's queue
    any more, so that [queue.get] will not hand it out. The joggers keep
    their running tasks and their channels. *)
Theorem dispatchCancel_untracks d order req body d' r :
  getJob (id req) = inl body →
  dispatchCancel d order req = Some (d', r) →
  err r = None →
  ∀ mpath j o,
    mpath ∈ order → joggers d !! mpath = Some j → o ∈ Objs body →
    ∃ j', joggers d' !! mpath = Some j' ∧ j_task j' = j_task j ∧ ch (q j') = ch (q j) ∧
      (Exists (Fill (Bucket body) (Objname o) (BckProvider body)) = true ∨
       (∃ running, j_task j = Some running ∧
          uid (treq running) = Link o +:+ "|" +:+ Bucket body +:+ "|" +:+ Objname o ∧
          running ∈ cancelled d') ∨
       has_uid (m (q j')) (Link o +:+ "|" +:+ Bucket body +:+ "|" +:+ Objname o) = false).
Proof.
  intros Hjob Hrun Herr mpath j o Hmp Hj Ho.
  unfold Dispatcher.dispatchCancel in Hrun. rewrite Hjob in Hrun.
  rewrite foldl_nested in Hrun.
  assert ((mpath, o) ∈ (order ≫= λ x, pair x <$> Objs body)) as Hin.
  { apply list_elem_of_bind. exists mpath. split; [|done]. by apply list_elem_of_fmap_2. }
  apply list_elem_of_split in Hin as (pre & post & Hsplit).
  rewrite Hsplit, foldl_app in Hrun. cbn [foldl] in Hrun.
  pose proof (dispatchCancel_loop_shrinks body req (d, []) pre) as Hpre.
  set (st1 := foldl (λ st p, dispatchCancel_obj body req p.1 st p.2) (d, []) pre) in *.
  pose proof (dispatchCancel_loop_shrinks body req
                (dispatchCancel_obj body req (mpath, o).1 st1 (mpath, o).2) post) as Hpost.
  set (st2 := dispatchCancel_obj body req (mpath, o).1 st1 (mpath, o).2) in *.
  destruct (foldl _ st2 post) as [d3 errs3] eqn:Hfin.
  assert (d3 = d' ∧ errs3 = []) as [-> ->].
  { destruct errs3 as [|e es].
    - destruct (delJob _); [done|]. by simplify_eq.
    - simplify_eq/=. unfold writeErrResp in Herr. simpl in Herr.
      (* the first error of the loop is never nil *)
      exfalso.
      assert (∀ st pairs,
                Forall (λ e, err e ≠ None) st.2 →
                Forall (λ e, err e ≠ None)
                  (foldl (λ st p, dispatchCancel_obj body req p.1 st p.2) st pairs).2) as Hnn.
      { intros st pairs. revert st. induction pairs as [|p pairs IH]; intros st Hst; [done|].
        cbn [foldl]. apply IH. destruct st as [d0 errs0].
        unfold Dispatcher.dispatchCancel_obj.
        destruct (joggers d0 !! p.1) as [j0|]; [|done].
        cbn [bucket obj bckProvider].
        destruct (negb _).
        { simpl. apply Forall_app. split; [done|]. by repeat constructor. }
        destruct (Exists _); [done|].
        destruct (j_task j0); [destruct (equals _ _); [done|]|];
          by destruct (delete _ _) as [? []]. }
      specialize (Hnn (d, []) (pre ++ (mpath, o) :: post) (Forall_nil_2 _)).
      assert (foldl (λ st p, dispatchCancel_obj body req p.1 st p.2) (d, [])
                (pre ++ (mpath, o) :: post) = (d', e :: es)) as Hfull.
      { rewrite foldl_app. exact Hfin. }
      rewrite Hfull in Hnn. simpl in Hnn. apply Forall_cons in Hnn as [Hnn _]. done. }
  clear Hrun.
  destruct Hpre as (Hpre_j & _ & _).
  destruct (Hpre_j mpath j Hj) as (j1 & Hj1 & Ht1 & Hc1 & Hu1). simpl in Hj1.
  destruct Hpost as (Hpost_j & Hpost_c & Hpost_e).
  (* the step at [(mpath, o)] *)
  assert (∃ j2, joggers st2.1 !! mpath = Some j2 ∧ j_task j2 = j_task j ∧
                ch (q j2) = ch (q j) ∧
                (Exists (Fill (Bucket body) (Objname o) (BckProvider body)) = true ∨
                 (∃ running, j_task j = Some running ∧
                    uid (treq running) = Link o +:+ "|" +:+ Bucket body +:+ "|" +:+ Objname o ∧
                    running ∈ cancelled st2.1) ∨
                 has_uid (m (q j2)) (Link o +:+ "|" +:+ Bucket body +:+ "|" +:+ Objname o) = false))
    as (j2 & Hj2 & Ht2 & Hc2 & Hcase).
  { subst st2. destruct st1 as [d1 errs1]. simpl in Hj1.
    unfold Dispatcher.dispatchCancel_obj. cbn [fst snd]. rewrite Hj1.
    cbn [bucket obj bckProvider].
    destruct (negb _) eqn:Hfill.
    { exfalso. apply Hpost_e; [|done]. simpl.
      unfold Dispatcher.dispatchCancel_obj. cbn [fst snd]. rewrite Hj1.
      cbn [bucket obj bckProvider]. rewrite Hfill. simpl. by destruct errs1. }
    destruct (Exists _) eqn:Hex.
    { exists j1. split_and!; [done|congruence|congruence|by left]. }
    assert (∀ jt, jt = j_task j1 →
              ∃ j2, joggers (let '(q', existed) := delete (q j1)
                         {| action := action req; id := id req; obj := o;
                            bucket := Bucket body; bckProvider := BckProvider body;
                            timeout := timeout req; fqn := fqn req |} in
                       (if existed
                        then DecPending {| joggers := <[mpath := {| q := q'; j_task := jt |}]> (joggers d1);
                                           pending := pending d1; cancelled := cancelled d1 |}
                        else {| joggers := <[mpath := {| q := q'; j_task := jt |}]> (joggers d1);
                                pending := pending d1; cancelled := cancelled d1 |}, errs1)).1
                    !! mpath = Some j2 ∧
                j_task j2 = j_task j ∧ ch (q j2) = ch (q j) ∧
                has_uid (m (q j2)) (Link o +:+ "|" +:+ Bucket body +:+ "|" +:+ Objname o) = false)
      as Hdelete.
    { intros jt ->.
      pose proof (has_uid_delete (q j1)
                    {| action := action req; id := id req; obj := o;
                       bucket := Bucket body; bckProvider := BckProvider body;
                       timeout := timeout req; fqn := fqn req |}
                    (Link o +:+ "|" +:+ Bucket body +:+ "|" +:+ Objname o)) as Hdel.
      assert (ch (delete (q j1)
                    {| action := action req; id := id req; obj := o;
                       bucket := Bucket body; bckProvider := BckProvider body;
                       timeout := timeout req; fqn := fqn req |}).1 = ch (q j1)) as Hch.
      { unfold delete. by destruct (m (q j1)). }
      destruct (delete (q j1) _) as [q' existed]. simpl in Hdel, Hch.
      exists {| q := q'; j_task := j_task j1 |}.
      split_and!.
      - destruct existed; simpl; apply lookup_insert_eq.
      - simpl. congruence.
      - simpl. congruence.
      - simpl. rewrite Hdel. unfold uid. simpl.
        rewrite bool_decide_eq_true_2 by done. apply andb_false_r. }
    destruct (j_task j1) as [running|] eqn:Hrunning.
    - destruct (equals _ _) eqn:Heq.
      + exists j1. split_and!; [done|congruence|congruence|]. right. left.
        exists running. split_and!; [congruence| |].
        * unfold equals in Heq. by apply bool_decide_eq_true in Heq.
        * simpl. apply elem_of_app. right. by apply list_elem_of_singleton.
      + destruct (Hdelete (Some running) eq_refl) as (j2 & ? & ? & ? & ?).
        exists j2. split_and!; [done..|]. by right; right.
    - destruct (Hdelete None eq_refl) as (j2 & ? & ? & ? & ?).
      exists j2. split_and!; [done..|]. by right; right. }
  destruct (Hpost_j mpath j2 Hj2) as (j3 & Hj3 & Ht3 & Hc3 & Hu3). simpl in Hj3.
  exists j3. split_and!; [done|congruence|congruence|].
  destruct Hcase as [?|[(running & ? & ? & Hc)|Hun]]; [by left| |].
  - right. left. exists running. split_and!; [done..|]. by apply Hpost_c.
  - right. right. destruct (has_uid (m (q j3)) _) eqn:Hu; [|done].
    apply Hu3 in Hu. congruence.
Qed.

End CancelFacts.

Section DownloaderExamples.
Import Downloader Dispatcher.

(** X11 on a channel that buffers a cancelled task before a tracked one. *)
Lemma get_first_tracked_witness :
  ∃ skipped,
    Forall (λ t, has_uid (Some {[ "http://x/c|b|c" ]}) (uid (treq t)) = false) skipped ∧
    ((∃ t rest,
        [sample_task "http://x/a" "b" "a"; sample_task "http://x/c" "b" "c"] =
          skipped ++ t :: rest ∧
        has_uid (Some {[ "http://x/c|b|c" ]}) (uid (treq t)) = true ∧
        get 60000000000 sample_ParseDuration
          {| ch := ChanOpen [sample_task "http://x/a" "b" "a"; sample_task "http://x/c" "b" "c"];
             m := Some {[ "http://x/c|b|c" ]} |} =
          ({| ch := ChanOpen rest; m := Some {[ "http://x/c|b|c" ]} |},
           with_context 60000000000 sample_ParseDuration t)) ∨
     ([sample_task "http://x/a" "b" "a"; sample_task "http://x/c" "b" "c"] = skipped ∧
      get 60000000000 sample_ParseDuration
        {| ch := ChanOpen [sample_task "http://x/a" "b" "a"; sample_task "http://x/c" "b" "c"];
           m := Some {[ "http://x/c|b|c" ]} |} =
        ({| ch := ChanOpen []; m := Some {[ "http://x/c|b|c" ]} |}, GetBlocked))).
Proof.
  exact (get_first_tracked 60000000000 sample_ParseDuration
           {| ch := ChanOpen [sample_task "http://x/a" "b" "a"; sample_task "http://x/c" "b" "c"];
              m := Some {[ "http://x/c|b|c" ]} |} _ eq_refl).
Defined.

(** X9 on an empty queue. *)
Lemma put_twice_witness :
  (∀ received',
     put {| ch := ChanOpen [sample_task "http://x/a" "b" "a"];
            m := Some ({[ "http://x/a|b|a" ]} ∪ ∅) |}
         (sample_task "http://x/a" "b" "a") received' =
     Some ({| ch := ChanOpen [sample_task "http://x/a" "b" "a"];
              m := Some ({[ "http://x/a|b|a" ]} ∪ ∅) |},
           {| added := false; Downloader.err := None; errCode := 0 |})) ∧
  (delete {| ch := ChanOpen [sample_task "http://x/a" "b" "a"];
             m := Some ({[ "http://x/a|b|a" ]} ∪ ∅) |}
          (treq (sample_task "http://x/a" "b" "a"))).2 = true ∧
  has_uid (m (delete {| ch := ChanOpen [sample_task "http://x/a" "b" "a"];
                         m := Some ({[ "http://x/a|b|a" ]} ∪ ∅) |}
                     (treq (sample_task "http://x/a" "b" "a"))).1)
          (uid (treq (sample_task "http://x/a" "b" "a"))) = false.
Proof.
  apply (put_twice newQueue (sample_task "http://x/a" "b" "a") 0 _
           {| added := true; Downloader.err := None; errCode := 0 |});
    reflexivity.
Defined.

(** X10 on the empty queue. *)
Lemma put_keeps_in_service_witness :
  ∃ q' res buf',
    put newQueue (sample_task "http://x/a" "b" "a") 0 = Some (q', res) ∧
    in_service q' buf'
      (if added res then {[ uid (treq (sample_task "http://x/a" "b" "a")) ]} ∪ ∅ else ∅) ∧
    (added res = true →
       (uid (treq (sample_task "http://x/a" "b" "a")) ∉ (∅ : gset string)) ∧
       buf' = drop 0 [] ++ [sample_task "http://x/a" "b" "a"]) ∧
    (added res = false → buf' = [] ∨ buf' = drop 0 []).
Proof.
  apply (put_keeps_in_service newQueue [] ∅ (sample_task "http://x/a" "b" "a") 0).
  split_and!; [reflexivity | reflexivity | simpl; unfold queueChSize; lia].
Defined.

(** X15 on a job whose second object cannot be stat-ed. *)
Lemma status_fill_failure_panics_witness :
  (∀ r, Status broken_Fill sample_getJob sample_downloader "job-1" = Some r →
        r = {| resp := None; err := None; statusCode := 500 |}) ∧
  (Status broken_Fill sample_getJob sample_downloader "job-1" ≫= downloadHandler_reply) = None.
Proof.
  apply (status_fill_failure_panics broken_Fill sample_getJob sample_downloader "job-1"
           sample_job [ {| Objname := "a"; Link := "http://x/a" |} ]
           {| Objname := "c"; Link := "http://x/c" |} []).
  - reflexivity.
  - reflexivity.
  - intros p Hp. apply list_elem_of_singleton in Hp as ->.
    split; [reflexivity|]. right. simpl. discriminate.
  - simpl. discriminate.
Defined.

(** X16 on the first object of the sample job, dispatched twice. *)
Lemma dispatchDownload_duplicate_witness :
  dispatchDownload sample_Fill busy_downloader (sample_task "http://x/a" "b" "a") 0 =
    Some (DecPending busy_downloader,
          {| resp := Some (MsgAdded (task_set_fqn (sample_task "http://x/a" "b" "a") "/mp1/b/a"));
             err := None; statusCode := 0 |}).
Proof.
  assert (dispatchDownload sample_Fill (IncPending sample_downloader)
            (sample_task "http://x/a" "b" "a") 0 =
          Some (busy_downloader,
                {| resp := Some (MsgAdded (task_set_fqn (sample_task "http://x/a" "b" "a") "/mp1/b/a"));
                   err := None; statusCode := 0 |})) as Hfirst.
  { vm_compute. reflexivity. }
  exact (dispatchDownload_duplicate sample_Fill (IncPending sample_downloader)
           (sample_task "http://x/a" "b" "a") 0 busy_downloader _ Hfirst eq_refl 0).
Defined.

(** X18 on the downloader with the first object of the sample job queued. *)
Lemma dispatchCancel_untracks_witness :
  ∃ d' r,
    dispatchCancel sample_Fill sample_getJob sample_delJob busy_downloader ["/mp1"]
      (mkRequest "" "" "") = Some (d', r) ∧
    ∃ j', joggers d' !! "/mp1" = Some j' ∧ j_task j' = None ∧
          ch (q j') = ChanOpen [task_set_fqn (sample_task "http://x/a" "b" "a") "/mp1/b/a"] ∧
          has_uid (m (q j')) "http://x/a|b|a" = false.
Proof.
  eexists _, _. split; [vm_compute; reflexivity|].
  destruct (dispatchCancel_untracks sample_Fill sample_getJob sample_delJob
              busy_downloader ["/mp1"] (mkRequest "" "" "") sample_job _ _
              eq_refl eq_refl eq_refl "/mp1"
              {| q := {| ch := ChanOpen [task_set_fqn (sample_task "http://x/a" "b" "a") "/mp1/b/a"];
                         m := Some {[ "http://x/a|b|a" ]} |};
                 j_task := None |}
              {| Objname := "a"; Link := "http://x/a" |})
    as (j' & Hj' & Ht & Hc & Hcase).
  - apply list_elem_of_singleton. reflexivity.
  - reflexivity.
  - apply elem_of_cons. left. reflexivity.
  - exists j'. split_and!; [exact Hj'|exact Ht|exact Hc|].
    destruct Hcase as [Hex|[(running & Hrun & _)|Hun]].
    + discriminate Hex.
    + discriminate Hrun.
    + exact Hun.
Defined.

End DownloaderExamples.

Section RecvFacts.
Import SharedDM.

Variable RecvObj : Type.
Variable CheckValidUUID : string -> option string.

Local Abbreviation recv := (@SharedDM.recv RecvObj CheckValidUUID).

(** A string is cut at its first separator into what precedes it, which has
    no separator, and what follows it. *)
Lemma Index_Sepa_split (s : string) (i : nat) :
  Index_Sepa s = Some i →
  s = slice_to i s +:+ "|" +:+ slice_from (i + 1) s ∧
  Index_Sepa (slice_to i s) = None ∧
  (i ≠ O → slice_to i s ≠ EmptyString).
Proof.
  revert i. induction s as [|c s IH]; intros i; simpl; [done|].
  destruct (Ascii.eqb c Sepa) eqn:Hc.
  - intros [= <-]. apply Ascii.eqb_eq in Hc as ->. done.
  - destruct (Index_Sepa s) as [i'|]; [|done]. simpl. intros [= <-].
    destruct (IH i' eq_refl) as (Hs & Hnone & _). simpl.
    rewrite Hc, Hnone. split_and!; [|done|done].
    change (String c s = String c (slice_to i' s +:+ "|" +:+ slice_from (i' + 1) s)).
    by rewrite <- Hs.
Qed.

Lemma Index_Sepa_app (xid sub : string) :
  Index_Sepa xid = None →
  Index_Sepa (xid +:+ "|" +:+ sub) = Some (String.length xid) ∧
  slice_to (String.length xid) (xid +:+ "|" +:+ sub) = xid ∧
  slice_from (String.length xid + 1) (xid +:+ "|" +:+ sub) = sub.
Proof.
  induction xid as [|c xid IH]; simpl; [done|].
  destruct (Ascii.eqb c Sepa); [done|].
  destruct (Index_Sepa xid); [done|]. intros _.
  destruct (IH eq_refl) as (-> & -> & ->). done.
Qed.

Lemma Index_Sepa_none_demux (hdr : ObjHdr) :
  Index_Sepa (Opaque hdr) = None → demux hdr = (Opaque hdr, hdr).
Proof. intros H. unfold demux. by rewrite H. Qed.

Lemma demux_app oname xid sub :
  Index_Sepa xid = None → xid ≠ EmptyString →
  demux {| ObjName := oname; Opaque := xid +:+ "|" +:+ sub |} =
    (xid, {| ObjName := oname; Opaque := sub |}).
Proof.
  intros Hnone Hne. unfold demux. cbn [Opaque ObjName].
  destruct (Index_Sepa_app xid sub Hnone) as (Hi & Hto & Hfrom). rewrite Hi.
  destruct xid as [|c xid]; [done|]. cbn [String.length] in *.
  by rewrite Hto, Hfrom.
Qed.

(** X19. An object received on the open data mover whose [Opaque] is a
    registered, valid xaction id followed by ["|"] and a payload is handed to
    the callback registered under that id, with [Opaque] cut down to the
    payload; without a separator the whole [Opaque] is the id and the header
    reaches the callback as it is. *)
Theorem recv_demux (sdm : sharedDM RecvObj) cbs xid sub oname cb :
  isOpen sdm = true → rxcbs sdm = Some cbs → cbs !! xid = Some cb →
  CheckValidUUID xid = None → Index_Sepa xid = None → xid ≠ EmptyString →
  recv sdm {| ObjName := oname; Opaque := xid +:+ "|" +:+ sub |} None =
    Invoke cb {| ObjName := oname; Opaque := sub |} ∧
  recv sdm {| ObjName := oname; Opaque := xid |} None =
    Invoke cb {| ObjName := oname; Opaque := xid |}.
Proof.
  intros Hopen Hcbs Hcb Hvalid Hnone Hne. unfold SharedDM.recv. split.
  - rewrite (demux_app oname xid sub Hnone Hne).
    rewrite Hvalid, Hopen, Hcbs. simpl. by rewrite Hcb.
  - rewrite Index_Sepa_none_demux by done. cbn [Opaque].
    rewrite Hvalid, Hopen, Hcbs. simpl. by rewrite Hcb.
Qed.

(** X20. [recv] calls a callback only for an object that arrived without an
    error while the data mover is open, and only the callback that is
    registered under the object's xaction id, which passed
    [CheckValidUUID]; the id is the whole [Opaque] (the header is passed on
    as it is), or the non-empty part of [Opaque] before its first ["|"] (the
    header is passed on with the rest of [Opaque]). *)
Theorem recv_invokes_only_registered (sdm : sharedDM RecvObj) hdr err cb hdr' :
  recv sdm hdr err = Invoke cb hdr' →
  err = None ∧ isOpen sdm = true ∧
  ∃ cbs xid,
    rxcbs sdm = Some cbs ∧ cbs !! xid = Some cb ∧ CheckValidUUID xid = None ∧
    ((hdr' = hdr ∧ xid = Opaque hdr) ∨
     (Opaque hdr = xid +:+ "|" +:+ Opaque hdr' ∧ ObjName hdr' = ObjName hdr ∧
      xid ≠ EmptyString ∧ Index_Sepa xid = None)).
Proof.
  unfold SharedDM.recv. destruct err as [e|]; [done|].
  destruct (demux hdr) as [xid hdr1] eqn:Hdemux.
  destruct (CheckValidUUID xid) as [e|] eqn:Hvalid; [done|].
  destruct (isOpen sdm) eqn:Hopen; [|done]. simpl.
  destruct (rxcbs sdm) as [cbs|] eqn:Hcbs; [|done]. simpl.
  destruct (cbs !! xid) as [cb0|] eqn:Hcb; [|done].
  intros [= <- <-]. split_and!; [done..|].
  exists cbs, xid. split_and!; [done..|].
  unfold demux in Hdemux.
  destruct (Index_Sepa (Opaque hdr)) as [[|i]|] eqn:Hi.
  - left. by simplify_eq.
  - right. injection Hdemux as <- <-. cbn [Opaque ObjName].
    destruct (Index_Sepa_split _ _ Hi) as (Hs & Hnone & Hne).
    split_and!; [done|done|by apply Hne|done].
  - left. by simplify_eq.
Qed.

(** X21. Registration life cycle on the open data mover: after
    [RegRecv(xid, cb)] an object for [xid] reaches [cb] (a callback
    registered under [xid] before is replaced), objects for other ids are
    treated as before; after [UnregRecv(xid)] an object for [xid] is dropped
    with the not-found error and no callback is called. *)
Theorem registration_life_cycle (sdm : sharedDM RecvObj) cbs xid cb hdr :
  isOpen sdm = true → rxcbs sdm = Some cbs →
  (demux hdr).1 = xid → CheckValidUUID xid = None →
  ∃ sdm1,
    RegRecv xid cb sdm = Some sdm1 ∧
    recv sdm1 hdr None = Invoke cb (demux hdr).2 ∧
    (∀ hdr2, (demux hdr2).1 ≠ xid → recv sdm1 hdr2 None = recv sdm hdr2 None) ∧
    recv (UnregRecv xid sdm1) hdr None =
      RecvErr (ErrNotFound xid (ObjName (demux hdr).2)) ∧
    (∀ hdr2, (demux hdr2).1 ≠ xid →
       recv (UnregRecv xid sdm1) hdr2 None = recv sdm hdr2 None).
Proof.
  intros Hopen Hcbs Hxid Hvalid.
  unfold RegRecv, UnregRecv, SharedDM.recv, isOpen in *. rewrite Hopen, Hcbs. simpl.
  eexists. split; [reflexivity|]. simpl. rewrite Hopen. simpl.
  destruct (demux hdr) as [xid0 hdr1]. simpl in Hxid. subst xid0. simpl.
  rewrite Hvalid. rewrite lookup_insert_eq, lookup_delete_eq, !Hopen. simpl.
  split_and!; [done| |done|].
  - intros hdr2 Hne. destruct (demux hdr2) as [xid2 hdr2']. simpl in Hne.
    destruct (CheckValidUUID xid2); [done|].
    by rewrite lookup_insert_ne.
  - intros hdr2 Hne. destruct (demux hdr2) as [xid2 hdr2']. simpl in Hne.
    destruct (CheckValidUUID xid2); [done|].
    rewrite lookup_delete_ne by done. by rewrite lookup_insert_ne.
Qed.

(** X22. While the data mover is closed it is inert, in every state the
    public interface can reach: no receiver is registered, [RegRecv] and
    [UnregRecv] change nothing (the registration is dropped silently),
    [Close] does nothing and returns no error, and no received object
    reaches a callback. *)
Theorem closed_is_inert (sdm : sharedDM RecvObj) :
  reachable sdm → isOpen sdm = false →
  IsActive sdm = false ∧
  (∀ xid cb, RegRecv xid cb sdm = Some sdm) ∧
  (∀ xid, UnregRecv xid sdm = sdm) ∧
  (∀ order, Close order sdm = (sdm, None)) ∧
  (∀ hdr err cb hdr', recv sdm hdr err ≠ Invoke cb hdr').
Proof.
  intros Hreach Hclosed.
  pose proof (reachable_consistent RecvObj sdm Hreach) as Hcons.
  unfold consistent in Hcons. rewrite Hclosed in Hcons.
  split_and!.
  - unfold IsActive. rewrite Hcons. done.
  - intros xid cb. unfold RegRecv. by rewrite Hclosed.
  - intros xid. unfold UnregRecv. by rewrite Hclosed.
  - intros order. unfold Close. by rewrite Hclosed.
  - intros hdr err cb hdr'. unfold SharedDM.recv.
    destruct err; [done|]. destruct (demux hdr) as [xid hdr1].
    destruct (CheckValidUUID xid); [done|]. by rewrite Hclosed.
Qed.

End RecvFacts.

Section RecvExamples.
Import SharedDM.

(** X19 on the data mover with one receiver, ["job-7"]. *)
Lemma recv_demux_witness :
  recv sample_CheckValidUUID sample_registered
    {| ObjName := "obj"; Opaque := "job-7|shard-3" |} None =
    Invoke tt {| ObjName := "obj"; Opaque := "shard-3" |} ∧
  recv sample_CheckValidUUID sample_registered
    {| ObjName := "obj"; Opaque := "job-7" |} None =
    Invoke tt {| ObjName := "obj"; Opaque := "job-7" |}.
Proof.
  apply (recv_demux unit sample_CheckValidUUID sample_registered
           {[ "job-7" := tt ]} "job-7" "shard-3" "obj" tt);
    try reflexivity.
  discriminate.
Defined.

(** X20 on the same data mover. *)
Lemma recv_invokes_only_registered_witness :
  (None : option string) = None ∧ isOpen sample_registered = true ∧
  ∃ cbs xid,
    rxcbs sample_registered = Some cbs ∧ cbs !! xid = Some tt ∧
    sample_CheckValidUUID xid = None ∧
    (({| ObjName := "obj"; Opaque := "shard-3" |} =
        {| ObjName := "obj"; Opaque := "job-7|shard-3" |} ∧
      xid = Opaque {| ObjName := "obj"; Opaque := "job-7|shard-3" |}) ∨
     (Opaque {| ObjName := "obj"; Opaque := "job-7|shard-3" |} =
        xid +:+ "|" +:+ Opaque {| ObjName := "obj"; Opaque := "shard-3" |} ∧
      ObjName {| ObjName := "obj"; Opaque := "shard-3" |} =
        ObjName {| ObjName := "obj"; Opaque := "job-7|shard-3" |} ∧
      xid ≠ EmptyString ∧ Index_Sepa xid = None)).
Proof.
  apply (recv_invokes_only_registered unit sample_CheckValidUUID sample_registered
           {| ObjName := "obj"; Opaque := "job-7|shard-3" |} None tt
           {| ObjName := "obj"; Opaque := "shard-3" |}).
  reflexivity.
Defined.

(** X21 on the data mover just opened. *)
Lemma registration_life_cycle_witness :
  ∃ sdm1,
    RegRecv "job-7" tt sample_open = Some sdm1 ∧
    recv sample_CheckValidUUID sdm1 {| ObjName := "obj"; Opaque := "job-7|shard-3" |} None =
      Invoke tt (demux {| ObjName := "obj"; Opaque := "job-7|shard-3" |}).2 ∧
    (∀ hdr2, (demux hdr2).1 ≠ "job-7" →
       recv sample_CheckValidUUID sdm1 hdr2 None =
       recv sample_CheckValidUUID sample_open hdr2 None) ∧
    recv sample_CheckValidUUID (UnregRecv "job-7" sdm1)
         {| ObjName := "obj"; Opaque := "job-7|shard-3" |} None =
      RecvErr (ErrNotFound "job-7"
                 (ObjName (demux {| ObjName := "obj"; Opaque := "job-7|shard-3" |}).2)) ∧
    (∀ hdr2, (demux hdr2).1 ≠ "job-7" →
       recv sample_CheckValidUUID (UnregRecv "job-7" sdm1) hdr2 None =
       recv sample_CheckValidUUID sample_open hdr2 None).
Proof.
  apply (registration_life_cycle unit sample_CheckValidUUID sample_open ∅ "job-7" tt
           {| ObjName := "obj"; Opaque := "job-7|shard-3" |});
    reflexivity.
Defined.

(** X22 on the data mover before it is first opened. *)
Lemma closed_is_inert_witness :
  IsActive (SDM0 unit) = false ∧
  (∀ xid cb, RegRecv xid cb (SDM0 unit) = Some (SDM0 unit)) ∧
  (∀ xid, UnregRecv xid (SDM0 unit) = SDM0 unit) ∧
  (∀ order, Close order (SDM0 unit) = (SDM0 unit, None)) ∧
  (∀ hdr err cb hdr', recv sample_CheckValidUUID (SDM0 unit) hdr err ≠ Invoke cb hdr').
Proof.
  apply (closed_is_inert unit sample_CheckValidUUID (SDM0 unit));
    [apply reachable_init | reflexivity].
Defined.

End RecvExamples.

Section HandlerFacts.
Import Notifs.

Variable UnmarshalStats : string -> option (string * bool * bool).

Local Abbreviation handler := (Notifs.handler UnmarshalStats).
Local Abbreviation handleProgress := (Notifs.handleProgress UnmarshalStats).
Local Abbreviation handleFinished := (Notifs.handleFinished UnmarshalStats).

(** A listener obtained from [entry] and written back is what [entry] finds
    next. *)
Lemma entry_store u nl0 nl n :
  entry u n = Some nl0 → UUID nl = u → entry u (store nl n) = Some nl.
Proof.
  unfold entry, listeners_entry, store. intros Hent <-.
  destruct (nls n !! UUID nl) eqn:Hr; simpl.
  - by rewrite lookup_insert_eq.
  - rewrite Hent. simpl. rewrite Hr. by rewrite lookup_insert_eq.
Qed.

(** After [done] the listener is found in the finished table, its callback
    run, or where it was if it was not running. *)
Lemma entry_done u nl now n :
  exclusive n → entry u n = Some nl → UUID nl = u →
  entry u (done nl now n) = Some nl ∨
  entry u (done nl now n) = Some (Callback nl now).
Proof.
  unfold exclusive, entry, listeners_entry, done, del, listeners_del, listeners_add.
  intros Hex Hent <-. rewrite UUID_Callback.
  destruct (nls n !! UUID nl) eqn:Hr; simpl.
  - right. rewrite lookup_delete_eq.
    apply (elem_of_dom_2 (D := gset string)) in Hr.
    destruct (fin n !! UUID nl) eqn:Hf.
    + apply (elem_of_dom_2 (D := gset string)) in Hf. set_solver.
    + simpl. by rewrite lookup_insert_eq.
  - left. by rewrite Hr.
Qed.

Lemma Finished_Callback nl ts : Finished (Callback nl ts) = Finished nl.
Proof. unfold Callback. by destruct (EndTime nl =? 0). Qed.
Lemma Notifiers_Callback nl ts : Notifiers (Callback nl ts) = Notifiers nl.
Proof. unfold Callback. by destruct (EndTime nl =? 0). Qed.

Lemma markFinished_marks nl tid srcErr aborted :
  tid ∈ Finished (markFinished nl tid srcErr aborted).1 ∧
  Notifiers (markFinished nl tid srcErr aborted).1 = Notifiers nl.
Proof.
  unfold markFinished. simpl.
  destruct aborted, srcErr; simpl; split; set_solver.
Qed.

Lemma entry_keyed u nl n :
  keyed (nls n) → keyed (fin n) → entry u n = Some nl → UUID nl = u.
Proof.
  unfold entry, listeners_entry, keyed. intros Hk1 Hk2.
  destruct (nls n !! u) eqn:Hr.
  - intros [= <-]. by apply (Hk1 u).
  - intros Hf. by apply (Hk2 u).
Qed.

(** X23. Once a finished notification from a notifier has gone through the
    handler, every later notification from that notifier for the same uuid,
    progress or finished, is ignored: it finds the sender marked finished (or
    finds what made the first one benign: no such listener, or a sender that
    is not a notifier) and leaves the tables as they are. In particular a
    finished notification delivered twice runs the callback and moves the
    listener once. This holds whenever no uuid is in both tables and every
    listener is filed under its own uuid. *)
Theorem finished_notification_idempotent notifMsg tid now n :
  exclusive n → keyed (nls n) → keyed (fin n) →
  ∀ rt' notifMsg' now',
    msg_UUID notifMsg' = msg_UUID notifMsg →
    handler rt' notifMsg' tid now' (handler Finished_ notifMsg tid now n) =
    handler Finished_ notifMsg tid now n.
Proof.
  intros Hex Hk1 Hk2.
  set (n1 := handler Finished_ notifMsg tid now n).
  assert (entry (msg_UUID notifMsg) n1 = None ∨
          ∃ nl3, entry (msg_UUID notifMsg) n1 = Some nl3 ∧
                 (tid ∉ Notifiers nl3 ∨ tid ∈ Finished nl3)) as Hfixed.
  { subst n1. unfold Notifs.handler.
    destruct (entry (msg_UUID notifMsg) n) as [nl|] eqn:Hent; [|by left].
    pose proof (entry_keyed _ _ _ Hk1 Hk2 Hent) as Huuid.
    case_bool_decide as Htid; simpl; [|right; exists nl; by auto].
    destruct (HasFinished nl tid) eqn:Hfin.
    { right. exists nl. split; [done|]. right.
      unfold HasFinished in Hfin. by apply bool_decide_eq_true in Hfin. }
    unfold Notifs.handleFinished.
    set (errMsg := if bool_decide (msg_ErrMsg notifMsg = EmptyString) then None
                   else Some (msg_ErrMsg notifMsg)).
    set (decoded := match msg_Data notifMsg with
                    | Some d => match UnmarshalStats d with
                                | Some (stats, _, aborted) => (SetStats nl tid stats, aborted)
                                | None => (SetStats nl tid EmptyString, false)
                                end
                    | None => (nl, false)
                    end).
    assert (UUID decoded.1 = UUID nl) as Hu1.
    { subst decoded. destruct (msg_Data notifMsg) as [d|]; [|done].
      by destruct (UnmarshalStats d) as [[[stats f] a]|]. }
    destruct decoded as [nl1 aborted]. simpl in Hu1.
    pose proof (markFinished_marks nl1 tid errMsg aborted) as [Hmark _].
    pose proof (UUID_markFinished nl1 tid errMsg aborted) as Hu2.
    destruct (markFinished nl1 tid errMsg aborted) as [nl2 finished]. simpl in *.
    assert (entry (msg_UUID notifMsg) (store nl2 n) = Some nl2) as Hent1.
    { apply (entry_store _ nl); [done|congruence]. }
    right. destruct finished.
    - assert (exclusive (store nl2 n)) as Hex1 by by apply store_exclusive.
      destruct (entry_done (msg_UUID notifMsg) nl2 now (store nl2 n) Hex1 Hent1
                  ltac:(congruence)) as [He|He].
      + exists nl2. by auto.
      + exists (Callback nl2 now). split; [done|]. right. by rewrite Finished_Callback.
    - exists nl2. by auto. }
  clearbody n1. intros rt' notifMsg' now' Huu. unfold Notifs.handler. rewrite Huu.
  destruct Hfixed as [->|(nl3 & -> & [Hn|Hf])]; [done| |].
  - by rewrite bool_decide_eq_false_2.
  - case_bool_decide; simpl; [|done].
    unfold HasFinished. by rewrite bool_decide_eq_true_2.
Qed.

(** X24. A finished notification without data from a notifier of a running
    listener marks that notifier finished (and records the sender's error,
    if any). If every other notifier has finished already, the listener
    leaves the running table and enters the finished one with its callback
    run; otherwise it stays in the running table, and the finished table is
    not touched. *)
Theorem last_finished_completes n uuid nl tid now notifMsg :
  nls n !! uuid = Some nl → UUID nl = uuid → fin n !! uuid = None →
  tid ∈ Notifiers nl → tid ∉ Finished nl →
  msg_UUID notifMsg = uuid → msg_Data notifMsg = None →
  ∃ nl',
    nl' = (if bool_decide (msg_ErrMsg notifMsg = EmptyString)
           then MarkFinished nl tid
           else SetErr (MarkFinished nl tid) (msg_ErrMsg notifMsg)) ∧
    (Notifiers nl ⊆ {[ tid ]} ∪ Finished nl →
       nls (handler Finished_ notifMsg tid now n) = delete uuid (nls n) ∧
       fin (handler Finished_ notifMsg tid now n) = <[uuid := Callback nl' now]> (fin n)) ∧
    (¬ Notifiers nl ⊆ {[ tid ]} ∪ Finished nl →
       nls (handler Finished_ notifMsg tid now n) = <[uuid := nl']> (nls n) ∧
       fin (handler Finished_ notifMsg tid now n) = fin n).
Proof.
  intros Hr Huuid Hf Htid Hnf Hmsg Hdata.
  eexists. split; [reflexivity|].
  unfold Notifs.handler, entry, listeners_entry. rewrite Hmsg, Hr.
  rewrite bool_decide_eq_true_2 by done. simpl.
  unfold HasFinished. rewrite bool_decide_eq_false_2 by done.
  unfold Notifs.handleFinished. rewrite Hdata.
  unfold markFinished. simpl.
  assert (∀ nl', UUID nl' = uuid →
    store nl' n = {| nls := <[uuid := nl']> (nls n); fin := fin n; smapVer := smapVer n |})
    as Hstore.
  { intros nl' Hu. unfold store. by rewrite Hu, Hr. }
  assert (∀ nl', UUID nl' = uuid →
    done nl' now {| nls := <[uuid := nl']> (nls n); fin := fin n; smapVer := smapVer n |} =
    {| nls := delete uuid (nls n); fin := <[uuid := Callback nl' now]> (fin n);
       smapVer := smapVer n |}) as Hdone.
  { intros nl' Hu. unfold done, del, listeners_del, listeners_add. simpl.
    rewrite UUID_Callback, Hu, lookup_insert_eq. simpl. rewrite Hf. simpl.
    by rewrite delete_insert_eq. }
  case_bool_decide as Herr; simpl.
  - unfold AllFinished. simpl. rewrite orb_false_r. split.
    + intros Hall. rewrite bool_decide_eq_true_2 by done.
      rewrite Hstore by done. by rewrite Hdone.
    + intros Hnot. rewrite bool_decide_eq_false_2 by done. by rewrite Hstore.
  - unfold AllFinished. simpl. rewrite orb_false_r. split.
    + intros Hall. rewrite bool_decide_eq_true_2 by done.
      rewrite Hstore by done. by rewrite Hdone.
    + intros Hnot. rewrite bool_decide_eq_false_2 by done. by rewrite Hstore.
Qed.

End HandlerFacts.

Section SmapFacts.
Import Notifs.

Lemma UUID_SetAborted_SetErr nl e : UUID (SetAborted (SetErr nl e)) = UUID nl.
Proof. done. Qed.

Lemma first_gone_spec smap order sid :
  first_gone smap order = Some sid → sid ∈ order ∧ gone smap sid = true.
Proof.
  unfold first_gone. intros Hhd.
  assert (sid ∈ filter (λ id, gone smap id = true) order) as Hin.
  { destruct (filter _ order) as [|x xs]; simplify_eq/=. apply elem_of_cons. by left. }
  by apply list_elem_of_filter in Hin as [? ?].
Qed.

Lemma first_gone_none smap order :
  first_gone smap order = None → ∀ id, id ∈ order → gone smap id = false.
Proof.
  unfold first_gone. intros Hhd id Hid.
  destruct (gone smap id) eqn:Hg; [|done].
  assert (id ∈ filter (λ id, gone smap id = true) order) as Hin
    by by apply list_elem_of_filter.
  destruct (filter _ order); [by apply elem_of_nil in Hin|done].
Qed.

(** X25. [ListenSmapChanged] acts only on a started cluster and a newer
    cluster map, and then records the map version, so the recorded version
    never goes down. Every running listener with an active notifier (one
    that has not finished) that is missing from the new map or in
    maintenance leaves the running table; it enters the finished table,
    aborted, with the node-not-found error and its callback run, unless the
    finished table already has an entry under its uuid, which is kept. All
    other running listeners are left as they are. With every running
    listener filed under its own uuid the call does not panic. *)
Theorem ListenSmapChanged_aborts_orphaned started smap orders now n :
  keyed (nls n) →
  ∃ n',
    ListenSmapChanged started smap orders now n = Some n' ∧
    smapVer n <= smapVer n' ∧
    (started = false ∨ Version smap <= smapVer n → n' = n) ∧
    (started = true → smapVer n < Version smap →
       smapVer n' = Version smap ∧
       (∀ uuid old, fin n !! uuid = Some old → fin n' !! uuid = Some old) ∧
       ∀ uuid nl, nls n !! uuid = Some nl →
         match first_gone smap (filter (λ id, id ∈ ActiveNotifiers nl) (orders uuid)) with
         | None =>
             (∀ id, id ∈ orders uuid → id ∈ ActiveNotifiers nl → gone smap id = false) ∧
             nls n' !! uuid = Some nl ∧ fin n' !! uuid = fin n !! uuid
         | Some sid =>
             sid ∈ ActiveNotifiers nl ∧ gone smap sid = true ∧
             nls n' !! uuid = None ∧
             (fin n !! uuid = None →
                fin n' !! uuid =
                  Some (Callback (SetAborted (SetErr nl (errNodeNotFound nl sid))) now))
         end).
Proof.
  intros Hkeyed. unfold ListenSmapChanged.
  destruct started; simpl.
  2:{ exists n. split_and!; [done|lia|done|done]. }
  destruct (Z.leb_spec (Version smap) (smapVer n)) as [Hold|Hnew].
  { exists n. split_and!; [done|lia|done|lia]. }
  set (remnl := map_imap _ (nls n)).
  assert (∀ uuid, remnl !! uuid =
            nl ← nls n !! uuid;
            sid ← first_gone smap (filter (λ id, id ∈ ActiveNotifiers nl) (orders uuid));
            Some (SetAborted (SetErr nl (errNodeNotFound nl sid)))) as Hrem.
  { intros uuid. subst remnl. by rewrite map_lookup_imap. }
  case_bool_decide as Hempty.
  { eexists. split; [done|]. simpl. split_and!; [lia|intros [?|?]; [done|lia]|].
    intros _ _. split_and!; [reflexivity|intros ? ? Hx; exact Hx|].
    intros uuid nl Hnl. apply map_size_empty_iff in Hempty.
    rewrite Hempty in Hnl. by rewrite lookup_empty in Hnl. }
  rewrite bool_decide_eq_true_2.
  2:{ intros uuid x Hx. rewrite Hrem in Hx.
      destruct (nls n !! uuid) as [nl|] eqn:Hnl; [|done]. simpl in Hx.
      destruct (first_gone _ _) as [sid|]; [|done]. simpl in Hx.
      injection Hx as <-. exact (Hkeyed uuid nl Hnl). }
  eexists. split; [done|]. simpl.
  split_and!; [lia|intros [?|?]; [done|lia]|].
  intros _ _. split_and!; [reflexivity| |].
  - intros uuid old Hold. apply lookup_union_Some_l. exact Hold.
  - intros uuid nl Hnl.
    specialize (Hrem uuid). rewrite Hnl in Hrem. simpl in Hrem.
    destruct (first_gone _ _) as [sid|] eqn:Hfg; simpl in Hrem.
    + apply first_gone_spec in Hfg as [Hin Hgone].
      apply list_elem_of_filter in Hin as [Hact _].
      split_and!; [done|done| |].
      * apply lookup_difference_None. right. by rewrite Hrem.
      * intros Hfin. rewrite lookup_union_r by done.
        rewrite lookup_fmap, Hrem. done.
    + split_and!.
      * intros id Hid Hact. apply (first_gone_none _ _ Hfg).
        by apply list_elem_of_filter.
      * apply lookup_difference_Some. by split.
      * destruct (fin n !! uuid) as [old|] eqn:Hf.
        -- by apply lookup_union_Some_l.
        -- apply lookup_union_None. split; [done|]. by rewrite lookup_fmap, Hrem.
Qed.

End SmapFacts.

Section HousekeepFacts.
Import Notifs.

Variable UnmarshalStats : string -> option (string * bool * bool).
Variable progressInterval : Z.

Local Abbreviation syncStats := (Notifs.syncStats UnmarshalStats progressInterval).
Local Abbreviation syncStats_step := (Notifs.syncStats_step UnmarshalStats progressInterval).
Local Abbreviation housekeep := (Notifs.housekeep UnmarshalStats progressInterval).

Lemma keyed_insert (l : listeners) nl : keyed l → keyed (<[UUID nl := nl]> l).
Proof. intros Hk. by apply map_Forall_insert_2. Qed.

Lemma keyed_delete (l : listeners) u : keyed l → keyed (delete u l).
Proof. intros Hk. by apply map_Forall_delete. Qed.

Lemma store_keyed nl n :
  keyed (nls n) → keyed (fin n) → keyed (nls (store nl n)) ∧ keyed (fin (store nl n)).
Proof.
  intros Hk1 Hk2. unfold store.
  destruct (nls n !! UUID nl); simpl; [split; [by apply keyed_insert|done]|].
  destruct (fin n !! UUID nl); simpl; [split; [done|by apply keyed_insert]|done].
Qed.

Lemma done_keyed nl now n :
  keyed (nls n) → keyed (fin n) →
  keyed (nls (done nl now n)) ∧ keyed (fin (done nl now n)).
Proof.
  intros Hk1 Hk2. unfold done, del, listeners_del, listeners_add.
  destruct (nls n !! UUID nl); simpl; [|done].
  split; [by apply keyed_delete|].
  destruct (fin n !! UUID (Callback nl now)); simpl; [done|by apply keyed_insert].
Qed.

Lemma store_fin_other nl n u : UUID nl ≠ u → fin (store nl n) !! u = fin n !! u.
Proof.
  intros Hne. unfold store.
  destruct (nls n !! UUID nl); simpl; [done|].
  destruct (fin n !! UUID nl); simpl; [|done]. by rewrite lookup_insert_ne.
Qed.

Lemma done_fin_other nl now n u : UUID nl ≠ u → fin (done nl now n) !! u = fin n !! u.
Proof.
  intros Hne. unfold done, del, listeners_del, listeners_add. rewrite UUID_Callback.
  destruct (nls n !! UUID nl); simpl; [|done].
  destruct (fin n !! UUID nl); simpl; [done|]. by rewrite lookup_insert_ne.
Qed.

Lemma syncStats_keyed nl results now n :
  keyed (nls n) → keyed (fin n) →
  keyed (nls (syncStats nl results now n)) ∧ keyed (fin (syncStats nl results now n)).
Proof.
  intros Hk1 Hk2. unfold Notifs.syncStats. destruct results as [rs|]; [|done].
  destruct (foldl _ _ rs) as [nl1 finished].
  destruct (store_keyed nl1 n Hk1 Hk2) as [Hs1 Hs2].
  destruct finished; [by apply done_keyed|done].
Qed.

Lemma syncStats_fin_other nl results now n u :
  UUID nl ≠ u → fin (syncStats nl results now n) !! u = fin n !! u.
Proof.
  intros Hne. unfold Notifs.syncStats. destruct results as [rs|]; [|done].
  pose proof (UUID_syncStats_loop UnmarshalStats progressInterval now rs (nl, false)) as Hu.
  destruct (foldl _ _ rs) as [nl1 finished]. simpl in Hu.
  destruct finished.
  - rewrite done_fin_other by congruence. apply store_fin_other. congruence.
  - apply store_fin_other. congruence.
Qed.

Lemma entry_uuid u nl n :
  keyed (nls n) → keyed (fin n) → entry u n = Some nl → UUID nl = u.
Proof.
  unfold entry, listeners_entry, keyed. intros Hk1 Hk2.
  destruct (nls n !! u) eqn:Hr.
  - intros [= <-]. by apply (Hk1 u).
  - intros Hf. by apply (Hk2 u).
Qed.

(** The pull loop of [housekeep] leaves alone the finished entries whose
    uuid is not the uuid of a running listener. *)
Lemma housekeep_sync_fin now results (running : listeners) u (run_order : list string) :
  u ∉ dom running →
  ∀ acc, keyed (nls acc) → keyed (fin acc) →
  fin (foldl (λ acc uuid,
                match running !! uuid with
                | Some _ =>
                    match entry uuid acc with
                    | Some nl => syncStats nl (results uuid) now acc
                    | None => acc
                    end
                | None => acc
                end) acc run_order) !! u = fin acc !! u.
Proof.
  intros Hu. induction run_order as [|uuid run_order IH]; intros acc Hk1 Hk2; [done|].
  cbn [foldl].
  destruct (running !! uuid) as [x|] eqn:Hrun; [|by apply IH].
  destruct (entry uuid acc) as [nl|] eqn:Hent; [|by apply IH].
  pose proof (entry_uuid _ _ _ Hk1 Hk2 Hent) as Huuid.
  destruct (syncStats_keyed nl (results uuid) now acc Hk1 Hk2) as [Hk1' Hk2'].
  rewrite IH by done. apply syncStats_fin_other.
  intros Heq. apply Hu. rewrite <- Heq, Huuid.
  by apply (elem_of_dom_2 (D := gset string)) in Hrun.
Qed.

(** The eviction loop of [housekeep]. *)
Lemma evict_lookup (now : Z) (fin_order : list listener) u :
  ∀ acc : listeners,
  foldl (λ acc nl,
           if notifsRemoveMult * notifsHousekeepT <? now - EndTime nl
           then (listeners_del acc nl).1 else acc) acc fin_order !! u =
  if bool_decide (Exists (λ x, UUID x = u ∧
                               notifsRemoveMult * notifsHousekeepT < now - EndTime x)
                         fin_order)
  then None else acc !! u.
Proof.
  induction fin_order as [|nl fin_order IH]; intros acc.
  - cbn [foldl]. rewrite bool_decide_eq_false_2; [done|]. by intros ?%Exists_nil.
  - cbn [foldl]. rewrite IH.
    destruct (Z.ltb_spec (notifsRemoveMult * notifsHousekeepT) (now - EndTime nl)) as [Hold|Hyoung].
    + unfold listeners_del.
      destruct (decide (UUID nl = u)) as [Heq|Hne].
      * rewrite (bool_decide_eq_true_2 (Exists _ (nl :: fin_order))).
        2:{ apply Exists_cons. by left. }
        case_bool_decide; [done|].
        destruct (acc !! UUID nl) eqn:Ha; simpl; [subst u; apply lookup_delete_eq|].
        by rewrite <- Heq.
      * assert ((match acc !! UUID nl with
                 | Some _ => (delete (UUID nl) acc, true)
                 | None => (acc, false)
                 end).1 !! u = acc !! u) as ->.
        { destruct (acc !! UUID nl); simpl; [|done]. by apply lookup_delete_ne. }
        case_bool_decide as H1; case_bool_decide as H2; try done; exfalso.
        -- apply H2. apply Exists_cons. by right.
        -- apply Exists_cons in H2 as [[? _]|?]; done.
    + case_bool_decide as H1; case_bool_decide as H2; try done; exfalso.
      * apply H2. apply Exists_cons. by right.
      * apply Exists_cons in H2 as [[_ ?]|?]; [lia|done].
Qed.

(** X26. Retention of finished listeners: [housekeep] removes from the
    finished table exactly the listeners that ended more than
    [notifsRemoveMult * notifsHousekeepT] (six minutes) before now, and
    leaves every other finished listener as it is, whatever the pull of
    stats from the running listeners does in the same pass (no uuid being in
    both tables, every listener filed under its own uuid). *)
Theorem housekeep_retention now fin_order run_order results n u nl :
  exclusive n → keyed (nls n) → keyed (fin n) →
  range_of (fin n) fin_order →
  fin n !! u = Some nl →
  fin (housekeep now fin_order run_order results n) !! u =
    if bool_decide (6 * minute < now - EndTime nl) then None else Some nl.
Proof.
  intros Hex Hk1 Hk2 Hrange Hu. unfold Notifs.housekeep.
  set (fin1 := foldl _ (fin n) fin_order).
  assert (fin1 !! u = if bool_decide (6 * minute < now - EndTime nl) then None else Some nl)
    as Hfin1.
  { subst fin1. rewrite evict_lookup, Hu.
    change (notifsRemoveMult * notifsHousekeepT) with (6 * minute).
    case_bool_decide as H1; case_bool_decide as H2; try done; exfalso.
    - apply Exists_exists in H1 as (x & Hx & Hxu & Hold).
      apply (range_of_elem (fin n) fin_order x Hrange) in Hx as (k & Hk).
      assert (k = u) as -> by (rewrite <- Hxu; symmetry; by apply (Hk2 k)).
      by simplify_eq.
    - apply H1. apply Exists_exists. exists nl. split_and!; [|by apply (Hk2 u)|done].
      apply (range_of_elem (fin n) fin_order nl Hrange). by exists u. }
  assert (keyed fin1) as Hkf.
  { intros k x Hk. apply (Hk2 k). subst fin1.
    rewrite evict_lookup in Hk. by case_bool_decide. }
  rewrite <- Hfin1.
  destruct (bool_decide (size (nls {| nls := nls n; fin := fin1; smapVer := smapVer n |}) = 0%nat));
    [done|].
  rewrite housekeep_sync_fin; [done| |done|done].
  apply (elem_of_dom_2 (D := gset string)) in Hu. unfold exclusive in Hex. set_solver.
Qed.

End HousekeepFacts.

Section ListenerExamples.
Import Notifs.

Lemma sample_notifs_keyed : keyed (nls sample_notifs) ∧ keyed (fin sample_notifs).
Proof.
  split; intros u nl Hu; simpl in Hu.
  - apply lookup_singleton_Some in Hu as [<- <-]. done.
  - apply lookup_singleton_Some in Hu as [<- <-]. done.
Qed.

(** X23 on the sample fabric: a second finished notification for ["job-1"]
    from ["t1"]. *)
Lemma finished_notification_idempotent_witness :
  handler sample_UnmarshalStats Finished_ (sample_finished_msg "job-1") "t1" 20
    (handler sample_UnmarshalStats Finished_ (sample_finished_msg "job-1") "t1" 10
       sample_notifs) =
  handler sample_UnmarshalStats Finished_ (sample_finished_msg "job-1") "t1" 10
    sample_notifs.
Proof.
  apply (finished_notification_idempotent sample_UnmarshalStats
           (sample_finished_msg "job-1") "t1" 10 sample_notifs
           sample_notifs_exclusive (proj1 sample_notifs_keyed) (proj2 sample_notifs_keyed)
           Finished_ (sample_finished_msg "job-1") 20).
  reflexivity.
Defined.

(** X24 on the sample fabric: ["t1"] is the only notifier of ["job-1"]. *)
Lemma last_finished_completes_witness :
  ∃ nl',
    nl' = (if bool_decide (msg_ErrMsg (sample_finished_msg "job-1") = EmptyString)
           then MarkFinished (sample_listener "job-1" "single" {[ "t1" ]}) "t1"
           else SetErr (MarkFinished (sample_listener "job-1" "single" {[ "t1" ]}) "t1")
                       (msg_ErrMsg (sample_finished_msg "job-1"))) ∧
    (Notifiers (sample_listener "job-1" "single" {[ "t1" ]}) ⊆
       {[ "t1" ]} ∪ Finished (sample_listener "job-1" "single" {[ "t1" ]}) →
       nls (handler sample_UnmarshalStats Finished_ (sample_finished_msg "job-1") "t1" 10
              sample_notifs) = delete "job-1" (nls sample_notifs) ∧
       fin (handler sample_UnmarshalStats Finished_ (sample_finished_msg "job-1") "t1" 10
              sample_notifs) = <["job-1" := Callback nl' 10]> (fin sample_notifs)) ∧
    (¬ Notifiers (sample_listener "job-1" "single" {[ "t1" ]}) ⊆
       {[ "t1" ]} ∪ Finished (sample_listener "job-1" "single" {[ "t1" ]}) →
       nls (handler sample_UnmarshalStats Finished_ (sample_finished_msg "job-1") "t1" 10
              sample_notifs) = <["job-1" := nl']> (nls sample_notifs) ∧
       fin (handler sample_UnmarshalStats Finished_ (sample_finished_msg "job-1") "t1" 10
              sample_notifs) = fin sample_notifs).
Proof.
  apply (last_finished_completes sample_UnmarshalStats sample_notifs "job-1"
           (sample_listener "job-1" "single" {[ "t1" ]}) "t1" 10
           (sample_finished_msg "job-1"));
    try reflexivity;
    first [apply not_elem_of_empty | apply elem_of_singleton; reflexivity].
Defined.

(** X25 on the sample fabric and a newer cluster map without ["t1"]. *)
Lemma ListenSmapChanged_aborts_orphaned_witness :
  ∃ n',
    ListenSmapChanged true sample_smap (λ _, ["t1"]) 10 sample_notifs = Some n' ∧
    nls n' !! "job-1" = None ∧
    fin n' !! "job-1" =
      Some (Callback (SetAborted (SetErr (sample_listener "job-1" "single" {[ "t1" ]})
              (errNodeNotFound (sample_listener "job-1" "single" {[ "t1" ]}) "t1"))) 10) ∧
    smapVer n' = 4.
Proof.
  destruct (ListenSmapChanged_aborts_orphaned true sample_smap (λ _, ["t1"]) 10
              sample_notifs (proj1 sample_notifs_keyed))
    as (n' & Hrun & _ & _ & Hnew).
  destruct (Hnew eq_refl ltac:(simpl; lia)) as (Hver & _ & Hall).
  specialize (Hall "job-1" (sample_listener "job-1" "single" {[ "t1" ]}) eq_refl).
  assert (first_gone sample_smap
            (filter (λ id, id ∈ ActiveNotifiers (sample_listener "job-1" "single" {[ "t1" ]}))
                    ["t1"]) = Some "t1") as Hfg by (vm_compute; reflexivity).
  rewrite Hfg in Hall. destruct Hall as (_ & _ & Hnls & Hfin).
  exists n'. split_and!; [exact Hrun|exact Hnls|exact (Hfin eq_refl)|exact Hver].
Defined.

Lemma sample_fin_order :
  range_of (fin sample_notifs) [sample_listener "job-2" "query" {[ "t1"; "t2" ]}].
Proof. unfold range_of. simpl. by rewrite map_to_list_singleton. Qed.

(** X26 on the sample fabric, seven minutes after ["job-2"] ended. *)
Lemma housekeep_retention_witness :
  fin (housekeep sample_UnmarshalStats 0 (7 * minute)
         [sample_listener "job-2" "query" {[ "t1"; "t2" ]}] ["job-1"] (λ _, None)
         sample_notifs) !! "job-2" =
    if bool_decide (6 * minute <
                    7 * minute - EndTime (sample_listener "job-2" "query" {[ "t1"; "t2" ]}))
    then None else Some (sample_listener "job-2" "query" {[ "t1"; "t2" ]}).
Proof.
  apply (housekeep_retention sample_UnmarshalStats 0 (7 * minute) _ ["job-1"] (λ _, None)
           sample_notifs "job-2" (sample_listener "job-2" "query" {[ "t1"; "t2" ]})
           sample_notifs_exclusive (proj1 sample_notifs_keyed) (proj2 sample_notifs_keyed)
           sample_fin_order).
  reflexivity.
Defined.

End ListenerExamples.

Section AppendObjFacts.
Import Downloader Dispatcher ProxyBulk.

Lemma append_obj_None si o (reqs : requests) :
  append_obj si o reqs = None ↔ si ∉ reqs.*1.
Proof.
  induction reqs as [|[si' b] reqs IH]; simpl.
  - split; [intros _ H; by apply elem_of_nil in H|done].
  - destruct (decide (si' = si)) as [->|Hne].
    + split; [done|]. intros H. exfalso. apply H. apply elem_of_cons. by left.
    + rewrite fmap_None, IH, not_elem_of_cons. naive_solver.
Qed.

Lemma append_obj_Some si o (reqs reqs' : requests) :
  append_obj si o reqs = Some reqs' → NoDup reqs.*1 →
  reqs'.*1 = reqs.*1 ∧
  ∀ si' b', (si', b') ∈ reqs' →
    (si' ≠ si ∧ (si', b') ∈ reqs) ∨
    (si' = si ∧ ∃ b, (si, b) ∈ reqs ∧
       b' = {| ID := ID b; Bucket := Bucket b; BckProvider := BckProvider b;
               Timeout := Timeout b; Objs := Objs b ++ [o] |}).
Proof.
  revert reqs'. induction reqs as [|[si0 b0] reqs IH]; intros reqs'; simpl; [done|].
  intros Happ Hnd. apply NoDup_cons in Hnd as [Hnotin Hnd].
  destruct (decide (si0 = si)) as [->|Hne].
  - injection Happ as <-. split; [done|].
    intros si' b' Hin. apply elem_of_cons in Hin as [[= -> ->]|Hin].
    + right. split; [done|]. exists b0. split; [apply elem_of_cons; by left|done].
    + left. split.
      * intros ->. apply Hnotin. apply list_elem_of_fmap. by exists (si, b').
      * apply elem_of_cons. by right.
  - destruct (append_obj si o reqs) as [r|] eqn:Hr; [|done]. simpl in Happ.
    injection Happ as <-. destruct (IH r eq_refl Hnd) as [Hkeys Hall].
    split; [rewrite !fmap_cons; by rewrite Hkeys|].
    intros si' b' Hin. apply elem_of_cons in Hin as [[= -> ->]|Hin].
    + left. split; [done|]. apply elem_of_cons. by left.
    + destruct (Hall si' b' Hin) as [[? ?]|[-> (b & Hb & ->)]].
      * left. split; [done|]. apply elem_of_cons. by right.
      * right. split; [done|]. exists b. split; [apply elem_of_cons; by right|done].
Qed.

End AppendObjFacts.

Section BulkFacts.
Import Downloader Dispatcher ProxyBulk.

Variable hrwTarget : string -> string -> Hrw.Snode * string.
Variable targetDownloadRequest : string -> Hrw.Snode -> DlBody -> Proxy.dlResponse.

Local Abbreviation bulk_step := (ProxyBulk.bulk_step hrwTarget).
Local Abbreviation bulk_inv := (ProxyBulk.bulk_inv hrwTarget).
Local Abbreviation bulkTargetRequest := (ProxyBulk.bulkTargetRequest hrwTarget).
Local Abbreviation bulkDownloadProcessor :=
  (ProxyBulk.bulkDownloadProcessor hrwTarget targetDownloadRequest).

Lemma bulk_step_ok id_ bucket_ prov timeout_ seen reqs kv :
  bulk_inv id_ bucket_ prov timeout_ seen reqs →
  (hrwTarget bucket_ kv.1).2 = EmptyString →
  ∃ reqs', bulk_step id_ bucket_ prov timeout_ (inr reqs) kv = inr reqs' ∧
           bulk_inv id_ bucket_ prov timeout_ (seen ++ [kv]) reqs'.
Proof.
  intros (Hnd & Hbodies & Hcover) Herr.
  unfold ProxyBulk.bulk_step. destruct kv as [objname link]. simpl in Herr.
  destruct (hrwTarget bucket_ objname) as [si errstr] eqn:Hhrw. simpl in Herr. subst errstr.
  simpl.
  assert (∀ si', filter (λ kv, (hrwTarget bucket_ kv.1).1 = si') (seen ++ [(objname, link)]) =
            filter (λ kv, (hrwTarget bucket_ kv.1).1 = si') seen ++
            (if decide (si = si') then [(objname, link)] else [])) as Hfilter.
  { intros si'. rewrite filter_snoc. simpl. rewrite Hhrw. simpl.
    by destruct (decide (si = si')). }
  destruct (append_obj si {| Objname := objname; Link := link |} reqs) as [reqs'|] eqn:Happ.
  - exists reqs'. split; [done|].
    destruct (append_obj_Some _ _ _ _ Happ Hnd) as [Hkeys Hall].
    split_and!.
    + by rewrite Hkeys.
    + intros si' b' Hin. rewrite Hfilter.
      destruct (Hall si' b' Hin) as [[Hne Hin']|[-> (b & Hb & ->)]].
      * destruct (Hbodies si' b' Hin') as (? & ? & ? & ? & ? & Hobjs).
        rewrite decide_False by (intros ->; done). rewrite app_nil_r. done.
      * destruct (Hbodies si b Hb) as (? & ? & ? & ? & ? & Hobjs). simpl.
        rewrite decide_True by done. rewrite fmap_app, <- Hobjs. simpl.
        split_and!; try done. by destruct (Objs b).
    + intros kv Hkv. rewrite Hkeys. apply elem_of_app in Hkv as [Hkv|Hkv]; [by apply Hcover|].
      apply list_elem_of_singleton in Hkv as ->. simpl. rewrite Hhrw. simpl.
      destruct (decide (si ∈ reqs.*1)) as [?|Hn]; [done|].
      apply (append_obj_None si {| Objname := objname; Link := link |}) in Hn. congruence.
  - apply append_obj_None in Happ. eexists. split; [done|]. split_and!.
    + rewrite fmap_app. simpl. apply NoDup_app. split_and!; [done| |apply NoDup_singleton].
      intros x Hx ->%list_elem_of_singleton. done.
    + intros si' b' Hin. rewrite Hfilter.
      apply elem_of_app in Hin as [Hin|Hin].
      * destruct (Hbodies si' b' Hin) as (? & ? & ? & ? & ? & Hobjs).
        rewrite decide_False; [by rewrite app_nil_r|].
        intros <-. apply Happ. apply list_elem_of_fmap. by exists (si, b').
      * apply list_elem_of_singleton in Hin as [= -> ->]. simpl.
        rewrite decide_True by done.
        assert (filter (λ kv, (hrwTarget bucket_ kv.1).1 = si) seen = []) as ->.
        { destruct (filter _ seen) as [|kv l] eqn:Hf; [done|]. exfalso.
          assert (kv ∈ filter (λ kv, (hrwTarget bucket_ kv.1).1 = si) seen) as Hkv
            by (rewrite Hf; apply elem_of_cons; by left).
          apply list_elem_of_filter in Hkv as [Heq Hkv]. apply Happ.
          rewrite <- Heq. by apply Hcover. }
        done.
    + intros kv Hkv. rewrite fmap_app. apply elem_of_app.
      apply elem_of_app in Hkv as [Hkv|Hkv]; [left; by apply Hcover|].
      apply list_elem_of_singleton in Hkv as ->. right. simpl. rewrite Hhrw.
      by apply list_elem_of_singleton.
Qed.

Lemma bulk_step_err id_ bucket_ prov timeout_ e order :
  foldl (bulk_step id_ bucket_ prov timeout_) (inl e) order = inl e.
Proof. induction order as [|kv order IH]; [done|]. simpl. apply IH. Qed.

(** The first loop of [bulkDownloadProcessor]: it returns the error string
    of the first object that [hrwTarget] cannot place, or else the bodies. *)
Lemma bulk_loop id_ bucket_ prov timeout_ order : ∀ seen reqs,
  bulk_inv id_ bucket_ prov timeout_ seen reqs →
  match foldl (bulk_step id_ bucket_ prov timeout_) (inr reqs) order with
  | inl e => ∃ kv, kv ∈ order ∧ (hrwTarget bucket_ kv.1).2 = e ∧ e ≠ EmptyString
  | inr reqs' =>
      bulk_inv id_ bucket_ prov timeout_ (seen ++ order) reqs' ∧
      ∀ kv, kv ∈ order → (hrwTarget bucket_ kv.1).2 = EmptyString
  end.
Proof.
  induction order as [|kv order IH]; intros seen reqs Hinv.
  - simpl. rewrite app_nil_r. split; [done|]. intros kv Hkv. by apply elem_of_nil in Hkv.
  - cbn [foldl].
    destruct (decide ((hrwTarget bucket_ kv.1).2 = EmptyString)) as [Hok|Hbad].
    + destruct (bulk_step_ok _ _ _ _ _ _ kv Hinv Hok) as (reqs' & -> & Hinv').
      specialize (IH _ _ Hinv').
      destruct (foldl _ (inr reqs') order) as [e|reqs''].
      * destruct IH as (kv' & ? & ? & ?). exists kv'. split; [apply elem_of_cons; by right|done].
      * destruct IH as [Hinv'' Hall]. rewrite <- app_assoc in Hinv''. split; [done|].
        intros kv' Hkv'. apply elem_of_cons in Hkv' as [->|?]; [done|by apply Hall].
    + assert (bulk_step id_ bucket_ prov timeout_ (inr reqs) kv =
                inl (hrwTarget bucket_ kv.1).2) as ->.
      { unfold ProxyBulk.bulk_step. destruct kv as [objname link]. simpl in *.
        destruct (hrwTarget bucket_ objname) as [si errstr]. simpl in *.
        by rewrite bool_decide_eq_false_2. }
      rewrite bulk_step_err. exists kv. split; [apply elem_of_cons; by left|done].
Qed.

(** X27. How [bulkDownloadProcessor] shards a job: when every object can be
    placed, there is exactly one request body per target that [hrwTarget]
    picked for some object; each body carries the job's id, bucket, provider
    and timeout, and holds exactly the objects placed on its target, in the
    order the objects were visited, so every object of the job is in the
    body of its target and in no other. *)
Theorem bulk_sharding id_ bucket_ bckProvider_ timeout_ objects_order reqs :
  bulkTargetRequest id_ bucket_ bckProvider_ timeout_ objects_order = inr reqs →
  NoDup reqs.*1 ∧
  (∀ si b, (si, b) ∈ reqs →
     ID b = id_ ∧ Bucket b = bucket_ ∧ BckProvider b = bckProvider_ ∧
     Timeout b = timeout_ ∧ Objs b ≠ [] ∧
     Objs b = dlObj_of <$>
                filter (λ kv, (hrwTarget bucket_ kv.1).1 = si) objects_order) ∧
  (∀ kv, kv ∈ objects_order →
     ∃ b, ((hrwTarget bucket_ kv.1).1, b) ∈ reqs ∧ dlObj_of kv ∈ Objs b) ∧
  (∀ kv si b, (si, b) ∈ reqs → dlObj_of kv ∈ Objs b →
     si = (hrwTarget bucket_ kv.1).1).
Proof.
  unfold ProxyBulk.bulkTargetRequest. intros Hrun.
  assert (bulk_inv id_ bucket_ bckProvider_ timeout_ [] []) as Hinit.
  { split_and!.
    - apply NoDup_nil_2.
    - intros si b H. by apply elem_of_nil in H.
    - intros kv H. by apply elem_of_nil in H. }
  pose proof (bulk_loop id_ bucket_ bckProvider_ timeout_ objects_order [] [] Hinit) as Hloop.
  rewrite Hrun in Hloop. destruct Hloop as [(Hnd & Hbodies & Hcover) _]. simpl in *.
  split_and!; [done|done| |].
  - intros kv Hkv. specialize (Hcover kv Hkv).
    apply list_elem_of_fmap in Hcover as ([si b] & Hsi & Hin). simpl in Hsi. subst si.
    exists b. split; [done|].
    destruct (Hbodies _ _ Hin) as (_ & _ & _ & _ & _ & ->).
    apply list_elem_of_fmap. exists kv. split; [done|]. by apply list_elem_of_filter.
  - intros kv si b Hin Hobj.
    destruct (Hbodies _ _ Hin) as (_ & _ & _ & _ & _ & Hobjs). rewrite Hobjs in Hobj.
    apply list_elem_of_fmap in Hobj as (kv' & Heq & Hkv').
    apply list_elem_of_filter in Hkv' as [Hsi Hkv'].
    assert (kv'.1 = kv.1) as Hname by (unfold dlObj_of in Heq; by injection Heq).
    by rewrite <- Hname.
Qed.

(** X28. The result of [bulkDownloadProcessor]: if [hrwTarget] fails for an
    object, the job is refused with that placement error (of the first such
    object in visiting order) before any request is made; otherwise one POST
    goes to every target that has a body, and the call returns nil exactly
    when none of the replies carries an error, else the error that lists the
    failures (those of the replies, in the order read). *)
Theorem bulk_result id_ bucket_ bckProvider_ timeout_ objects_order arrive :
  (∀ reqs, arrive reqs ≡ₚ reqs) →
  ((∃ kv, kv ∈ objects_order ∧ (hrwTarget bucket_ kv.1).2 ≠ EmptyString) →
     ∃ kv, kv ∈ objects_order ∧ (hrwTarget bucket_ kv.1).2 ≠ EmptyString ∧
       bulkDownloadProcessor id_ bucket_ bckProvider_ timeout_ objects_order arrive =
         Some (ErrPlacement (hrwTarget bucket_ kv.1).2)) ∧
  ((∀ kv, kv ∈ objects_order → (hrwTarget bucket_ kv.1).2 = EmptyString) →
     ∃ reqs,
       bulkTargetRequest id_ bucket_ bckProvider_ timeout_ objects_order = inr reqs ∧
       (bulkDownloadProcessor id_ bucket_ bckProvider_ timeout_ objects_order arrive = None ↔
          ∀ si b, (si, b) ∈ reqs →
            Proxy.err (targetDownloadRequest MethodPost si b) = None) ∧
       (∀ e, bulkDownloadProcessor id_ bucket_ bckProvider_ timeout_ objects_order arrive =
               Some e →
          ∃ failures, e = ErrFailed failures ∧
            failures ≡ₚ omap (λ '(si, b), Proxy.err (targetDownloadRequest MethodPost si b))
                             reqs)).
Proof.
  intros Harrive.
  assert (bulk_inv id_ bucket_ bckProvider_ timeout_ [] []) as Hinit.
  { split_and!.
    - apply NoDup_nil_2.
    - intros si b H. by apply elem_of_nil in H.
    - intros kv H. by apply elem_of_nil in H. }
  pose proof (bulk_loop id_ bucket_ bckProvider_ timeout_ objects_order [] [] Hinit) as Hloop.
  unfold ProxyBulk.bulkDownloadProcessor, ProxyBulk.bulkTargetRequest.
  destruct (foldl _ (inr []) objects_order) as [e|reqs].
  - destruct Hloop as (kv & Hkv & <- & Hne). split.
    + intros _. by exists kv.
    + intros Hall. by specialize (Hall kv Hkv).
  - destruct Hloop as [_ Hall]. split.
    + intros (kv & Hkv & Hne). by specialize (Hall kv Hkv).
    + intros _. exists reqs. split; [done|].
      set (f := λ '(si, b), Proxy.err (targetDownloadRequest MethodPost si b)).
      assert (omap f (arrive reqs) ≡ₚ omap f reqs) as Hperm by by rewrite Harrive.
      split.
      * destruct (omap f (arrive reqs)) as [|x l] eqn:Hf; simpl.
        -- split; [|done]. intros _ si b Hin.
           symmetry in Hperm. apply Permutation_nil_r in Hperm.
           destruct (f (si, b)) as [err|] eqn:Herr; [|done]. exfalso.
           assert (err ∈ omap f reqs) as Hin'.
           { apply list_elem_of_omap. by exists (si, b). }
           rewrite Hperm in Hin'. by apply elem_of_nil in Hin'.
        -- split; [done|]. intros Hnone. exfalso.
           assert (x ∈ omap f reqs) as Hx by (rewrite <- Hperm; apply elem_of_cons; by left).
           apply list_elem_of_omap in Hx as ([si b] & Hin & Hsome).
           specialize (Hnone si b Hin). simpl in Hsome. congruence.
      * intros e. destruct (omap f (arrive reqs)) as [|x l] eqn:Hf; simpl; [done|].
        intros [= <-]. by exists (x :: l).
Qed.

End BulkFacts.

Section MultiFacts.
Import ProxyBulk.

Variable Base : string -> string.

Local Abbreviation multi_array_step := (ProxyBulk.multi_array_step Base).
Local Abbreviation multiObjects := (ProxyBulk.multiObjects Base).

Lemma multi_array_err e (vals : list json) :
  foldl multi_array_step (inl e) vals = inl e.
Proof. induction vals as [|v vals IH]; [done|]. simpl. apply IH. Qed.

(** The array loop of [multiDownloadHandler] over links that all have an
    object name. *)
Lemma multi_array_loop (links : list string) : ∀ acc : gmap string string,
  Forall (λ l, Base l ≠ "." ∧ Base l ≠ "/") links →
  ∃ objects,
    foldl multi_array_step (inr acc) (JString <$> links) = inr objects ∧
    ∀ name, objects !! name =
      match last (filter (λ l, Base l = name) links) with
      | Some l => Some l
      | None => acc !! name
      end.
Proof.
  induction links as [|l links IH]; intros acc Hall.
  - exists acc. split; [done|]. intros name. done.
  - apply Forall_cons in Hall as [[Hdot Hslash] Hall].
    rewrite fmap_cons. cbn [foldl]. unfold ProxyBulk.multi_array_step at 2.
    rewrite !bool_decide_eq_false_2 by done. simpl.
    destruct (IH (<[Base l := l]> acc) Hall) as (objects & Hrun & Hlook).
    exists objects. split; [done|]. intros name. rewrite Hlook.
    rewrite filter_cons. destruct (decide (Base l = name)) as [Heq|Hne].
    + rewrite last_cons.
      destruct (last (filter (λ l0, Base l0 = name) links)); [done|].
      rewrite Heq. apply lookup_insert_eq.
    + destruct (last (filter (λ l0, Base l0 = name) links)); [done|].
      by apply lookup_insert_ne.
Qed.

(** X29. A multi download request whose body is an array of links is turned
    into a job with one object per base name: the object name is
    [path.Base] of the link, and of several links with the same base name
    the last one in the array is the one downloaded. The request is refused,
    naming the first offending link, as soon as a link has the base name
    ["."] or ["/"]. *)
Theorem multi_array_objects (links : list string) :
  (Forall (λ l, Base l ≠ "." ∧ Base l ≠ "/") links →
     ∃ objects,
       multiObjects (PArray (JString <$> links)) = inr objects ∧
       ∀ name, objects !! name = last (filter (λ l, Base l = name) links)) ∧
  (∀ pre l post,
     links = pre ++ l :: post →
     Forall (λ l, Base l ≠ "." ∧ Base l ≠ "/") pre →
     Base l = "." ∨ Base l = "/" →
     multiObjects (PArray (JString <$> links)) = inl (ErrNoObjName l)).
Proof.
  split.
  - intros Hall. destruct (multi_array_loop links ∅ Hall) as (objects & Hrun & Hlook).
    exists objects. split; [done|]. intros name. rewrite Hlook.
    destruct (last _); [done|apply lookup_empty].
  - intros pre l post -> Hpre Hbad. simpl.
    rewrite fmap_app, foldl_app, fmap_cons. cbn [foldl].
    destruct (multi_array_loop pre ∅ Hpre) as (objects & -> & _).
    unfold ProxyBulk.multi_array_step at 2.
    assert (bool_decide (Base l = ".") || bool_decide (Base l = "/") = true) as ->.
    { destruct Hbad as [-> | ->]; [done|]. apply orb_true_r. }
    apply multi_array_err.
Qed.

End MultiFacts.

Section FindFacts.
Import Notifs.

Variable Bck : Type.
Variable Bcks : listener -> list Bck.
Variable Contains : Bck -> Bck -> bool.
Variable IsEmpty : Bck -> bool.
Variable listener_Finished : listener -> bool.

Local Abbreviation nlFilter_match := (Notifs.nlFilter_match Bck Bcks Contains IsEmpty).
Local Abbreviation find_step := (Notifs.find_step Bck Bcks Contains IsEmpty listener_Finished).
Local Abbreviation listeners_find :=
  (Notifs.listeners_find Bck Bcks Contains IsEmpty listener_Finished).
Local Abbreviation find := (Notifs.find Bck Bcks Contains IsEmpty listener_Finished).

(** The loop of [listeners.find] over a table of finished listeners never
    returns early and keeps the matching listener that ended last. *)
Lemma find_loop_finished (flt : nlFilter Bck) (order : list listener) :
  (∀ x, x ∈ order → listener_Finished x = true ∧ 0 <= EndTime x) →
  ∃ ftime found,
    foldl (find_step flt) (0, None, false) order = (ftime, found, false) ∧
    match found with
    | Some nl =>
        ftime = EndTime nl ∧ nl ∈ order ∧ nlFilter_match flt nl = true ∧
        ∀ x, x ∈ order → nlFilter_match flt x = true → EndTime x <= EndTime nl
    | None => ftime = 0 ∧ ∀ x, x ∈ order → nlFilter_match flt x = false
    end.
Proof.
  induction order as [|l order IH] using rev_ind; intros Hall.
  - exists 0, None. split; [done|]. split; [done|]. intros x Hx. by apply elem_of_nil in Hx.
  - destruct IH as (ftime & found & Hrun & Hinv).
    { intros x Hx. apply Hall. apply elem_of_app. by left. }
    destruct (Hall l) as [Hfin Hpos]; [apply elem_of_app; right; by apply list_elem_of_singleton|].
    rewrite foldl_app, Hrun. cbn [foldl]. unfold Notifs.find_step.
    rewrite Hfin. cbn [negb].
    destruct (Z.ltb_spec (EndTime l) ftime) as [Hlt|Hge].
    + exists ftime, found. split; [done|].
      destruct found as [nl|].
      * destruct Hinv as (-> & Hin & Hm & Hmax). split_and!; [done| |done|].
        -- apply elem_of_app. by left.
        -- intros x Hx Hmx. apply elem_of_app in Hx as [Hx|Hx]; [by apply Hmax|].
           apply list_elem_of_singleton in Hx as ->. lia.
      * destruct Hinv as [-> _]. lia.
    + destruct (nlFilter_match flt l) eqn:Hmatch; rewrite andb_false_r.
      * exists (EndTime l), (Some l). split; [done|]. split_and!; [done| |done|].
        -- apply elem_of_app. right. by apply list_elem_of_singleton.
        -- intros x Hx Hmx. apply elem_of_app in Hx as [Hx|Hx].
           ++ destruct found as [nl|].
              ** destruct Hinv as (-> & _ & _ & Hmax). specialize (Hmax x Hx Hmx). lia.
              ** destruct Hinv as [_ Hnone]. specialize (Hnone x Hx). congruence.
           ++ apply list_elem_of_singleton in Hx as ->. lia.
      * exists ftime, found. split; [done|].
        destruct found as [nl|].
        -- destruct Hinv as (-> & Hin & Hm & Hmax). split_and!; [done| |done|].
           ++ apply elem_of_app. by left.
           ++ intros x Hx Hmx. apply elem_of_app in Hx as [Hx|Hx]; [by apply Hmax|].
              apply list_elem_of_singleton in Hx as ->. congruence.
        -- destruct Hinv as [-> Hnone]. split; [done|].
           intros x Hx. apply elem_of_app in Hx as [Hx|Hx]; [by apply Hnone|].
           by apply list_elem_of_singleton in Hx as ->.
Qed.

(** Without a match the loop finds nothing, finished or not. *)
Lemma find_loop_no_match (flt : nlFilter Bck) (order : list listener) :
  (∀ x, x ∈ order → nlFilter_match flt x = false) →
  listeners_find flt order = None.
Proof.
  intros Hnone. unfold Notifs.listeners_find.
  assert (foldl (find_step flt) (0, None, false) order = (0, None, false)) as ->; [|done].
  induction order as [|l order IH] using rev_ind; [done|].
  rewrite foldl_app, IH.
  2:{ intros x Hx. apply Hnone. apply elem_of_app. by left. }
  cbn [foldl]. unfold Notifs.find_step.
  rewrite Hnone by (apply elem_of_app; right; by apply list_elem_of_singleton).
  destruct (EndTime l <? 0); [done|]. simpl. done.
Qed.

(** X30. [notifs.find] for a filter without an id, when no running listener
    matches and the filter is not restricted to running ones: it returns a
    listener of the finished table that matches the filter and whose end
    time is the latest among the matching ones, and finds nothing exactly
    when no finished listener matches. [listeners.find] alone has this
    property on any table whose listeners have all finished. *)
Theorem find_latest_finished (flt : nlFilter Bck) run_order fin_order n :
  flt_ID flt = EmptyString → flt_OnlyRunning flt ≠ Some true →
  (∀ x, x ∈ run_order → nlFilter_match flt x = false) →
  (∀ x, x ∈ fin_order → listener_Finished x = true ∧ 0 <= EndTime x) →
  find flt run_order fin_order n = listeners_find flt fin_order ∧
  match find flt run_order fin_order n with
  | Some nl =>
      nl ∈ fin_order ∧ nlFilter_match flt nl = true ∧
      ∀ x, x ∈ fin_order → nlFilter_match flt x = true → EndTime x <= EndTime nl
  | None => ∀ x, x ∈ fin_order → nlFilter_match flt x = false
  end.
Proof.
  intros Hid Honly Hrun Hfin.
  assert (find flt run_order fin_order n = listeners_find flt fin_order) as Heq.
  { unfold Notifs.find. rewrite Hid. simpl.
    rewrite (find_loop_no_match flt run_order Hrun).
    destruct (flt_OnlyRunning flt) as [[|]|]; done. }
  split; [done|]. rewrite Heq. unfold Notifs.listeners_find.
  destruct (find_loop_finished flt fin_order Hfin) as (ftime & found & -> & Hinv). simpl.
  destruct found as [nl|]; [|by destruct Hinv].
  by destruct Hinv as (_ & ? & ? & ?).
Qed.

End FindFacts.

Section BulkExamples.
Import Downloader Dispatcher ProxyBulk.

(** X27 on three objects, two of which are placed on the same target. *)
Lemma bulk_sharding_witness :
  ∃ reqs,
    bulkTargetRequest sample_hrwTarget "job-1" "b" "" "1s"
      [("a1", "http://x/a1"); ("b1", "http://x/b1"); ("a2", "http://x/a2")] = inr reqs ∧
    NoDup reqs.*1 ∧
    (∀ si b, (si, b) ∈ reqs →
       ID b = "job-1" ∧ Bucket b = "b" ∧ BckProvider b = "" ∧ Timeout b = "1s" ∧
       Objs b ≠ [] ∧
       Objs b = dlObj_of <$>
         filter (λ kv, (sample_hrwTarget "b" kv.1).1 = si)
           [("a1", "http://x/a1"); ("b1", "http://x/b1"); ("a2", "http://x/a2")]) ∧
    (∀ kv, kv ∈ [("a1", "http://x/a1"); ("b1", "http://x/b1"); ("a2", "http://x/a2")] →
       ∃ b, ((sample_hrwTarget "b" kv.1).1, b) ∈ reqs ∧ dlObj_of kv ∈ Objs b) ∧
    (∀ kv si b, (si, b) ∈ reqs → dlObj_of kv ∈ Objs b →
       si = (sample_hrwTarget "b" kv.1).1).
Proof.
  eexists. split; [reflexivity|].
  apply (bulk_sharding sample_hrwTarget "job-1" "b" "" "1s"). reflexivity.
Defined.

(** X28 on the same job when the second target refuses its request, and on
    a job with an object that cannot be placed. *)
Lemma bulk_result_witness :
  bulkDownloadProcessor sample_hrwTarget
    (λ method si _, Proxy.sample_call {[ "t2" := 500 ]} method si)
    "job-1" "b" "" "1s"
    [("a1", "http://x/a1"); ("b1", "http://x/b1"); ("a2", "http://x/a2")] reverse =
    Some (ErrFailed ["t2"]) ∧
  ∃ kv, kv ∈ [("a1", "http://x/a1"); ("x1", "http://x/x1")] ∧
    (sample_hrwTarget "b" kv.1).2 ≠ EmptyString ∧
    bulkDownloadProcessor sample_hrwTarget
      (λ method si _, Proxy.sample_call {[ "t2" := 500 ]} method si)
      "job-1" "b" "" "1s" [("a1", "http://x/a1"); ("x1", "http://x/x1")] reverse =
      Some (ErrPlacement (sample_hrwTarget "b" kv.1).2).
Proof.
  split; [reflexivity|].
  apply (bulk_result sample_hrwTarget
           (λ method si _, Proxy.sample_call {[ "t2" := 500 ]} method si)
           "job-1" "b" "" "1s" [("a1", "http://x/a1"); ("x1", "http://x/x1")] reverse).
  - intros reqs. apply reverse_Permutation.
  - exists ("x1", "http://x/x1"). split; [|discriminate].
    apply elem_of_cons. right. apply elem_of_cons. left. reflexivity.
Defined.

End BulkExamples.

Section FindExamples.
Import Notifs.

(** X30 on a finished table with two queries that ended at 5 and at 9. *)
Lemma find_latest_finished_witness :
  find unit (λ _, []) (λ _ _, false) (λ _, true) (λ nl, 0 <? EndTime nl)
    {| flt_ID := ""; flt_Kind := "query"; flt_Bck := None; flt_OnlyRunning := None |}
    [sample_listener "job-1" "single" {[ "t1" ]}]
    [Callback (sample_listener "job-2" "query" ∅) 5;
     Callback (sample_listener "job-3" "query" ∅) 9;
     Callback (sample_listener "job-4" "single" ∅) 12]
    sample_notifs =
  Some (Callback (sample_listener "job-3" "query" ∅) 9).
Proof.
  destruct (find_latest_finished unit (λ _, []) (λ _ _, false) (λ _, true)
              (λ nl, 0 <? EndTime nl)
              {| flt_ID := ""; flt_Kind := "query"; flt_Bck := None; flt_OnlyRunning := None |}
              [sample_listener "job-1" "single" {[ "t1" ]}]
              [Callback (sample_listener "job-2" "query" ∅) 5;
               Callback (sample_listener "job-3" "query" ∅) 9;
               Callback (sample_listener "job-4" "single" ∅) 12]
              sample_notifs) as [Heq _].
  - reflexivity.
  - discriminate.
  - intros x Hx. apply list_elem_of_singleton in Hx as ->. reflexivity.
  - intros x Hx. repeat (apply elem_of_cons in Hx as [->|Hx]; [split; [reflexivity|simpl; lia]|]).
    by apply elem_of_nil in Hx.
  - rewrite Heq. reflexivity.
Defined.

End FindExamples.
